(** * go-toml: the token-stream parser and its tree builder

    A shallow embedding of [parser.go] and of the [treeBuilder] it drives.
    Go's heap of [*Tree] nodes is an explicit store, the [panic] that
    [raiseError] uses to abort a parse is an explicit result, and the
    recursion of [parseRvalue] through arrays and inline tables runs on
    fuel.

    There are two sources of the builder.  The parser is run on the one
    whose struct declares every field its methods use ([assignKeyVal],
    [assignTree], [inlineTableTree]) and whose [builder] interface has
    the methods [parser.go] calls.  [builder.go] is another state of the
    same file: it writes through [b.assignTree] and [b.inlineTableTree],
    which its struct does not declare.  Its [foundValue], [enterArray] and
    [exitArray] are the same text up to the name of the key field, its
    [enterGroupArray] and [enterGroup] also keep [currentTree], and its
    [enterAssign] and [exitInlineTable], which the first source does not
    have in this form, are embedded on their own in the module
    [BuilderGo]. *)

From Stdlib Require Import ZArith List String Ascii Bool Lia.
From stdpp Require Import base option list gmap strings fin_maps.
Import ListNotations.
Local Open Scope string_scope.
Set Warnings "-register-all".

(** ** Values of the Go program *)

(** Modelled from the spec: [Position], declared outside the sources at
    hand: a line and a column, Go [int]s. *)
Record Position := mkPosition { Line : Z; Col : Z }.

(** Go's [float64].  The parser only builds the two infinities and NaN
    itself ([math.Inf], [math.NaN]); every other float comes out of
    [strconv.ParseFloat] and is kept as its IEEE bit pattern. *)
Inductive float64 :=
| FInf (negative : bool)
| FNaN
| FBits (bits : Z).

(** Go's [time.Time], as nanoseconds since the epoch, in UTC. *)
Record Time := mkTime { unixNano : Z }.

(** A [*Tree] is an address in the store. *)
Definition ptr := nat.

(** The dynamic values the program stores in an [interface{}]. *)
Inductive iface :=
| Nil                                                   (* the nil interface *)
| GoString (s : string)
| GoBool (b : bool)
| GoInt64 (n : Z)
| GoFloat64 (f : float64)
| GoTime (t : Time)
| TreePtr (t : ptr)                                     (* *Tree *)
| TreeSlice (ts : list ptr)                             (* []*Tree *)
| IfaceSlice (xs : list iface)                          (* []interface{} *)
| TomlValuePtr (value : iface) (position : Position).   (* *tomlValue *)

(** [reflect.Type], for the dynamic types above. *)
Inductive rtype :=
| TString | TBool | TInt64 | TFloat64 | TTime
| TTreePtr | TTreeSlice | TIfaceSlice | TTomlValuePtr.

#[global] Instance rtype_eq_dec : EqDecision rtype.
Proof. solve_decision. Defined.

(** [reflect.TypeOf]: [None] is the nil [reflect.Type], which
    [reflect.TypeOf(nil)] returns. *)
Definition TypeOf (v : iface) : option rtype :=
  match v with
  | Nil => None
  | GoString _ => Some TString
  | GoBool _ => Some TBool
  | GoInt64 _ => Some TInt64
  | GoFloat64 _ => Some TFloat64
  | GoTime _ => Some TTime
  | TreePtr _ => Some TTreePtr
  | TreeSlice _ => Some TTreeSlice
  | IfaceSlice _ => Some TIfaceSlice
  | TomlValuePtr _ _ => Some TTomlValuePtr
  end.

Definition is_nil (v : iface) : bool :=
  match v with Nil => true | _ => false end.

(** ** Tokens *)

(** Modelled from the spec: the token kinds.  The lexer, which declares
    [tokenType], is not among the sources; these are the kinds the spec
    lists as the parser's input, under the names [parser.go] uses. *)
Inductive tokenType :=
| tokenError | tokenEOF
| tokenKey | tokenKeyGroup | tokenKeyGroupArray
| tokenEqual | tokenComma
| tokenLeftBracket | tokenRightBracket
| tokenDoubleLeftBracket | tokenDoubleRightBracket
| tokenLeftCurlyBrace | tokenRightCurlyBrace
| tokenString | tokenInteger | tokenFloat
| tokenTrue | tokenFalse | tokenDate
| tokenInf | tokenNan.

#[global] Instance tokenType_eq_dec : EqDecision tokenType.
Proof. solve_decision. Defined.

(** Modelled from the spec: a token bears its kind, its literal text and
    its source position. *)
Record token := mkToken { tokPosition : Position; typ : tokenType; val : string }.

(** ** Errors *)

(** Arguments of a format string, kept unrendered. *)
Inductive arg :=
| AStr (s : string)
| ATok (t : option token)
| ATyp (t : tokenType)
| AErr (e : goerror)
with goerror :=
| Errorf (format : string) (args : list arg).

(** How a parse aborts.  [Raised] is the panic of [raiseError]
    ([position.String() + ": " + fmt.Sprintf(msg, args...)]); the other
    two are panics of the Go runtime and the literal [panic("...")]. *)
Inductive panic :=
| Raised (position : Position) (msg : string) (args : list arg)
| NilDereference
| OutOfRange
| PanicString (msg : string).

(** The outcome of running a piece of the program on fuel. *)
Inductive result (A : Type) :=
| Ok (a : A)
| Panicked (e : panic)
| OutOfFuel.
Arguments Ok {A} a.
Arguments Panicked {A} e.
Arguments OutOfFuel {A}.

(** ** The store of trees *)

(** Modelled from the spec: the struct [Tree], missing with [toml.go]: a
    mapping from key segments to values and the position where the tree
    was opened, the two fields the builder uses ([values], [position]).
    The back-reference to the parent serves diagnostics only and is left
    out. *)
Record Tree := mkTree { values : gmap string iface; position : Position }.

(** The store: the tree at address [t] is the [t]-th entry.  Addresses are
    only ever produced by [newTree], so a lookup never misses; a missing
    entry reads as a tree without values. *)
Definition valuesOf (h : list Tree) (t : ptr) : gmap string iface :=
  match h !! t with
  | Some tr => values tr
  | None => ∅
  end.

(** [t.values[key] = v] *)
Definition store (h : list Tree) (t : ptr) (key : string) (v : iface) : list Tree :=
  match h !! t with
  | Some tr => <[t := mkTree (<[key := v]> (values tr)) (position tr)]> h
  | None => h
  end.

(** [t.position = pos] *)
Definition setPosition (h : list Tree) (t : ptr) (pos : Position) : list Tree :=
  match h !! t with
  | Some tr => <[t := mkTree (values tr) pos]> h
  | None => h
  end.

(** Modelled from the spec: [newTree()], missing with [toml.go].  A new
    tree has no values; it lives at the next free address. *)
Definition newTree (h : list Tree) : ptr * list Tree :=
  (List.length h, (h ++ [mkTree ∅ (mkPosition 0 0)])%list).

(** Modelled from the spec: [Tree.GetPath], missing with [toml.go]: the
    path-based get.  The empty path is the tree itself; an intermediate
    segment must hold a table, or a table array, whose most recent
    element is entered (as [enterAssign] does with [node[len(node)-1]]);
    at the last segment a scalar is returned without its position, a
    table or table array as it is, and an absent key as nil. *)
Fixpoint GetPath (h : list Tree) (t : ptr) (keys : list string) : iface :=
  match keys with
  | [] => TreePtr t
  | k :: rest =>
      match rest with
      | [] =>
          match valuesOf h t !! k with
          | Some (TomlValuePtr v _) => v
          | Some node => node
          | None => Nil
          end
      | _ :: _ =>
          match valuesOf h t !! k with
          | Some (TreePtr n) => GetPath h n rest
          | Some (TreeSlice ns) =>
              match last ns with
              | Some n => GetPath h n rest
              | None => Nil
              end
          | _ => Nil
          end
      end
  end.

(** What [SetPath] stores for a value: trees, table arrays and
    [*tomlValue]s as they are, anything else wrapped in a [tomlValue]. *)
Definition toTomlValue (value : iface) : iface :=
  match value with
  | TreePtr _ | TreeSlice _ | TomlValuePtr _ _ => value
  | _ => TomlValuePtr value (mkPosition 0 0)
  end.

(** Modelled from the spec: [Tree.SetPath], missing with [toml.go]: the
    path-based set.  Intermediate tables are created on first use or
    reused, a table array is entered at its most recent element, and the
    last segment receives the value.  [None] is the panic of indexing an
    empty path or an empty table array. *)
Fixpoint SetPath (h : list Tree) (t : ptr) (keys : list string) (value : iface)
  : option (list Tree) :=
  match keys with
  | [] => None
  | k :: rest =>
      match rest with
      | [] => Some (store h t k (toTomlValue value))
      | _ :: _ =>
          match valuesOf h t !! k with
          | None =>
              let '(n, h1) := newTree h in
              SetPath (store h1 t k (TreePtr n)) n rest value
          | Some (TreePtr n) => SetPath h n rest value
          | Some (TreeSlice ns) =>
              match last ns with
              | Some n => SetPath h n rest value
              | None => None
              end
          | Some _ => SetPath h t rest value
          end
      end
  end.

(** Modelled from the spec: [Tree.createSubTree], missing with
    [toml.go]: the path-based create.  It walks the segments from [t],
    creating (with position [pos]) each table that is not there yet,
    reusing a table, entering a table array at its most recent element,
    and fails, with an [error] value, on a segment that holds anything
    else.  The tables created before a failure stay, so the store is
    returned in both cases.  [None] is the panic of indexing an empty
    table array. *)
Fixpoint createSubTree_from (h : list Tree) (t : ptr) (path keys : list string)
  (pos : Position) : option (list Tree * option goerror) :=
  match keys with
  | [] => Some (h, None)
  | k :: rest =>
      match valuesOf h t !! k with
      | None =>
          let '(n, h1) := newTree h in
          let h2 := store (setPosition h1 n pos) t k (TreePtr n) in
          createSubTree_from h2 n path rest pos
      | Some (TreePtr n) => createSubTree_from h n path rest pos
      | Some (TreeSlice ns) =>
          match last ns with
          | Some n => createSubTree_from h n path rest pos
          | None => None
          end
      | Some _ => Some (h, Some (Errorf "unknown type for path %s (%s)"
                                   [AStr (String.concat "." path); AStr k]))
      end
  end.

Definition createSubTree (h : list Tree) (t : ptr) (keys : list string)
  (pos : Position) : option (list Tree * option goerror) :=
  createSubTree_from h t keys keys pos.

(** ** Strings *)

(** [strings.Split(s, sep)] for a one-byte separator. *)
Fixpoint Split (s : string) (sep : ascii) : list string :=
  match s with
  | EmptyString => [EmptyString]
  | String c rest =>
      if Ascii.eqb c sep then EmptyString :: Split rest sep
      else match Split rest sep with
           | seg :: segs => String c seg :: segs
           | [] => [String c EmptyString]
           end
  end.

(** [strings.Join] *)
Definition Join (elems : list string) (sep : string) : string :=
  String.concat sep elems.

(** [strings.HasPrefix] *)
Definition HasPrefix (s prefix : string) : bool := String.prefix prefix s.

(** [strings.Replace] of every underscore by the empty string. *)
Fixpoint removeUnderscores (value : string) : string :=
  match value with
  | EmptyString => EmptyString
  | String c rest =>
      if Ascii.eqb c "_" then removeUnderscores rest
      else String c (removeUnderscores rest)
  end.

(** Modelled from the spec: [parseKey], missing with [keysparsing.go]: it
    decomposes the dotted form of a table key into its path segments.  A
    key with an empty segment is the invalid key the parser reports. *)
Definition parseKey (key : string) : list string + goerror :=
  let segments := Split key "." in
  if existsb (String.eqb EmptyString) segments
  then inr (Errorf "empty table key" [])
  else inl segments.

(** Modelled from the spec: [Tree.Set], missing with [toml.go]: the set
    operation on a dotted key. *)
Definition Set_ (h : list Tree) (t : ptr) (key : string) (value : iface)
  : option (list Tree) :=
  SetPath h t (Split key ".") value.

(** ** [strconv.ParseInt]

    The Go library function, for an explicit base and 64 bits: an optional
    sign, then at least one digit, every digit below the base; the value
    must fit an [int64]. *)

Inductive NumError := ErrSyntax | ErrRange.

Definition between (lo hi c : ascii) : bool :=
  (N.leb (N_of_ascii lo) (N_of_ascii c) && N.leb (N_of_ascii c) (N_of_ascii hi))%bool.

(** The value of a byte as a digit: ['0'..'9'], ['a'..'z'], ['A'..'Z']. *)
Definition digitValue (d : ascii) : option Z :=
  if between "0" "9" d then Some (Z.of_N (N_of_ascii d) - 48)%Z
  else if between "a" "z" d then Some (Z.of_N (N_of_ascii d) - 97 + 10)%Z
  else if between "A" "Z" d then Some (Z.of_N (N_of_ascii d) - 65 + 10)%Z
  else None.

Definition maxUint64 : Z := (2 ^ 64 - 1)%Z.

(** The digit loop of [strconv.ParseUint]: it stops at the first byte that
    is no digit of the base, or at the first overflow, whichever is met
    first. *)
Fixpoint parseUintLoop (base : Z) (s : string) (n : Z) : Z + NumError :=
  match s with
  | EmptyString => inl n
  | String d rest =>
      match digitValue d with
      | None => inr ErrSyntax
      | Some v =>
          if (base <=? v)%Z then inr ErrSyntax
          else if (maxUint64 <? n * base + v)%Z then inr ErrRange
          else parseUintLoop base rest (n * base + v)%Z
      end
  end.

Definition ParseUint (s : string) (base : Z) : Z + NumError :=
  match s with
  | EmptyString => inr ErrSyntax
  | _ => parseUintLoop base s 0%Z
  end.

Definition ParseInt (s : string) (base : Z) : Z + NumError :=
  match s with
  | EmptyString => inr ErrSyntax
  | String c rest =>
      let neg := Ascii.eqb c "-" in
      let digits := if (Ascii.eqb c "+" || neg)%bool then rest else s in
      match ParseUint digits base with
      | inr e => inr e
      | inl un =>
          let cutoff := (2 ^ 63)%Z in
          if (negb neg && (cutoff <=? un)%Z)%bool then inr ErrRange
          else if (neg && (cutoff <? un)%Z)%bool then inr ErrRange
          else inl (if neg then (- un)%Z else un)
      end
  end.

Definition numError (e : NumError) : goerror :=
  match e with
  | ErrSyntax => Errorf "invalid syntax" []
  | ErrRange => Errorf "value out of range" []
  end.

(** ** Regular expressions

    The fragment of Go's [regexp] syntax the two patterns of [init] use:
    bytes, bracket classes, the anchors and alternation. *)
Inductive regexp :=
| Byte (c : ascii)
| Class (negated : bool) (ranges : list (ascii * ascii))
| Bol                       (* ^ *)
| Eol                       (* $ *)
| Cat (r1 r2 : regexp)
| Alt (r1 r2 : regexp).

Definition inClass (negated : bool) (ranges : list (ascii * ascii)) (c : ascii) : bool :=
  xorb negated (existsb (fun r => between (fst r) (snd r) c) ranges).

(** Does [r] match a prefix of [s], with [k] accepting what follows?
    [atStart] tells whether [s] is the whole text. *)
Fixpoint matchPrefix (r : regexp) (atStart : bool) (s : string)
  (k : bool -> string -> bool) : bool :=
  match r with
  | Byte c =>
      match s with
      | String d rest => Ascii.eqb c d && k false rest
      | EmptyString => false
      end
  | Class negated ranges =>
      match s with
      | String d rest => inClass negated ranges d && k false rest
      | EmptyString => false
      end
  | Bol => atStart && k atStart s
  | Eol => match s with EmptyString => k atStart s | _ => false end
  | Cat r1 r2 => matchPrefix r1 atStart s (fun a s' => matchPrefix r2 a s' k)
  | Alt r1 r2 => matchPrefix r1 atStart s k || matchPrefix r2 atStart s k
  end.

Fixpoint searchFrom (r : regexp) (atStart : bool) (s : string) : bool :=
  matchPrefix r atStart s (fun _ _ => true)
  || match s with
     | String _ rest => searchFrom r false rest
     | EmptyString => false
     end.

(** [Regexp.MatchString]: does the text contain a match? *)
Definition MatchString (r : regexp) (s : string) : bool := searchFrom r true s.

Definition digit : list (ascii * ascii) := [("0", "9")]%char.
Definition hexDigit : list (ascii * ascii) := [("0", "9"); ("a", "f")]%char.

(** [regexp.MustCompile(`([^\d]_|_[^\d])|_$|^_`)] *)
Definition numberUnderscoreInvalidRegexp : regexp :=
  Alt (Alt (Alt (Cat (Class true digit) (Byte "_")) (Cat (Byte "_") (Class true digit)))
           (Cat (Byte "_") Eol))
      (Cat Bol (Byte "_")).

(** [regexp.MustCompile(`(^0x_)|([^\da-f]_|_[^\da-f])|_$|^_`)] *)
Definition hexNumberUnderscoreInvalidRegexp : regexp :=
  Alt (Alt (Alt (Cat Bol (Cat (Byte "0") (Cat (Byte "x") (Byte "_"))))
                (Alt (Cat (Class true hexDigit) (Byte "_"))
                     (Cat (Byte "_") (Class true hexDigit))))
           (Cat (Byte "_") Eol))
      (Cat Bol (Byte "_")).

Definition numberContainsInvalidUnderscore (value : string) : option goerror :=
  if MatchString numberUnderscoreInvalidRegexp value
  then Some (Errorf "invalid use of _ in number" [])
  else None.

Definition hexNumberContainsInvalidUnderscore (value : string) : option goerror :=
  if MatchString hexNumberUnderscoreInvalidRegexp value
  then Some (Errorf "invalid use of _ in hex number" [])
  else None.

Definition cleanupNumberToken (value : string) : string := removeUnderscores value.

(** ** The error monad *)

#[global] Instance result_ret : MRet result := fun _ a => Ok a.
#[global] Instance result_bind : MBind result := fun _ _ f m =>
  match m with
  | Ok a => f a
  | Panicked e => Panicked e
  | OutOfFuel => OutOfFuel
  end.

Definition isOk {A} (r : result A) : bool :=
  match r with Ok _ => true | _ => false end.

Definition isPanicked {A} (r : result A) : bool :=
  match r with Panicked _ => true | _ => false end.

(** ** The tree builder

    The [treeBuilder] of the builder source whose struct declares
    [assignKeyVal], [assignTree] and [inlineTableTree], the fields its
    methods use. *)

Record treeBuilder := mkTreeBuilder {
  tree : ptr;
  currentTable : list string;
  seenTableKeys : list string;
  assignKeyVal : string;
  assignPosition : Position;
  assignTree : option ptr;            (* nil until enterAssign sets it *)
  inArray : bool;
  array : list iface;
  arrayType : option rtype;
  inlineTableTree : option ptr
}.

(** The builder object together with the store its trees live in. *)
Record world := mkWorld { heap : list Tree; b : treeBuilder }.

Definition setHeap (h : list Tree) (w : world) : world := mkWorld h (b w).

Definition setCurrentTable (keys : list string) (w : world) : world :=
  let b := b w in
  mkWorld (heap w)
    (mkTreeBuilder (tree b) keys (seenTableKeys b) (assignKeyVal b) (assignPosition b)
       (assignTree b) (inArray b) (array b) (arrayType b) (inlineTableTree b)).

Definition setSeenTableKeys (seen : list string) (w : world) : world :=
  let b := b w in
  mkWorld (heap w)
    (mkTreeBuilder (tree b) (currentTable b) seen (assignKeyVal b) (assignPosition b)
       (assignTree b) (inArray b) (array b) (arrayType b) (inlineTableTree b)).

Definition setAssign (keyVal : string) (target : ptr) (w : world) : world :=
  let b := b w in
  mkWorld (heap w)
    (mkTreeBuilder (tree b) (currentTable b) (seenTableKeys b) keyVal (assignPosition b)
       (Some target) (inArray b) (array b) (arrayType b) (inlineTableTree b)).

Definition setAssignPosition (pos : Position) (w : world) : world :=
  let b := b w in
  mkWorld (heap w)
    (mkTreeBuilder (tree b) (currentTable b) (seenTableKeys b) (assignKeyVal b) pos
       (assignTree b) (inArray b) (array b) (arrayType b) (inlineTableTree b)).

Definition setArray (flag : bool) (xs : list iface) (ty : option rtype) (w : world) : world :=
  let b := b w in
  mkWorld (heap w)
    (mkTreeBuilder (tree b) (currentTable b) (seenTableKeys b) (assignKeyVal b)
       (assignPosition b) (assignTree b) flag xs ty (inlineTableTree b)).

Definition setInlineTableTree (t : ptr) (w : world) : world :=
  let b := b w in
  mkWorld (heap w)
    (mkTreeBuilder (tree b) (currentTable b) (seenTableKeys b) (assignKeyVal b)
       (assignPosition b) (assignTree b) (inArray b) (array b) (arrayType b) (Some t)).

Definition makeTreeBuilder : world :=
  let '(tree, h) := newTree [] in
  mkWorld (setPosition h tree (mkPosition 1 1))
    (mkTreeBuilder tree [] [] EmptyString (mkPosition 0 0) None false [] None None).

(** [b.raiseError(position, msg, args...)] *)
Definition raiseError {A} (position : Position) (msg : string) (args : list arg) : result A :=
  Panicked (Raised position msg args).

(** The loop of [enterGroupArray] over [seenTableKeys]: a key under
    [prefix] is cut out of the slice, any other key is kept and decides
    [found]. *)
Fixpoint removeChildren (prefix key : string) (seen : list string) (found : bool)
  : list string * bool :=
  match seen with
  | [] => ([], found)
  | tableKey :: rest =>
      if HasPrefix tableKey prefix then removeChildren prefix key rest found
      else let '(kept, found') := removeChildren prefix key rest (String.eqb tableKey key) in
           (tableKey :: kept, found')
  end.

Definition enterGroupArray (key : string) (keys : list string) (position : Position)
  (w : world) : result world :=
  (* get or create table array element at the indicated part in the path *)
  match keys with
  | [] => Panicked OutOfRange          (* keys[:len(keys)-1] *)
  | _ :: _ =>
      match createSubTree (heap w) (tree (b w)) (removelast keys) position with
      | None => Panicked OutOfRange
      | Some (h, _) =>
          let destTree := GetPath h (tree (b w)) keys in
          array ← match destTree with
                  | Nil => Ok []
                  | TreeSlice target => Ok target
                  | _ => raiseError position
                           "key %s is already assigned and not of type table array"
                           [AStr key]
                  end;
          let w := setCurrentTable keys (setHeap h w) in
          (* add a new tree to the end of the table array *)
          let '(newTree, h) := newTree (heap w) in
          let h := setPosition h newTree position in
          let array := (array ++ [newTree])%list in
          match SetPath h (tree (b w)) (currentTable (b w)) (TreeSlice array) with
          | None => Panicked OutOfRange
          | Some h =>
              let w := setHeap h w in
              (* remove all keys that were children of this table array *)
              let prefix := key +:+ "." in
              let '(seen, found) :=
                removeChildren prefix key (seenTableKeys (b w)) false in
              (* keep this key name from use by other kinds of assignments *)
              Ok (setSeenTableKeys (if found then seen else seen ++ [key])%list w)
          end
      end
  end.

Definition enterGroup (key : string) (keys : list string) (position : Position)
  (w : world) : result world :=
  if existsb (fun item => String.eqb item key) (seenTableKeys (b w))
  then raiseError position "duplicated tables" []
  else
    let w := setSeenTableKeys (seenTableKeys (b w) ++ [key])%list w in
    match createSubTree (heap w) (tree (b w)) keys position with
    | None => Panicked OutOfRange
    | Some (h, Some err) => raiseError position "%s" [AErr err]
    | Some (h, None) => Ok (setCurrentTable keys (setHeap h w))
    end.

(** The parameter [key] is never read: the key looked up and recorded is
    the builder's own [assignKeyVal]. *)
Definition enterAssign (key : string) (position : Position) (w : world) : result world :=
  let w := setAssignPosition position w in
  let tableKey := if (0 <? List.length (currentTable (b w)))%nat
                  then currentTable (b w) else [] in
  (* find the table to assign, looking out for arrays of tables *)
  targetNode ← match GetPath (heap w) (tree (b w)) tableKey with
               | TreeSlice node =>
                   match last node with
                   | Some t => Ok t
                   | None => Panicked OutOfRange
                   end
               | TreePtr node => Ok node
               | _ => raiseError position "Unknown table type for path: %s"
                        [AStr (Join tableKey ".")]
               end;
  let keyVals := [assignKeyVal (b w)] in
  match keyVals with
  | [keyVal] =>
      let localKey := [keyVal] in
      let finalKey := (tableKey ++ [keyVal])%list in
      if negb (is_nil (GetPath (heap w) targetNode localKey))
      then raiseError position "The following key was defined twice: %s"
             [AStr (Join finalKey ".")]
      else Ok (setAssign keyVal targetNode w)
  | _ => raiseError position "Invalid key" []
  end.

Definition foundValue (value : iface) (position : Position) (w : world) : result world :=
  if inArray (b w) then
    let arrayType := match arrayType (b w) with
                     | None => TypeOf value
                     | Some ty => Some ty
                     end in
    if negb (bool_decide (TypeOf value = arrayType))
    then raiseError position "mixed types in array" []
    else Ok (setArray true (array (b w) ++ [value])%list arrayType w)
  else
    let toInsert := match value with
                    | TreePtr _ | TreeSlice _ => value
                    | _ => TomlValuePtr value (assignPosition (b w))
                    end in
    match assignTree (b w) with
    | None => Panicked NilDereference
    | Some t => Ok (setHeap (store (heap w) t (assignKeyVal (b w)) toInsert) w)
    end.

Definition enterArray (w : world) : result world :=
  Ok (setArray true [] None w).

(** The type assertion of every element of the buffer to a tree pointer. *)
Fixpoint asTrees (xs : list iface) : option (list ptr) :=
  match xs with
  | [] => Some []
  | TreePtr t :: rest => option_map (cons t) (asTrees rest)
  | _ :: _ => None
  end.

Definition exitArray (w : world) : result world :=
  (* An array of Trees is actually an array of inline tables, which is a
     shorthand for a table array. *)
  if bool_decide (arrayType (b w) = Some TTreePtr) then
    match asTrees (array (b w)) with
    | None => Panicked (PanicString "interface conversion")
    | Some tomlArray =>
        match assignTree (b w) with
        | None => Panicked NilDereference
        | Some t =>
            Ok (setHeap (store (heap w) t (assignKeyVal (b w)) (TreeSlice tomlArray)) w)
        end
    end
  else
    match assignTree (b w) with
    | None => Panicked NilDereference
    | Some t =>
        let w := setHeap (store (heap w) t (assignKeyVal (b w))
                            (TomlValuePtr (IfaceSlice (array (b w))) (assignPosition (b w)))) w in
        Ok (setArray false (array (b w)) (arrayType (b w)) w)
    end.

Definition enterInlineTable (w : world) : result world :=
  let '(t, h) := newTree (heap w) in
  Ok (setInlineTableTree t (setHeap h w)).

(** ** The parser *)

(** What the parser asks of Go's library beyond [strconv.ParseInt]: the
    conversion of a float literal ([strconv.ParseFloat(s, 64)]) and of an
    RFC 3339 date ([time.ParseInLocation(time.RFC3339Nano, s, time.UTC)]).
    Floating point and calendars are outside this development; the parser
    is stated for every behaviour of the two. *)
Record GoLibrary := mkGoLibrary {
  ParseFloat : string -> float64 + goerror;
  ParseInLocation : string -> Time + goerror
}.

(** [tomlParser]; [builder] is the builder object with the store. *)
Record tomlParser := mkTomlParser {
  flowIdx : nat;
  flow : list token;
  builder : world
}.

(** A method of the parser: it may panic, and it may change the parser. *)
Definition method (A : Type) : Type := tomlParser -> result (A * tomlParser).

Definition ret {A} (a : A) : method A := fun p => Ok (a, p).

Definition bind {A B} (m : method A) (f : A -> method B) : method B := fun p =>
  match m p with
  | Ok (a, p') => f a p'
  | Panicked e => Panicked e
  | OutOfFuel => OutOfFuel
  end.

Notation "'let*' x ':=' m 'in' k" := (bind m (fun x => k))
  (at level 10, x name, m at level 100, k at level 200).
Notation "'let*' '_' ':=' m 'in' k" := (bind m (fun _ => k))
  (at level 10, m at level 100, k at level 200).

Definition abort {A} (e : panic) : method A := fun _ => Panicked e.

(** [p.raiseError(tok, msg, args...)]: it reads [tok.Position], so a nil
    token is a nil dereference. *)
Definition raiseErrorAt {A} (tok : option token) (msg : string) (args : list arg)
  : method A :=
  match tok with
  | Some t => abort (Raised (tokPosition t) msg args)
  | None => abort NilDereference
  end.

(** A call of a builder method through [p.builder]. *)
Definition onBuilder (f : world -> result world) : method unit := fun p =>
  w ← f (builder p);
  Ok (tt, mkTomlParser (flowIdx p) (flow p) w).

Definition peek : method (option token) := fun p =>
  Ok (flow p !! flowIdx p, p).

Definition getToken : method (option token) :=
  let* tok := peek in
  match tok with
  | None => ret None
  | Some t => fun p => Ok (Some t, mkTomlParser (S (flowIdx p)) (flow p) (builder p))
  end.

Definition assume (ty : tokenType) : method unit :=
  let* tok := getToken in
  match tok with
  | None => raiseErrorAt tok "was expecting token %s, but token stream is empty" [ATok tok]
  | Some t =>
      if bool_decide (typ t ≠ ty)
      then raiseErrorAt tok "was expecting token %s, but got %s instead" [ATyp ty; ATok tok]
      else ret tt
  end.

(** The states of the parser: the methods of type [tomlParserStateFn]. *)
Inductive tomlParserStateFn :=
| parseStartFn | parseGroupArrayFn | parseGroupFn | parseAssignFn.

#[global] Instance tomlParserStateFn_eq_dec : EqDecision tomlParserStateFn.
Proof. solve_decision. Defined.

(** [None] is the nil state function, which ends [run]. *)
Definition parseStart : method (option tomlParserStateFn) :=
  let* tok := peek in
  match tok with
  | None => ret None                      (* end of stream, parsing is finished *)
  | Some t =>
      match typ t with
      | tokenDoubleLeftBracket => ret (Some parseGroupArrayFn)
      | tokenLeftBracket => ret (Some parseGroupFn)
      | tokenKey => ret (Some parseAssignFn)
      | tokenEOF => ret None
      | _ => raiseErrorAt tok "unexpected token" []
      end
  end.

Definition parseGroupArray : method (option tomlParserStateFn) :=
  let* startToken := getToken in (* discard the [[ *)
  let* key := getToken in
  match key with
  | None => abort NilDereference
  | Some k =>
      if bool_decide (typ k ≠ tokenKeyGroupArray)
      then raiseErrorAt key "unexpected token %s, was expecting a table array key" [ATok key]
      else
        match parseKey (val k) with
        | inr err => raiseErrorAt key "invalid table array key: %s" [AErr err]
        | inl keys =>
            match startToken with
            | None => abort NilDereference
            | Some st =>
                let* _ := onBuilder (enterGroupArray (val k) keys (tokPosition st)) in
                (* move to next parser state *)
                let* _ := assume tokenDoubleRightBracket in
                ret (Some parseStartFn)
            end
        end
  end.

Definition parseGroup : method (option tomlParserStateFn) :=
  let* startToken := getToken in (* discard the [ *)
  let* key := getToken in
  match key with
  | None => abort NilDereference
  | Some k =>
      if bool_decide (typ k ≠ tokenKeyGroup)
      then raiseErrorAt key "unexpected token %s, was expecting a table key" [ATok key]
      else
        match parseKey (val k) with
        | inr err => raiseErrorAt key "invalid table array key: %s" [AErr err]
        | inl keys =>
            match startToken with
            | None => abort NilDereference
            | Some st =>
                let* _ := onBuilder (enterGroup (val k) keys (tokPosition st)) in
                let* _ := assume tokenRightBracket in
                ret (Some parseStartFn)
            end
        end
  end.

Definition tokenIsComma (t : option token) : bool :=
  match t with
  | Some t => bool_decide (typ t = tokenComma)
  | None => false
  end.

(** The end the branches of the integer case share: raise the error of
    the separator check, or the error of [strconv.ParseInt], or hand over
    the value. *)
Definition checkedParseInt (tok : token) (invalid : option goerror) (digits : string)
  (base : Z) : result Z :=
  match invalid with
  | Some err => Panicked (Raised (tokPosition tok) "%s" [AErr err])
  | None =>
      match ParseInt digits base with
      | inr err => Panicked (Raised (tokPosition tok) "%s" [AErr (numError err)])
      | inl n => Ok n
      end
  end.

(** The integer case of [parseRvalue], up to the call of [foundValue]. *)
Definition parseInteger (tok : token) : result Z :=
  let cleanedVal := cleanupNumberToken (val tok) in
  match cleanedVal with
  | String c0 (String c1 (String c2 rest)) =>        (* len(cleanedVal) >= 3 *)
      if Ascii.eqb c0 "0" then
        let digits := String c2 rest in               (* cleanedVal[2:] *)
        if Ascii.eqb c1 "x" then
          checkedParseInt tok (hexNumberContainsInvalidUnderscore (val tok)) digits 16%Z
        else if Ascii.eqb c1 "o" then
          checkedParseInt tok (numberContainsInvalidUnderscore (val tok)) digits 8%Z
        else if Ascii.eqb c1 "b" then
          checkedParseInt tok (numberContainsInvalidUnderscore (val tok)) digits 2%Z
        else Panicked (PanicString "invalid base")    (* the lexer should catch this first *)
      else checkedParseInt tok (numberContainsInvalidUnderscore (val tok)) cleanedVal 10%Z
  | _ => checkedParseInt tok (numberContainsInvalidUnderscore (val tok)) cleanedVal 10%Z
  end.

(** [tree.Set(key, value)] on the tree at [t]. *)
Definition treeSet (t : ptr) (key : string) (value : iface) : method unit := fun p =>
  match Set_ (heap (builder p)) t key value with
  | Some h => Ok (tt, mkTomlParser (flowIdx p) (flow p) (setHeap h (builder p)))
  | None => Panicked OutOfRange
  end.

Section Parser.

Context (lib : GoLibrary).

(** The loop of [parseArray], given the parser of one element. *)
Fixpoint parseArrayLoop (parseRvalue : method iface) (fuel : nat) : method unit :=
  match fuel with
  | O => fun _ => OutOfFuel
  | S fuel =>
      let* follow := peek in
      match follow with
      | None => raiseErrorAt follow "unterminated array" []
      | Some f =>
          if bool_decide (typ f = tokenEOF) then raiseErrorAt follow "unterminated array" []
          else if bool_decide (typ f = tokenRightBracket) then
            let* _ := getToken in ret tt
          else
            let* _ := parseRvalue in
            let* follow := peek in
            match follow with
            | None => raiseErrorAt follow "unterminated array" []
            | Some f =>
                if bool_decide (typ f = tokenEOF)
                then raiseErrorAt follow "unterminated array" []
                else if bool_decide (typ f ≠ tokenRightBracket) && bool_decide (typ f ≠ tokenComma)
                then raiseErrorAt follow "missing comma" []
                else
                  let* _ := (if bool_decide (typ f = tokenComma) then getToken else ret None) in
                  parseArrayLoop parseRvalue fuel
            end
      end
  end.

Definition parseArray (parseRvalue : method iface) (fuel : nat) : method unit :=
  let* _ := onBuilder enterArray in
  let* _ := parseArrayLoop parseRvalue fuel in
  onBuilder exitArray.

(** The loop of [parseInlineTable], given the parser of one value.
    [tree] is the tree the function writes the pairs to. *)
Fixpoint parseInlineTableLoop (parseRvalue : method iface) (tree : option ptr)
  (previous : option token) (fuel : nat) : method (option token) :=
  match fuel with
  | O => fun _ => OutOfFuel
  | S fuel =>
      let* follow := peek in
      match follow with
      | None => raiseErrorAt follow "unterminated inline table" []
      | Some f =>
          match typ f with
          | tokenEOF => raiseErrorAt follow "unterminated inline table" []
          | tokenRightCurlyBrace => let* _ := getToken in ret previous
          | tokenKey =>
              if negb (tokenIsComma previous) && bool_decide (previous ≠ None)
              then raiseErrorAt follow "comma expected between fields in inline table" []
              else
                let* key := getToken in
                let* _ := assume tokenEqual in
                let* value := parseRvalue in
                match key, tree with
                | Some k, Some t =>
                    let* _ := treeSet t (val k) value in
                    parseInlineTableLoop parseRvalue tree follow fuel
                | _, _ => abort NilDereference
                end
          | tokenComma =>
              if bool_decide (previous = None)
              then raiseErrorAt follow "inline table cannot start with a comma" []
              else if tokenIsComma previous
              then raiseErrorAt follow "need field between two commas in inline table" []
              else let* _ := getToken in parseInlineTableLoop parseRvalue tree follow fuel
          | _ => raiseErrorAt follow "unexpected token type in inline table: %s" [ATok follow]
          end
      end
  end.

(** [parseInlineTable].  [parser.go] does not declare the [tree] it writes
    to and returns; it stands here for the tree [enterInlineTable] has
    just made, the only one the function creates.  That tree is never
    linked into the root tree, so the choice does not show in the result
    of a parse. *)
Definition parseInlineTable (parseRvalue : method iface) (fuel : nat) : method iface :=
  let* _ := onBuilder enterInlineTable in
  let* tree := (fun p => Ok (inlineTableTree (b (builder p)), p)) in
  let* previous := parseInlineTableLoop parseRvalue tree None fuel in
  if tokenIsComma previous
  then raiseErrorAt previous "trailing comma at the end of inline table" []
  else ret (match tree with Some t => TreePtr t | None => Nil end).

Definition found (tok : token) (value : iface) : method iface :=
  let* _ := onBuilder (foundValue value (tokPosition tok)) in ret value.

Fixpoint parseRvalue (fuel : nat) : method iface :=
  match fuel with
  | O => fun _ => OutOfFuel
  | S fuel =>
      let* tok := getToken in
      match tok with
      | None => raiseErrorAt tok "expecting a value" []
      | Some t =>
          match typ t with
          | tokenEOF => raiseErrorAt tok "expecting a value" []
          | tokenString => found t (GoString (val t))
          | tokenTrue => found t (GoBool true)
          | tokenFalse => found t (GoBool false)
          | tokenInf =>
              match val t with
              | EmptyString => abort OutOfRange        (* tok.val[0] *)
              | String c _ =>
                  if Ascii.eqb c "-" then found t (GoFloat64 (FInf true))
                  else found t (GoFloat64 (FInf false))
              end
          | tokenNan => found t (GoFloat64 FNaN)
          | tokenInteger =>
              match parseInteger t with
              | Ok n => found t (GoInt64 n)
              | Panicked e => abort e
              | OutOfFuel => fun _ => OutOfFuel
              end
          | tokenFloat =>
              match numberContainsInvalidUnderscore (val t) with
              | Some err => raiseErrorAt tok "%s" [AErr err]
              | None =>
                  match ParseFloat lib (cleanupNumberToken (val t)) with
                  | inr err => raiseErrorAt tok "%s" [AErr err]
                  | inl f => found t (GoFloat64 f)
                  end
              end
          | tokenDate =>
              match ParseInLocation lib (val t) with
              | inr err => raiseErrorAt tok "%s" [AErr err]
              | inl d => found t (GoTime d)
              end
          | tokenLeftBracket => let* _ := parseArray (parseRvalue fuel) fuel in ret Nil
          | tokenLeftCurlyBrace => parseInlineTable (parseRvalue fuel) fuel
          | tokenEqual => raiseErrorAt tok "cannot have multiple equals for the same key" []
          | tokenError => raiseErrorAt tok "%s" [ATok tok]
          | _ => raiseErrorAt tok "never reached" []
          end
      end
  end.

(** The tokens not yet consumed bound the depth of the values that can
    still be parsed. *)
Definition remaining (p : tomlParser) : nat := List.length (flow p) - flowIdx p.

Definition parseAssign : method (option tomlParserStateFn) :=
  let* key := getToken in
  let* _ := assume tokenEqual in
  match key with
  | None => abort NilDereference
  | Some k =>
      let* _ := onBuilder (enterAssign (val k) (tokPosition k)) in
      let* _ := (fun p => parseRvalue (S (remaining p)) p) in
      (* p.exitAssign() TODO: maybe? *)
      ret (Some parseStartFn)
  end.

(** One call [state()] of the loop of [run]. *)
Definition call (state : tomlParserStateFn) : method (option tomlParserStateFn) :=
  match state with
  | parseStartFn => parseStart
  | parseGroupArrayFn => parseGroupArray
  | parseGroupFn => parseGroup
  | parseAssignFn => parseAssign
  end.

(** The loop of [run], from [state]. *)
Fixpoint runFrom (fuel : nat) (state : tomlParserStateFn) : method unit :=
  match fuel with
  | O => fun _ => OutOfFuel
  | S fuel =>
      let* next := call state in
      match next with
      | None => ret tt
      | Some state' => runFrom fuel state'
      end
  end.

(** Every state called consumes a token, or is [parseStart] between two
    that do: this many calls exhaust any flow. *)
Definition enoughFuel (flow : list token) : nat := 2 * List.length flow + 2.

Definition run : method unit := fun p => runFrom (enoughFuel (flow p)) parseStartFn p.

(** [parseToml]: the builder it returns the tree of, with the store. *)
Definition parseToml (flow : list token) : result world :=
  let parser := mkTomlParser 0 flow makeTreeBuilder in
  '(_, parser) ← run parser;
  Ok (builder parser).

End Parser.

(** ** Reading a finished parse *)

(** The values of the root tree. *)
Definition rootValues (w : world) : gmap string iface :=
  valuesOf (heap w) (tree (b w)).

(** What the tree of the last assignment holds at the key the builder
    recorded for it. *)
Definition assigned (w : world) : option iface :=
  match assignTree (b w) with
  | Some t => valuesOf (heap w) t !! assignKeyVal (b w)
  | None => None
  end.

(** ** Documents, as the lexer hands them to the parser *)

Definition tok (line col : Z) (ty : tokenType) (text : string) : token :=
  mkToken (mkPosition line col) ty text.

(** [key = "text"] *)
Definition doc_assign_string (key text : string) : list token :=
  [tok 1 1 tokenKey key; tok 1 7 tokenEqual "="; tok 1 9 tokenString text;
   tok 1 12 tokenEOF EmptyString].

(** [title = "x"] *)
Definition doc_title : list token := doc_assign_string "title" "x".

(** Two assignments of integers, on two lines. *)
Definition doc_two_assigns (key1 int1 key2 int2 : string) : list token :=
  [tok 1 1 tokenKey key1; tok 1 5 tokenEqual "="; tok 1 7 tokenInteger int1;
   tok 2 1 tokenKey key2; tok 2 5 tokenEqual "="; tok 2 7 tokenInteger int2;
   tok 2 8 tokenEOF EmptyString].

(** [a = 1] then [a = 2] *)
Definition doc_a_twice : list token := doc_two_assigns "a" "1" "a" "2".

(** [a.b = 1] then [a.c = 2] *)
Definition doc_dotted_pair : list token := doc_two_assigns "a.b" "1" "a.c" "2".

(** [a.b = 1] *)
Definition doc_dotted : list token :=
  [tok 1 1 tokenKey "a.b"; tok 1 5 tokenEqual "="; tok 1 7 tokenInteger "1";
   tok 1 8 tokenEOF EmptyString].

(** The header [[key]] on a line of its own. *)
Definition header (line : Z) (key : string) : list token :=
  [tok line 1 tokenLeftBracket "["; tok line 2 tokenKeyGroup key;
   tok line 9 tokenRightBracket "]"].

(** The header [[[key]]] on a line of its own. *)
Definition arrayHeader (line : Z) (key : string) : list token :=
  [tok line 1 tokenDoubleLeftBracket "[["; tok line 3 tokenKeyGroupArray key;
   tok line 9 tokenDoubleRightBracket "]]"].

(** [key = int] on a line of its own. *)
Definition assignInt (line : Z) (key int : string) : list token :=
  [tok line 1 tokenKey key; tok line 3 tokenEqual "="; tok line 5 tokenInteger int].

Definition eof (line : Z) : list token := [tok line 1 tokenEOF EmptyString].

(** [[a]] twice *)
Definition doc_table_twice : list token :=
  (header 1 "a" ++ header 2 "a" ++ eof 3)%list.

(** [[[a]]] twice *)
Definition doc_table_array_twice : list token :=
  (arrayHeader 1 "a" ++ arrayHeader 2 "a" ++ eof 3)%list.

(** [[[x]]], [a = 1], [[[x]]], [a = 2] *)
Definition doc_table_array_x : list token :=
  (arrayHeader 1 "x" ++ assignInt 2 "a" "1" ++ arrayHeader 3 "x" ++ assignInt 4 "a" "2"
   ++ eof 5)%list.

(** [x = [1, "a"]] *)
Definition doc_mixed_array : list token :=
  [tok 1 1 tokenKey "x"; tok 1 3 tokenEqual "="; tok 1 5 tokenLeftBracket "[";
   tok 1 6 tokenInteger "1"; tok 1 7 tokenComma ","; tok 1 9 tokenString "a";
   tok 1 12 tokenRightBracket "]"; tok 1 13 tokenEOF EmptyString].

(** [x = [1, 2]] *)
Definition doc_int_array : list token :=
  [tok 1 1 tokenKey "x"; tok 1 3 tokenEqual "="; tok 1 5 tokenLeftBracket "[";
   tok 1 6 tokenInteger "1"; tok 1 7 tokenComma ","; tok 1 9 tokenInteger "2";
   tok 1 10 tokenRightBracket "]"; tok 1 11 tokenEOF EmptyString].

(** [x = [1, 2,]] *)
Definition doc_trailing_comma : list token :=
  [tok 1 1 tokenKey "x"; tok 1 3 tokenEqual "="; tok 1 5 tokenLeftBracket "[";
   tok 1 6 tokenInteger "1"; tok 1 7 tokenComma ","; tok 1 9 tokenInteger "2";
   tok 1 10 tokenComma ","; tok 1 11 tokenRightBracket "]"; tok 1 12 tokenEOF EmptyString].

(** [x = [1,,2]] *)
Definition doc_double_comma : list token :=
  [tok 1 1 tokenKey "x"; tok 1 3 tokenEqual "="; tok 1 5 tokenLeftBracket "[";
   tok 1 6 tokenInteger "1"; tok 1 7 tokenComma ","; tok 1 8 tokenComma ",";
   tok 1 9 tokenInteger "2"; tok 1 10 tokenRightBracket "]"; tok 1 11 tokenEOF EmptyString].

(** [x = [{a=1},{a=2}]] *)
Definition doc_inline_table_array : list token :=
  [tok 1 1 tokenKey "x"; tok 1 3 tokenEqual "="; tok 1 5 tokenLeftBracket "[";
   tok 1 6 tokenLeftCurlyBrace "{"; tok 1 7 tokenKey "a"; tok 1 8 tokenEqual "=";
   tok 1 9 tokenInteger "1"; tok 1 10 tokenRightCurlyBrace "}"; tok 1 11 tokenComma ",";
   tok 1 12 tokenLeftCurlyBrace "{"; tok 1 13 tokenKey "a"; tok 1 14 tokenEqual "=";
   tok 1 15 tokenInteger "2"; tok 1 16 tokenRightCurlyBrace "}";
   tok 1 17 tokenRightBracket "]"; tok 1 18 tokenEOF EmptyString].

(** [t = {a = 1, b = 2}] *)
Definition doc_inline_table : list token :=
  [tok 1 1 tokenKey "t"; tok 1 3 tokenEqual "="; tok 1 5 tokenLeftCurlyBrace "{";
   tok 1 6 tokenKey "a"; tok 1 8 tokenEqual "="; tok 1 10 tokenInteger "1";
   tok 1 11 tokenComma ","; tok 1 13 tokenKey "b"; tok 1 15 tokenEqual "=";
   tok 1 17 tokenInteger "2"; tok 1 18 tokenRightCurlyBrace "}";
   tok 1 19 tokenEOF EmptyString].

(** [x = [[1,2],[3,4]]] *)
Definition doc_nested_array : list token :=
  [tok 1 1 tokenKey "x"; tok 1 3 tokenEqual "="; tok 1 5 tokenLeftBracket "[";
   tok 1 6 tokenLeftBracket "["; tok 1 7 tokenInteger "1"; tok 1 8 tokenComma ",";
   tok 1 9 tokenInteger "2"; tok 1 10 tokenRightBracket "]"; tok 1 11 tokenComma ",";
   tok 1 12 tokenLeftBracket "["; tok 1 13 tokenInteger "3"; tok 1 14 tokenComma ",";
   tok 1 15 tokenInteger "4"; tok 1 16 tokenRightBracket "]";
   tok 1 17 tokenRightBracket "]"; tok 1 18 tokenEOF EmptyString].

(** [x = int] *)
Definition doc_integer (int : string) : list token :=
  (assignInt 1 "x" int ++ eof 2)%list.

(** A Go library that converts no float and no date; the documents above
    contain neither. *)
Definition noLibrary : GoLibrary :=
  mkGoLibrary (fun _ => inr (Errorf "invalid syntax" []))
              (fun _ => inr (Errorf "cannot parse" [])).

(** ** Runs of the state machine *)

(** The first [n] calls of the loop of [run] from [state]: the state to
    call next ([None] once the loop has ended) and the parser. *)
Fixpoint steps (lib : GoLibrary) (n : nat) (state : tomlParserStateFn)
  : method (option tomlParserStateFn) :=
  match n with
  | O => ret (Some state)
  | S n =>
      let* next := call lib state in
      match next with
      | None => ret None
      | Some state' => steps lib n state'
      end
  end.

(** The parser at the start of a flow. *)
Definition start (flow : list token) : tomlParser := mkTomlParser 0 flow makeTreeBuilder.

(** The next two tokens are [[] and the table key [key]. *)
Definition declaresTable (key : string) (p : tomlParser) : Prop :=
  exists t1 t2,
    flow p !! flowIdx p = Some t1 /\ typ t1 = tokenLeftBracket /\
    flow p !! S (flowIdx p) = Some t2 /\ typ t2 = tokenKeyGroup /\ val t2 = key.

(** A key without a dot: the name of a top-level table, like [a]. *)
Fixpoint noDot (key : string) : bool :=
  match key with
  | EmptyString => true
  | String c rest => negb (Ascii.eqb c ".") && noDot rest
  end.

(** ** Arrays, element by element *)

(** The calls of [foundValue] for the elements of an array, in order. *)
Fixpoint foundValues (elements : list (iface * Position)) (w : world) : result world :=
  match elements with
  | [] => Ok w
  | (value, position) :: rest => w' ← foundValue value position w; foundValues rest w'
  end.

(** The spec's homogeneity check: the position of the first element whose
    kind is not the kind of the first element, if there is one. *)
Definition firstOfOtherKind (elements : list (iface * Position)) : option Position :=
  match elements with
  | [] => None
  | first :: rest =>
      option_map snd
        (List.find (fun e => negb (bool_decide (TypeOf (fst e) = TypeOf (fst first)))) rest)
  end.

(** The kind of the first element; nil for no element. *)
Definition kindOfFirst (elements : list (iface * Position)) : option rtype :=
  match elements with
  | [] => None
  | first :: _ => TypeOf (fst first)
  end.

(** ** Digit separators, as the spec words them *)

Definition isDecimalDigit (c : ascii) : bool := between "0" "9" c.
Definition isHexDigit (c : ascii) : bool := between "0" "9" c || between "a" "f" c.

Definition isUnderscore (c : ascii) : bool := Ascii.eqb "_" c.

(** The first byte of [s] satisfies [P]. *)
Definition headIs (P : ascii -> bool) (s : string) : bool :=
  match s with
  | String c _ => P c
  | EmptyString => false
  end.

(** Every [_] of [s] has a digit right before it and right after it;
    [previous] is the byte before [s]. *)
Fixpoint flankedFrom (isDigit : ascii -> bool) (previous : option ascii) (s : string) : bool :=
  match s with
  | EmptyString => true
  | String c rest =>
      (if isUnderscore c
       then match previous with Some d => isDigit d | None => false end
            && headIs isDigit rest
       else true)
      && flankedFrom isDigit (Some c) rest
  end.

Definition separatorsFlanked (isDigit : ascii -> bool) (s : string) : bool :=
  flankedFrom isDigit None s.

(** What the two patterns look for at one place of the text: a [_] after
    a byte that is no digit, a [_] before a byte that is no digit or at
    the end, a [_] at the start. *)
Definition invalidAt (isDigit : ascii -> bool) (atStart : bool) (s : string) : bool :=
  match s with
  | EmptyString => false
  | String c rest =>
      negb (isDigit c) && headIs isUnderscore rest
      || isUnderscore c && negb (headIs isDigit rest)
      || atStart && isUnderscore c
  end.

(** ... and at any place from the start of [s] on. *)
Fixpoint invalidFrom (isDigit : ascii -> bool) (atStart : bool) (s : string) : bool :=
  invalidAt isDigit atStart s
  || match s with
     | String _ rest => invalidFrom isDigit false rest
     | EmptyString => false
     end.

(** The text starts with [0x_]. *)
Definition startsWith0x_ (s : string) : bool :=
  match s with
  | String c0 (String c1 (String c2 _)) =>
      Ascii.eqb "0" c0 && (Ascii.eqb "x" c1 && isUnderscore c2)
  | _ => false
  end.

(** The base a cleaned literal is read in, and its digits: a [0x], [0o] or
    [0b] prefix followed by something selects 16, 8 or 2, anything else is
    base 10. *)
Definition baseAndDigits (cleanedVal : string) : Z * string :=
  match cleanedVal with
  | String c0 (String c1 (String c2 rest)) =>
      if Ascii.eqb c0 "0" && Ascii.eqb c1 "x" then (16%Z, String c2 rest)
      else if Ascii.eqb c0 "0" && Ascii.eqb c1 "o" then (8%Z, String c2 rest)
      else if Ascii.eqb c0 "0" && Ascii.eqb c1 "b" then (2%Z, String c2 rest)
      else (10%Z, cleanedVal)
  | _ => (10%Z, cleanedVal)
  end.

(** The digits that may flank a separator: hexadecimal ones in a [0x]
    literal, decimal ones otherwise. *)
Definition separatorDigit (cleanedVal : string) : ascii -> bool :=
  if (fst (baseAndDigits cleanedVal) =? 16)%Z then isHexDigit else isDecimalDigit.

Definition integerToken (text : string) : token := tok 1 5 tokenInteger text.

(** ** The other builder source

    [builder.go] declares the struct with [assignKey] and [currentTree];
    these are its [makeTreeBuilder], its [enterAssign] and its
    [exitInlineTable]. *)
Module BuilderGo.

Record treeBuilder := mkTreeBuilder {
  tree : ptr;
  currentTable : list string;
  seenTableKeys : list string;
  assignKey : string;
  assignPosition : Position;
  currentTree : option ptr;           (* points to the current tree being built *)
  inArray : bool;
  array : list iface;
  arrayType : option rtype
}.

(** [makeTreeBuilder] sets [tree], [currentTable] and [seenTableKeys]. *)
Definition makeTreeBuilder : list Tree * treeBuilder :=
  let '(tree, h) := newTree [] in
  (setPosition h tree (mkPosition 1 1),
   mkTreeBuilder tree [] [] EmptyString (mkPosition 0 0) None false [] None).

Definition enterAssign (key : string) (position : Position) (h : list Tree)
  (b : treeBuilder) : result treeBuilder :=
  match currentTree b with
  | None => Panicked NilDereference
  | Some t =>
      if negb (is_nil (default Nil (valuesOf h t !! key))) then
        let finalKey := (currentTable b ++ [key])%list in
        raiseError position "The following key was defined twice: %s"
          [AStr (Join finalKey ".")]
      else
        Ok (mkTreeBuilder (tree b) (currentTable b) (seenTableKeys b) key position
              (currentTree b) (inArray b) (array b) (arrayType b))
  end.

(** [exitInlineTable] has an empty body. *)
Definition exitInlineTable (b : treeBuilder) : result treeBuilder := Ok b.

End BuilderGo.

(** ** A closed array of tables

    The calls a parser makes on the builder for an assignment whose value
    is an array with one table in it: [enterAssign], [enterArray],
    [foundValue] of a tree, [exitArray]. *)
Definition tableArrayClosed : result world :=
  w ← enterAssign "x" (mkPosition 1 1) makeTreeBuilder;
  w ← enterArray w;
  let '(t, h) := newTree (heap w) in
  w ← foundValue (TreePtr t) (mkPosition 1 6) (setHeap h w);
  exitArray w.

(** After it, a table [[t]] and the assignment [b = value] in it. *)
Definition laterAssignment (value : iface) : result world :=
  w ← tableArrayClosed;
  w ← enterGroup "t" ["t"] (mkPosition 2 1) w;
  w ← enterAssign "b" (mkPosition 3 1) w;
  foundValue value (mkPosition 3 5) w.

(** ** Relations between the parser before and after a method *)

(** Every successful run of [m] relates the parser it starts from to the
    parser it ends in. *)
Definition preserves {A} (R : tomlParser -> tomlParser -> Prop) (m : method A) : Prop :=
  forall p a p', m p = Ok (a, p') -> R p p'.

(** The flow is the same and the index has not moved back, nor past the
    end of the flow. *)
Definition advances (p p' : tomlParser) : Prop :=
  flow p' = flow p /\ flowIdx p <= flowIdx p' /\
  (flowIdx p <= List.length (flow p) -> flowIdx p' <= List.length (flow p)).

(** The builder has the same list of declared tables. *)
Definition sameSeen (p p' : tomlParser) : Prop :=
  seenTableKeys (b (builder p')) = seenTableKeys (b (builder p)).

(** The table [key] is among those the builder has seen declared. *)
Definition declared (key : string) (p : tomlParser) : Prop :=
  In key (seenTableKeys (b (builder p))).

(** A table declared before is declared after. *)
Definition staysDeclared (key : string) (p p' : tomlParser) : Prop :=
  declared key p -> declared key p'.

(** The calls of the loop of [run] that can have led to [state] at this
    index: two for every token consumed, and one more for the state
    [parseStart] has just returned. *)
Definition potential (state : tomlParserStateFn) (p : tomlParser) : nat :=
  2 * flowIdx p + match state with parseStartFn => 0 | _ => 1 end.

(** ** One assignment *)

(** [key = value] at the start of a document, then [rest]. *)
Definition doc_assign (kpos : Position) (key : string) (value : token) (rest : list token)
  : list token :=
  mkToken kpos tokenKey key :: tok 1 5 tokenEqual "=" :: value :: rest.

(** An end-of-file token, and whatever follows it. *)
Definition eofThen (zpos : Position) (rest : list token) : list token :=
  mkToken zpos tokenEOF EmptyString :: rest.

(** What [parseToml] returns: the values of [builder.tree]. *)
Definition parsedRoot (lib : GoLibrary) (tokens : list token) : result (gmap string iface) :=
  w ← parseToml lib tokens; Ok (rootValues w).

(** The parser once it has consumed the next token. *)
Definition next (p : tomlParser) : tomlParser :=
  mkTomlParser (S (flowIdx p)) (flow p) (builder p).

(** The parser with another state of the builder. *)
Definition withBuilder (w : world) (p : tomlParser) : tomlParser :=
  mkTomlParser (flowIdx p) (flow p) w.

(** ** Arrays of strings *)

Definition stringToken (item : Position * string) : token :=
  mkToken (fst item) tokenString (snd item).

Definition comma : token := tok 1 1 tokenComma ",".

(** Every item followed by a comma. *)
Definition commaAfterEach (items : list (Position * string)) : list token :=
  flat_map (fun item => [stringToken item; comma]) items.

(** [key = [ tokens], the opening of an array. *)
Definition doc_array (kpos : Position) (key : string) (tokens : list token) : list token :=
  doc_assign kpos key (tok 1 7 tokenLeftBracket "[") tokens.

(** The closing bracket and the end of the file, and whatever follows. *)
Definition closed (zpos : Position) (rest : list token) : list token :=
  tok 1 9 tokenRightBracket "]" :: eofThen zpos rest.

(** ** Inline tables *)

(** [key = { tokens], the opening of an inline table. *)
Definition doc_inline (kpos : Position) (key : string) (tokens : list token) : list token :=
  doc_assign kpos key (tok 1 7 tokenLeftCurlyBrace "{") tokens.

(** The field [fkey = "text"] of an inline table. *)
Definition field (fpos : Position) (fkey : string) (vpos : Position) (text : string)
  : list token :=
  [mkToken fpos tokenKey fkey; tok 1 1 tokenEqual "="; mkToken vpos tokenString text].

(** ** The panics of a parse *)

(** The messages the parser and the builder raise with a position. *)
Definition messages : list string :=
  [ "unexpected token";
    "unexpected token %s, was expecting a table array key";
    "unexpected token %s, was expecting a table key";
    "invalid table array key: %s";
    "was expecting token %s, but got %s instead";
    "expecting a value";
    "%s";
    "cannot have multiple equals for the same key";
    "never reached";
    "unterminated inline table";
    "comma expected between fields in inline table";
    "inline table cannot start with a comma";
    "need field between two commas in inline table";
    "unexpected token type in inline table: %s";
    "trailing comma at the end of inline table";
    "unterminated array";
    "missing comma";
    "key %s is already assigned and not of type table array";
    "duplicated tables";
    "Unknown table type for path: %s";
    "The following key was defined twice: %s";
    "mixed types in array" ].

(** A panic of the builder, given [position]: raised there with one of the
    messages, or an index out of range, or a bare string. *)
Definition raisedAt (position : Position) (e : panic) : Prop :=
  (exists msg args, e = Raised position msg args /\ In msg messages) \/
  e = OutOfRange \/ (exists m, e = PanicString m).

(** The parser reads the flow [fl] and has not gone past [limit]. *)
Definition inFlow (fl : list token) (limit : nat) (p : tomlParser) : Prop :=
  flow p = fl /\ flowIdx p <= limit.

(** The builder has the tree of an assignment. *)
Definition assigning (p : tomlParser) : Prop :=
  is_Some (assignTree (b (builder p))).

(** The parsers of values keep the parser in the flow and the tree of
    the assignment in the builder. *)
Definition inValue (fl : list token) (limit : nat) (p : tomlParser) : Prop :=
  inFlow fl limit p /\ assigning p.

(** What a run of a method comes to: a result that satisfies [Q], or a
    panic that satisfies [E]. *)
Definition outcome {A} (E : panic -> Prop) (Q : A -> tomlParser -> Prop)
  (r : result (A * tomlParser)) : Prop :=
  match r with
  | Ok (a, p') => Q a p'
  | Panicked e => E e
  | OutOfFuel => True
  end.

(** The token a state starts at is the one [parseStart] chose it for. *)
Definition expects (state : tomlParserStateFn) (p : tomlParser) : Prop :=
  match state with
  | parseStartFn => True
  | parseGroupArrayFn =>
      exists t, flow p !! flowIdx p = Some t /\ typ t = tokenDoubleLeftBracket
  | parseGroupFn => exists t, flow p !! flowIdx p = Some t /\ typ t = tokenLeftBracket
  | parseAssignFn => exists t, flow p !! flowIdx p = Some t /\ typ t = tokenKey
  end.

(** A panic that is raised says where, at the position of one of
    [tokens], and what, with one of the messages. *)
Definition located (tokens : list token) (e : panic) : Prop :=
  match e with
  | Raised position msg _ => In position (map tokPosition tokens) /\ In msg messages
  | _ => True
  end.

(** ** Two flows that agree up to an index *)

(** Two parsers at the same index, within [limit], with the same
    builder, one on the flow [fl1] and one on the flow [fl2]. *)
Definition sameSoFar (fl1 fl2 : list token) (limit : nat) (p q : tomlParser) : Prop :=
  flow p = fl1 /\ flow q = fl2 /\ flowIdx q = flowIdx p /\ flowIdx p <= limit /\
  builder q = builder p.

(** The same value, and parsers that are still the same so far. *)
Definition sameResult {A} (fl1 fl2 : list token) (limit : nat)
  (a : A) (p : tomlParser) (a' : A) (q : tomlParser) : Prop :=
  a' = a /\ sameSoFar fl1 fl2 limit p q.

(** Two runs come to the same: the same panic, or results related by
    [Q]; a run that is out of fuel is related to any. *)
Definition alike {A} (Q : A -> tomlParser -> A -> tomlParser -> Prop)
  (r1 r2 : result (A * tomlParser)) : Prop :=
  match r1, r2 with
  | OutOfFuel, _ | _, OutOfFuel => True
  | Ok (a, p'), Ok (a', q') => Q a p' a' q'
  | Panicked e, Panicked e' => e = e'
  | _, _ => False
  end.

(** * Properties *)

(** A closed run of the program is settled by running it. *)
Ltac evaluate := vm_compute; reflexivity.
Ltac settle :=
  repeat match goal with
         | |- _ /\ _ => split
         | |- exists _, _ => eexists
         end;
  evaluate.

(** ** Stores and maps *)

Lemma valuesOf_store (h : list Tree) (t : ptr) (key : string) (v : iface) :
  is_Some (h !! t) -> valuesOf (store h t key v) t !! key = Some v.
Proof.
  intros [tr Htr]. unfold valuesOf, store. rewrite Htr.
  rewrite list_lookup_insert_eq by (eapply lookup_lt_Some; eassumption).
  simpl. apply lookup_insert_eq.
Qed.

Lemma valuesOf_store_other_key (h : list Tree) (t : ptr) (key key' : string) (v : iface) :
  key <> key' -> valuesOf (store h t key v) t !! key' = valuesOf h t !! key'.
Proof.
  intros Hne. unfold valuesOf, store. destruct (h !! t) as [tr|] eqn:Htr.
  - rewrite list_lookup_insert_eq by (eapply lookup_lt_Some; eassumption).
    simpl. by rewrite lookup_insert_ne.
  - by rewrite Htr.
Qed.

Lemma store_allocated (h : list Tree) (t t' : ptr) (key : string) (v : iface) :
  is_Some (h !! t') -> is_Some (store h t key v !! t').
Proof.
  intros Hs. unfold store. destruct (h !! t) as [tr|] eqn:Htr; [|done].
  apply lookup_lt_is_Some. rewrite length_insert. by apply lookup_lt_is_Some.
Qed.

(** ** Assignments *)

(** C1.  The parse of [key = "text"] succeeds, whatever the key token
    says, and leaves a root tree with exactly one key, the empty string,
    holding the string: for [title = "x"] the root tree has no key
    [title]. *)
Theorem assignment_is_stored_under_the_empty_key (lib : GoLibrary) :
  (forall key text,
     exists w, parseToml lib (doc_assign_string key text) = Ok w /\
       rootValues w = {[ EmptyString := TomlValuePtr (GoString text) (mkPosition 1 1) ]}) /\
  (exists w, parseToml lib doc_title = Ok w /\
     rootValues w !! "title" = None /\
     rootValues w !! EmptyString = Some (TomlValuePtr (GoString "x") (mkPosition 1 1))).
Proof.
  split.
  - intros key text. settle.
  - settle.
Qed.

(** [enterAssign] of the builder never looks at its [key]. *)
Lemma enterAssign_ignores_key (key key' : string) (position : Position) (w : world) :
  enterAssign key position w = enterAssign key' position w.
Proof. reflexivity. Qed.

(** [enterAssign] of [builder.go] records the key it is given. *)
Lemma BuilderGo_enterAssign_records_key (key : string) (position : Position)
  (h : list Tree) (b b' : BuilderGo.treeBuilder) :
  BuilderGo.enterAssign key position h b = Ok b' -> BuilderGo.assignKey b' = key.
Proof.
  unfold BuilderGo.enterAssign. destruct (BuilderGo.currentTree b); [|discriminate].
  destruct (negb _); [discriminate|]. intros [= <-]. reflexivity.
Qed.

(** The builder [builder.go] makes has no current tree, and its
    [enterAssign] dereferences it. *)
Lemma BuilderGo_enterAssign_at_root (key : string) (position : Position) :
  BuilderGo.enterAssign key position (fst BuilderGo.makeTreeBuilder)
    (snd BuilderGo.makeTreeBuilder) = Panicked NilDereference.
Proof. reflexivity. Qed.

(** ** Inline tables and nested arrays *)

(** C5.  The parse of [x = [{a=1},{a=2}]] stores a plain array of the two
    integers, and no table array anywhere in the root tree, while the two
    declarations of [[[x]]] store a table array of two tables at [x]. *)
Theorem array_of_inline_tables_is_stored_as_plain_array (lib : GoLibrary) :
  exists w w',
    parseToml lib doc_inline_table_array = Ok w /\
    parseToml lib doc_table_array_x = Ok w' /\
    rootValues w = {[ EmptyString :=
      TomlValuePtr (IfaceSlice [GoInt64 1; GoInt64 2]) (mkPosition 1 1) ]} /\
    rootValues w' = {[ "x" := TreeSlice [1; 2] ]}.
Proof. settle. Qed.

(** C6.  The parse of [t = {a = 1, b = 2}] leaves a root tree with one
    key, which holds the integer 2: the root tree has no key [t] and holds
    no table. *)
Theorem inline_table_is_not_stored (lib : GoLibrary) :
  exists w,
    parseToml lib doc_inline_table = Ok w /\
    rootValues w = {[ EmptyString := TomlValuePtr (GoInt64 2) (mkPosition 1 1) ]} /\
    rootValues w !! "t" = None.
Proof. settle. Qed.

(** C9.  The parse of [x = [[1,2],[3,4]]] leaves a root tree with one key,
    which holds the flat array of 3 and 4. *)
Theorem nested_array_is_stored_flat (lib : GoLibrary) :
  exists w,
    parseToml lib doc_nested_array = Ok w /\
    rootValues w = {[ EmptyString :=
      TomlValuePtr (IfaceSlice [GoInt64 3; GoInt64 4]) (mkPosition 1 1) ]}.
Proof. settle. Qed.

(** ** Commas in arrays *)

(** C7.  The parse of [x = [1, 2,]] succeeds and the assignment holds the
    array of 1 and 2; the parse of [x = [1,,2]] fails, at the second
    comma. *)
Theorem trailing_comma_accepted_double_comma_rejected (lib : GoLibrary) :
  (exists w, parseToml lib doc_trailing_comma = Ok w /\
     assigned w = Some (TomlValuePtr (IfaceSlice [GoInt64 1; GoInt64 2]) (mkPosition 1 1))) /\
  parseToml lib doc_double_comma = Panicked (Raised (mkPosition 1 8) "never reached" []).
Proof. settle. Qed.

(** ** Leaving array mode *)

(** The flag [inArray] after [exitArray]: cleared, unless the elements are
    trees, in which case it is left as it was. *)
Lemma exitArray_inArray (w w' : world) :
  exitArray w = Ok w' ->
  inArray (b w') = if bool_decide (arrayType (b w) = Some TTreePtr)
                   then inArray (b w) else false.
Proof.
  unfold exitArray. case_bool_decide.
  - destruct (asTrees _); [|discriminate].
    destruct (assignTree _); [|discriminate]. by intros [= <-].
  - destruct (assignTree _); [|discriminate]. by intros [= <-].
Qed.

(** [exitArray] on a buffer of trees stores them as a table array at the
    key of the assignment. *)
Lemma exitArray_of_trees_stores_table_array (w : world) (t : ptr) (trees : list ptr) :
  arrayType (b w) = Some TTreePtr ->
  asTrees (array (b w)) = Some trees ->
  assignTree (b w) = Some t ->
  is_Some (heap w !! t) ->
  exists w', exitArray w = Ok w' /\ assigned w' = Some (TreeSlice trees).
Proof.
  intros Hty Htrees Ht Halloc. unfold exitArray.
  rewrite Hty, bool_decide_eq_true_2, Htrees, Ht by reflexivity.
  eexists. split; [reflexivity|]. unfold assigned. cbn [b setHeap heap].
  rewrite Ht. by apply valuesOf_store.
Qed.

(** Outside array mode, [foundValue] stores the value at the key of the
    assignment. *)
Lemma foundValue_stores (value : iface) (position : Position) (w : world) (t : ptr) :
  inArray (b w) = false ->
  assignTree (b w) = Some t ->
  is_Some (heap w !! t) ->
  exists w', foundValue value position w = Ok w' /\
    assigned w' = Some (match value with
                        | TreePtr _ | TreeSlice _ => value
                        | _ => TomlValuePtr value (assignPosition (b w))
                        end).
Proof.
  intros Hin Ht Halloc. unfold foundValue. rewrite Hin, Ht.
  eexists. split; [reflexivity|]. unfold assigned. cbn [b setHeap heap].
  rewrite Ht. by apply valuesOf_store.
Qed.

(** C10.  [exitArray] on an array of one table leaves the builder in
    array mode; a later assignment of an integer then fails on the type of
    the closed array, and a later assignment of a table is appended to the
    buffer of the closed array and stored nowhere. *)
Theorem exitArray_of_tables_stays_in_array_mode :
  (exists w, tableArrayClosed = Ok w /\ inArray (b w) = true /\
     assigned w = Some (TreeSlice [1])) /\
  laterAssignment (GoInt64 1)
    = Panicked (Raised (mkPosition 3 5) "mixed types in array" []) /\
  (exists w, laterAssignment (TreePtr 0) = Ok w /\
     assigned w = None /\ array (b w) = [TreePtr 1; TreePtr 0]).
Proof.
  settle.
Qed.

(** ** Homogeneous arrays *)

(** In array mode with the kind of the first element recorded, the
    elements are appended up to the first one of another kind, where the
    builder raises. *)
Lemma foundValues_in_array (ty : rtype) (elements : list (iface * Position)) :
  forall w, inArray (b w) = true -> arrayType (b w) = Some ty ->
    foundValues elements w =
      match List.find (fun e => negb (bool_decide (TypeOf (fst e) = Some ty))) elements with
      | Some e => raiseError (snd e) "mixed types in array" []
      | None => Ok (setArray true (array (b w) ++ map fst elements)%list (Some ty) w)
      end.
Proof.
  induction elements as [|[value position] rest IH]; intros w Hin Hty.
  - simpl. rewrite app_nil_r. destruct w as [h [? ? ? ? ? ? ? ? ? ?]].
    simpl in *. subst. reflexivity.
  - simpl. unfold foundValue at 1. rewrite Hin, Hty.
    destruct (bool_decide (TypeOf value = Some ty)) eqn:Hk; simpl; [|reflexivity].
    rewrite IH by reflexivity.
    destruct (List.find _ rest); [reflexivity|].
    simpl. rewrite <- app_assoc. reflexivity.
Qed.

(** C4.  After [enterArray], feeding the elements of an array (none of
    them nil) to [foundValue] one by one compares the kind of each with the kind of
    the first: the calls raise [mixed types in array] at the first
    element of another kind, and otherwise leave all the elements in the
    buffer.  So the parse of [x = [1, "a"]] fails at the string, and the
    parse of [x = [1, 2]] stores the array. *)
Theorem array_elements_are_checked_against_the_first (lib : GoLibrary) :
  (forall w elements,
     forallb (fun e => negb (is_nil (fst e))) elements = true ->
     exists w0, enterArray w = Ok w0 /\
       foundValues elements w0 =
         match firstOfOtherKind elements with
         | Some position => raiseError position "mixed types in array" []
         | None => Ok (setArray true (map fst elements) (kindOfFirst elements) w0)
         end) /\
  parseToml lib doc_mixed_array
    = Panicked (Raised (mkPosition 1 9) "mixed types in array" []) /\
  (exists w, parseToml lib doc_int_array = Ok w /\
     assigned w = Some (TomlValuePtr (IfaceSlice [GoInt64 1; GoInt64 2]) (mkPosition 1 1))).
Proof.
  split; [|settle].
  intros w elements Hnil. eexists. split; [reflexivity|].
  destruct elements as [|[value position] rest]; [reflexivity|].
  cbn [forallb fst] in Hnil. apply andb_true_iff in Hnil as [Hvalue _].
  destruct (TypeOf value) as [ty|] eqn:Hty; [|by destruct value].
  cbn [foundValues]. unfold foundValue at 1. cbn [inArray arrayType b setArray].
  rewrite Hty. rewrite bool_decide_eq_true_2 by reflexivity. cbn [negb mbind result_bind].
  rewrite (foundValues_in_array ty) by reflexivity.
  cbn [firstOfOtherKind kindOfFirst fst]. rewrite Hty.
  destruct (List.find _ rest); reflexivity.
Qed.

(** ** Methods that keep a relation between the parser before and after *)

Lemma bind_Ok {A B} (m : method A) (f : A -> method B) (p p' : tomlParser) (y : B) :
  bind m f p = Ok (y, p') -> exists a p1, m p = Ok (a, p1) /\ f a p1 = Ok (y, p').
Proof. unfold bind. destruct (m p) as [[a p1]| |]; try discriminate. eauto. Qed.

(** [getToken] hands out the token at the index and moves on, or finds
    the flow at its end. *)
Lemma getToken_inv (p p1 : tomlParser) (r : option token) :
  getToken p = Ok (r, p1) ->
  (exists t, r = Some t /\ flow p !! flowIdx p = Some t /\
     p1 = mkTomlParser (S (flowIdx p)) (flow p) (builder p)) \/
  (r = None /\ p1 = p /\ flow p !! flowIdx p = None).
Proof.
  unfold getToken, bind, peek, ret.
  destruct (flow p !! flowIdx p) as [t|]; intros [= <- <-]; eauto.
Qed.

Section Preservation.

Context (R : tomlParser -> tomlParser -> Prop).
Hypothesis R_refl : forall p, R p p.
Hypothesis R_trans : forall p1 p2 p3, R p1 p2 -> R p2 p3 -> R p1 p3.

Lemma preserves_ret {A} (a : A) : preserves R (ret a).
Proof. intros p ? p' [= _ <-]. apply R_refl. Qed.

Lemma preserves_abort {A} (e : panic) : preserves R (@abort A e).
Proof. intros p ? p' [=]. Qed.

Lemma preserves_outOfFuel {A} : preserves R (fun _ => @OutOfFuel (A * tomlParser)).
Proof. intros p ? p' [=]. Qed.

Lemma preserves_raiseErrorAt {A} (t : option token) (msg : string) (args : list arg) :
  preserves R (@raiseErrorAt A t msg args).
Proof. destruct t; apply preserves_abort. Qed.

Lemma preserves_bind {A B} (m : method A) (f : A -> method B) :
  preserves R m -> (forall a, preserves R (f a)) -> preserves R (bind m f).
Proof.
  intros Hm Hf p y p' H. apply bind_Ok in H as (a & p1 & H1 & H2).
  eapply R_trans; [eapply Hm | eapply Hf]; eassumption.
Qed.

Lemma preserves_peek : preserves R peek.
Proof. intros p ? p' [= _ <-]. apply R_refl. Qed.

(** Consuming a token keeps the relation. *)
Hypothesis R_next : forall p t,
  flow p !! flowIdx p = Some t ->
  R p (mkTomlParser (S (flowIdx p)) (flow p) (builder p)).

Lemma preserves_getToken : preserves R getToken.
Proof.
  intros p a p'. unfold getToken, bind, peek.
  destruct (flow p !! flowIdx p) as [t|] eqn:Ht.
  - intros [= _ <-]. eapply R_next; eassumption.
  - intros [= _ <-]. apply R_refl.
Qed.

Lemma preserves_assume (ty : tokenType) : preserves R (assume ty).
Proof.
  unfold assume. apply preserves_bind; [apply preserves_getToken|].
  intros [t|]; [|apply preserves_raiseErrorAt].
  destruct (bool_decide _); [apply preserves_raiseErrorAt | apply preserves_ret].
Qed.

(** The calls a value makes on the builder keep the relation. *)
Hypothesis R_foundValue : forall value position,
  preserves R (onBuilder (foundValue value position)).
Hypothesis R_enterArray : preserves R (onBuilder enterArray).
Hypothesis R_exitArray : preserves R (onBuilder exitArray).
Hypothesis R_enterInlineTable : preserves R (onBuilder enterInlineTable).
Hypothesis R_treeSet : forall t key value, preserves R (treeSet t key value).

Ltac keep :=
  repeat first
    [ assumption
    | apply preserves_ret | apply preserves_abort | apply preserves_raiseErrorAt
    | apply preserves_outOfFuel | apply preserves_peek | apply preserves_getToken
    | apply preserves_assume | apply R_foundValue | apply R_enterArray
    | apply R_exitArray | apply R_enterInlineTable | apply R_treeSet
    | apply preserves_bind; [|intros ?]
    | match goal with
      | |- preserves _ ?m =>
          lazymatch m with
          | match ?x with _ => _ end => destruct x
          | if ?x then _ else _ => destruct x
          end
      end ].

Lemma parseArrayLoop_preserves (parseRvalue : method iface) (fuel : nat) :
  preserves R parseRvalue -> preserves R (parseArrayLoop parseRvalue fuel).
Proof.
  intros Hrv. induction fuel as [|fuel IH]; simpl; keep.
Qed.

Lemma parseArray_preserves (parseRvalue : method iface) (fuel : nat) :
  preserves R parseRvalue -> preserves R (parseArray parseRvalue fuel).
Proof.
  intros Hrv. unfold parseArray. keep. by apply parseArrayLoop_preserves.
Qed.

Lemma parseInlineTableLoop_preserves (parseRvalue : method iface) (fuel : nat) :
  preserves R parseRvalue ->
  forall tree previous,
    preserves R (parseInlineTableLoop parseRvalue tree previous fuel).
Proof.
  intros Hrv. induction fuel as [|fuel IH]; intros tree previous; simpl; keep; apply IH.
Qed.

Lemma parseInlineTable_preserves (parseRvalue : method iface) (fuel : nat) :
  preserves R parseRvalue -> preserves R (parseInlineTable parseRvalue fuel).
Proof.
  intros Hrv. unfold parseInlineTable. keep.
  - intros p ? p' [= _ <-]. apply R_refl.
  - by apply parseInlineTableLoop_preserves.
Qed.

Lemma found_preserves (t : token) (value : iface) : preserves R (found t value).
Proof. unfold found. keep. Qed.

Lemma parseRvalue_preserves (lib : GoLibrary) (fuel : nat) :
  preserves R (parseRvalue lib fuel).
Proof.
  induction fuel as [|fuel IH]; simpl; [apply preserves_outOfFuel|].
  apply preserves_bind; [apply preserves_getToken|]. intros [t|]; [|keep].
  destruct (typ t); keep; try apply found_preserves;
    first [ by apply parseArrayLoop_preserves
          | by apply parseInlineTableLoop_preserves
          | by apply parseArray_preserves
          | by apply parseInlineTable_preserves
          | intros p ? p' [= _ <-]; apply R_refl ].
Qed.

(** A value starts with a token, which is consumed. *)
Lemma parseRvalue_consumes (lib : GoLibrary) (fuel : nat) (p p' : tomlParser)
  (v : iface) :
  parseRvalue lib fuel p = Ok (v, p') ->
  exists t, flow p !! flowIdx p = Some t /\
    R (mkTomlParser (S (flowIdx p)) (flow p) (builder p)) p'.
Proof.
  destruct fuel as [|fuel]; [discriminate|]. cbn [parseRvalue]. intros H.
  apply bind_Ok in H as (st & p1 & H1 & H).
  apply getToken_inv in H1 as [(t & -> & Ht & ->)|(-> & -> & Ht)]; [|discriminate].
  exists t. split; [assumption|]. revert H.
  match goal with |- ?m _ = _ -> _ => assert (preserves R m) as Hm end; [|apply Hm].
  pose proof (parseRvalue_preserves lib fuel) as IH.
  destruct (typ t); keep; try apply found_preserves;
    first [ by apply parseArrayLoop_preserves
          | by apply parseInlineTableLoop_preserves
          | intros q ? q' [= _ <-]; apply R_refl ].
Qed.

Hypothesis R_enterAssign : forall key position,
  preserves R (onBuilder (enterAssign key position)).

Lemma parseAssign_preserves (lib : GoLibrary) : preserves R (parseAssign lib).
Proof.
  unfold parseAssign. keep; [apply R_enterAssign|].
  intros p0 v p' H. eapply parseRvalue_preserves. eassumption.
Qed.

Lemma parseStart_preserves : preserves R parseStart.
Proof. unfold parseStart. keep. Qed.

Hypothesis R_enterGroup : forall key keys position,
  preserves R (onBuilder (enterGroup key keys position)).
Hypothesis R_enterGroupArray : forall key keys position,
  preserves R (onBuilder (enterGroupArray key keys position)).

Lemma parseGroup_preserves : preserves R parseGroup.
Proof. unfold parseGroup. keep. apply R_enterGroup. Qed.

Lemma parseGroupArray_preserves : preserves R parseGroupArray.
Proof. unfold parseGroupArray. keep. apply R_enterGroupArray. Qed.

Lemma call_preserves (lib : GoLibrary) (state : tomlParserStateFn) :
  preserves R (call lib state).
Proof.
  destruct state; simpl.
  - apply parseStart_preserves.
  - apply parseGroupArray_preserves.
  - apply parseGroup_preserves.
  - apply parseAssign_preserves.
Qed.

Lemma steps_preserves (lib : GoLibrary) (n : nat) :
  forall state, preserves R (steps lib n state).
Proof.
  induction n as [|n IH]; intros state; simpl; keep.
  - apply call_preserves.
  - apply IH.
Qed.

(** A state other than [parseStart] consumes the token it starts at, and
    hands over to [parseStart]. *)

Lemma parseGroup_consumes (p p' : tomlParser) (r : option tomlParserStateFn) :
  parseGroup p = Ok (r, p') ->
  exists t, flow p !! flowIdx p = Some t /\
    R (mkTomlParser (S (flowIdx p)) (flow p) (builder p)) p'.
Proof.
  unfold parseGroup. intros H. apply bind_Ok in H as (st & p1 & H1 & H).
  apply getToken_inv in H1 as [(t & -> & Ht & ->)|(-> & -> & Ht)].
  - exists t. split; [assumption|]. revert H. generalize (Some t) as st.
    intros st. match goal with |- ?m _ = _ -> _ => assert (preserves R m) as Hm end.
    { keep. apply R_enterGroup. }
    apply Hm.
  - exfalso. cbv beta iota delta [bind getToken peek ret abort] in H.
    rewrite Ht in H. discriminate.
Qed.

Lemma parseGroupArray_consumes (p p' : tomlParser) (r : option tomlParserStateFn) :
  parseGroupArray p = Ok (r, p') ->
  exists t, flow p !! flowIdx p = Some t /\
    R (mkTomlParser (S (flowIdx p)) (flow p) (builder p)) p'.
Proof.
  unfold parseGroupArray. intros H. apply bind_Ok in H as (st & p1 & H1 & H).
  apply getToken_inv in H1 as [(t & -> & Ht & ->)|(-> & -> & Ht)].
  - exists t. split; [assumption|]. revert H. generalize (Some t) as st.
    intros st. match goal with |- ?m _ = _ -> _ => assert (preserves R m) as Hm end.
    { keep. apply R_enterGroupArray. }
    apply Hm.
  - exfalso. cbv beta iota delta [bind getToken peek ret abort] in H.
    rewrite Ht in H. discriminate.
Qed.

Lemma parseAssign_consumes (lib : GoLibrary) (p p' : tomlParser)
  (r : option tomlParserStateFn) :
  parseAssign lib p = Ok (r, p') ->
  exists t, flow p !! flowIdx p = Some t /\
    R (mkTomlParser (S (flowIdx p)) (flow p) (builder p)) p'.
Proof.
  unfold parseAssign. intros H. apply bind_Ok in H as (st & p1 & H1 & H).
  apply getToken_inv in H1 as [(t & -> & Ht & ->)|(-> & -> & Ht)].
  - exists t. split; [assumption|]. revert H. generalize (Some t) as st.
    intros st. match goal with |- ?m _ = _ -> _ => assert (preserves R m) as Hm end.
    { keep; [apply R_enterAssign|].
      intros p0 v p2 Hv. eapply parseRvalue_preserves. eassumption. }
    apply Hm.
  - exfalso. cbv beta iota delta [bind assume raiseErrorAt getToken peek ret abort] in H.
    rewrite Ht in H. discriminate.
Qed.

End Preservation.

(** ** The list of declared tables *)

Lemma foundValue_seen (value : iface) (position : Position) (w w' : world) :
  foundValue value position w = Ok w' -> seenTableKeys (b w') = seenTableKeys (b w).
Proof.
  unfold foundValue. intros H.
  repeat (case_match; try discriminate); simplify_eq; reflexivity.
Qed.

Lemma enterArray_seen (w w' : world) :
  enterArray w = Ok w' -> seenTableKeys (b w') = seenTableKeys (b w).
Proof. by intros [= <-]. Qed.

Lemma exitArray_seen (w w' : world) :
  exitArray w = Ok w' -> seenTableKeys (b w') = seenTableKeys (b w).
Proof.
  unfold exitArray. intros H.
  repeat (case_match; try discriminate); simplify_eq; reflexivity.
Qed.

Lemma enterInlineTable_seen (w w' : world) :
  enterInlineTable w = Ok w' -> seenTableKeys (b w') = seenTableKeys (b w).
Proof. by intros [= <-]. Qed.

Lemma enterAssign_seen (key : string) (position : Position) (w w' : world) :
  enterAssign key position w = Ok w' -> seenTableKeys (b w') = seenTableKeys (b w).
Proof.
  unfold enterAssign. intros H. simpl in H. unfold mbind, result_bind in H.
  repeat (case_match; try discriminate); simplify_eq; reflexivity.
Qed.

(** An accepted header [[key]] appends [key] to the list. *)
Lemma enterGroup_seen (key : string) (keys : list string) (position : Position)
  (w w' : world) :
  enterGroup key keys position w = Ok w' ->
  seenTableKeys (b w') = (seenTableKeys (b w) ++ [key])%list.
Proof.
  unfold enterGroup. intros H. simpl in H. unfold mbind, result_bind in H.
  repeat (case_match; try discriminate); simplify_eq; reflexivity.
Qed.

(** A header [[key]] for a table already in the list is refused, before
    anything else is looked at. *)
Lemma enterGroup_duplicated (key : string) (keys : list string) (position : Position)
  (w : world) :
  In key (seenTableKeys (b w)) ->
  enterGroup key keys position w = Panicked (Raised position "duplicated tables" []).
Proof.
  intros Hin. unfold enterGroup.
  assert (existsb (fun item => String.eqb item key) (seenTableKeys (b w)) = true) as ->.
  { apply existsb_exists. exists key. split; [assumption | apply String.eqb_refl]. }
  reflexivity.
Qed.

Lemma prefix_String (a c : ascii) (s1 s2 : string) :
  String.prefix (String a s1) (String c s2)
  = if ascii_dec a c then String.prefix s1 s2 else false.
Proof. reflexivity. Qed.

(** A key without a dot is under no prefix that ends in a dot. *)
Lemma noDot_no_prefix (key : string) :
  forall parent, noDot key = true -> HasPrefix key (parent +:+ ".") = false.
Proof.
  unfold HasPrefix. intros parent. revert key.
  induction parent as [|c parent IH]; intros [|d key] Hkey; try reflexivity.
  - change (EmptyString +:+ ".") with ".". rewrite prefix_String.
    destruct (ascii_dec "." d) as [<-|]; [simpl in Hkey; discriminate | reflexivity].
  - change (String c parent +:+ ".") with (String c (parent +:+ ".")).
    rewrite prefix_String. simpl in Hkey. apply andb_true_iff in Hkey as [_ Hkey].
    destruct (ascii_dec c d); [by apply IH | reflexivity].
Qed.

(** The loop of [enterGroupArray] keeps every key that is not under the
    prefix. *)
Lemma removeChildren_keeps (prefix key key0 : string) (seen : list string) :
  forall found,
    HasPrefix key0 prefix = false -> In key0 seen ->
    In key0 (fst (removeChildren prefix key seen found)).
Proof.
  induction seen as [|tableKey rest IH]; intros found Hpre Hin; [destruct Hin|].
  simpl. destruct Hin as [->|Hin].
  - rewrite Hpre.
    destruct (removeChildren prefix key rest (String.eqb key0 key)). by left.
  - destruct (HasPrefix tableKey prefix); [by apply IH|].
    specialize (IH (String.eqb tableKey key) Hpre Hin).
    destruct (removeChildren prefix key rest (String.eqb tableKey key)). by right.
Qed.

(** A header [[[key]]] forgets no table whose name has no dot. *)
Lemma enterGroupArray_keeps (key0 key : string) (keys : list string)
  (position : Position) (w w' : world) :
  noDot key0 = true ->
  In key0 (seenTableKeys (b w)) ->
  enterGroupArray key keys position w = Ok w' ->
  In key0 (seenTableKeys (b w')).
Proof.
  intros Hdot Hin H.
  destruct keys as [|k keys]; [discriminate|].
  unfold enterGroupArray, mbind, result_bind in H. cbv beta iota in H.
  destruct (createSubTree _ _ _ _) as [[h err]|]; try discriminate.
  destruct (match GetPath h (tree (b w)) (k :: keys) with
            | Nil => _ | TreeSlice target => _ | _ => _ end) as [arr| |];
    try discriminate.
  destruct (newTree _) as [t h1].
  destruct (SetPath _ _ _ _) as [h'|]; [|discriminate].
  pose proof (removeChildren_keeps (key +:+ ".") key key0 (seenTableKeys (b w)) false
                (noDot_no_prefix key0 key Hdot) Hin) as Hkeep.
  cbn [b setHeap setCurrentTable seenTableKeys] in H.
  destruct (removeChildren (key +:+ ".") key (seenTableKeys (b w)) false) as [seen found].
  simpl in Hkeep. injection H as <-. cbn [b setSeenTableKeys seenTableKeys].
  destruct found; [assumption | apply in_or_app; by left].
Qed.

(** ** The index into the flow *)

Lemma advances_refl (p : tomlParser) : advances p p.
Proof. unfold advances. auto. Qed.

Lemma advances_trans (p1 p2 p3 : tomlParser) :
  advances p1 p2 -> advances p2 p3 -> advances p1 p3.
Proof.
  unfold advances. intros (Hf1 & Hle1 & Hb1) (Hf2 & Hle2 & Hb2).
  rewrite Hf1 in *. repeat split; [congruence | lia | auto].
Qed.

Lemma advances_next (p : tomlParser) (t : token) :
  flow p !! flowIdx p = Some t ->
  advances p (mkTomlParser (S (flowIdx p)) (flow p) (builder p)).
Proof.
  intros Ht. apply lookup_lt_Some in Ht. unfold advances. simpl.
  repeat split; lia.
Qed.

Lemma onBuilder_advances (f : world -> result world) : preserves advances (onBuilder f).
Proof.
  intros p a p'. unfold onBuilder. destruct (f (builder p)); try discriminate.
  simpl. intros [= _ <-]. unfold advances. simpl. auto.
Qed.

Lemma treeSet_advances (t : ptr) (key : string) (value : iface) :
  preserves advances (treeSet t key value).
Proof.
  intros p a p'. unfold treeSet. destruct (Set_ _ _ _ _); [|discriminate].
  intros [= _ <-]. unfold advances. simpl. auto.
Qed.

(** Every call of the loop of [run] keeps the flow and the index within
    it. *)
Lemma call_advances (lib : GoLibrary) (state : tomlParserStateFn) :
  preserves advances (call lib state).
Proof.
  apply call_preserves;
    eauto using advances_refl, advances_trans, advances_next, onBuilder_advances,
      treeSet_advances.
Qed.

(** ** The states of the loop of [run] *)

Ltac returned :=
  repeat match goal with
         | H : bind _ _ _ = Ok _ |- _ => apply bind_Ok in H as (? & ? & _ & H)
         | H : abort _ _ = Ok _ |- _ => discriminate H
         | H : raiseErrorAt ?t _ _ _ = Ok _ |- _ =>
             unfold raiseErrorAt in H; destruct t; discriminate H
         | H : ret _ _ = Ok _ |- _ => injection H as <- <-
         | H : match ?x with _ => _ end _ = Ok _ |- _ => destruct x
         | H : (if ?x then _ else _) _ = Ok _ |- _ => destruct x
         end.

Lemma parseStart_inv (p p' : tomlParser) (r : option tomlParserStateFn) :
  parseStart p = Ok (r, p') -> p' = p /\ r <> Some parseStartFn.
Proof.
  unfold parseStart, bind, peek. destruct (flow p !! flowIdx p) as [t|].
  - destruct (typ t); try (unfold raiseErrorAt, abort; discriminate);
      intros [= <- <-]; split; congruence.
  - intros [= <- <-]. split; congruence.
Qed.

Lemma parseGroup_returns (p p' : tomlParser) (r : option tomlParserStateFn) :
  parseGroup p = Ok (r, p') -> r = Some parseStartFn.
Proof. unfold parseGroup. intros H. returned. reflexivity. Qed.

Lemma parseGroupArray_returns (p p' : tomlParser) (r : option tomlParserStateFn) :
  parseGroupArray p = Ok (r, p') -> r = Some parseStartFn.
Proof. unfold parseGroupArray. intros H. returned. reflexivity. Qed.

Lemma parseAssign_returns (lib : GoLibrary) (p p' : tomlParser)
  (r : option tomlParserStateFn) :
  parseAssign lib p = Ok (r, p') -> r = Some parseStartFn.
Proof. unfold parseAssign. intros H. returned. reflexivity. Qed.

(** A state other than [parseStart] moves the index on. *)
Lemma call_consumes (lib : GoLibrary) (state : tomlParserStateFn)
  (p p' : tomlParser) (r : option tomlParserStateFn) :
  state <> parseStartFn ->
  call lib state p = Ok (r, p') ->
  r = Some parseStartFn /\ flowIdx p < flowIdx p'.
Proof.
  intros Hstate H.
  assert (exists t, flow p !! flowIdx p = Some t /\
            advances (mkTomlParser (S (flowIdx p)) (flow p) (builder p)) p')
    as (t & Ht & _ & Hle & _).
  { destruct state; simpl in H; [congruence| | |];
      [eapply parseGroupArray_consumes | eapply parseGroup_consumes
      | eapply parseAssign_consumes];
      eauto using advances_refl, advances_trans, advances_next, onBuilder_advances,
        treeSet_advances. }
  simpl in Hle. split; [|lia].
  destruct state; simpl in H; [congruence | | |];
    eauto using parseGroupArray_returns, parseGroup_returns, parseAssign_returns.
Qed.

(** Each call of the loop raises the potential. *)
Lemma call_potential (lib : GoLibrary) (state state' : tomlParserStateFn)
  (p p' : tomlParser) :
  call lib state p = Ok (Some state', p') ->
  potential state p + 1 <= potential state' p'.
Proof.
  intros H. destruct (decide (state = parseStartFn)) as [->|Hstate].
  - simpl in H. apply parseStart_inv in H as [-> Hr].
    unfold potential. destruct state'; [congruence | lia..].
  - apply call_consumes in H as [[= ->] Hlt]; [|assumption].
    unfold potential. destruct state; lia.
Qed.

Lemma steps_Ok_S (lib : GoLibrary) (n : nat) (state : tomlParserStateFn)
  (p p' : tomlParser) (r : tomlParserStateFn) :
  steps lib (S n) state p = Ok (Some r, p') ->
  exists state1 p1,
    call lib state p = Ok (Some state1, p1) /\ steps lib n state1 p1 = Ok (Some r, p').
Proof.
  simpl. intros H. apply bind_Ok in H as ([state1|] & p1 & H1 & H); [eauto|].
  discriminate.
Qed.

Lemma steps_potential (lib : GoLibrary) (n : nat) :
  forall state p state' p',
    steps lib n state p = Ok (Some state', p') ->
    potential state p + n <= potential state' p' /\ advances p p'.
Proof.
  induction n as [|n IH]; intros state p state' p' H.
  - injection H as <- <-. split; [lia | apply advances_refl].
  - apply steps_Ok_S in H as (state1 & p1 & H1 & H).
    apply IH in H as [Hpot Hadv].
    pose proof (call_potential _ _ _ _ _ H1).
    pose proof (call_advances _ _ _ _ _ H1).
    split; [lia | eapply advances_trans; eassumption].
Qed.

Lemma steps_app (lib : GoLibrary) (n1 n2 : nat) :
  forall state p state1 p1,
    steps lib n1 state p = Ok (Some state1, p1) ->
    steps lib (n1 + n2) state p = steps lib n2 state1 p1.
Proof.
  induction n1 as [|n1 IH]; intros state p state1 p1 H.
  - by injection H as <- <-.
  - apply steps_Ok_S in H as (state' & p' & H1 & H).
    simpl. unfold bind at 1. rewrite H1. by apply IH.
Qed.

(** The loop of [run] goes through the states [steps] lists. *)
Lemma runFrom_steps (lib : GoLibrary) (n fuel : nat) :
  forall state p state' p',
    steps lib n state p = Ok (Some state', p') ->
    runFrom lib (n + fuel) state p = runFrom lib fuel state' p'.
Proof.
  induction n as [|n IH]; intros state p state' p' H.
  - by injection H as <- <-.
  - apply steps_Ok_S in H as (state1 & p1 & H1 & H).
    simpl. unfold bind at 1. rewrite H1. by apply IH.
Qed.

(** ** Tables declared twice *)

Lemma onBuilder_staysDeclared (key : string) (f : world -> result world) :
  (forall w w', f w = Ok w' ->
     In key (seenTableKeys (b w)) -> In key (seenTableKeys (b w'))) ->
  preserves (staysDeclared key) (onBuilder f).
Proof.
  intros Hf p a p'. unfold onBuilder, mbind, result_bind.
  destruct (f (builder p)) as [w'| |] eqn:Hw; try discriminate.
  intros [= _ <-]. unfold staysDeclared, declared. simpl. eauto.
Qed.

Lemma sameSeen_staysDeclared (key : string) (f : world -> result world) :
  (forall w w', f w = Ok w' -> seenTableKeys (b w') = seenTableKeys (b w)) ->
  preserves (staysDeclared key) (onBuilder f).
Proof.
  intros Hf. apply onBuilder_staysDeclared. intros w w' Hw. by rewrite (Hf w w' Hw).
Qed.

(** No call of the loop forgets a table whose name has no dot. *)
Lemma steps_staysDeclared (lib : GoLibrary) (key : string) (n : nat)
  (state : tomlParserStateFn) :
  noDot key = true -> preserves (staysDeclared key) (steps lib n state).
Proof.
  intros Hdot. apply steps_preserves.
  - intros p. unfold staysDeclared. auto.
  - unfold staysDeclared. auto.
  - intros p t _. unfold staysDeclared, declared. auto.
  - intros. apply sameSeen_staysDeclared, foundValue_seen.
  - apply sameSeen_staysDeclared, enterArray_seen.
  - apply sameSeen_staysDeclared, exitArray_seen.
  - apply sameSeen_staysDeclared, enterInlineTable_seen.
  - intros t k v p a p'. unfold treeSet. destruct (Set_ _ _ _ _); [|discriminate].
    intros [= _ <-]. unfold staysDeclared, declared. simpl. auto.
  - intros. apply sameSeen_staysDeclared, enterAssign_seen.
  - intros k keys position. apply onBuilder_staysDeclared. intros w w' Hw Hin.
    rewrite (enterGroup_seen _ _ _ _ _ Hw). apply in_or_app. by left.
  - intros k keys position. apply onBuilder_staysDeclared. intros w w' Hw Hin.
    eapply enterGroupArray_keeps; eassumption.
Qed.

(** At a header [[key]], [parseGroup] reads the two tokens and, if the
    key splits into segments, calls [enterGroup]. *)
Lemma parseGroup_at_header (key : string) (p : tomlParser) :
  declaresTable key p ->
  exists t1 t2,
    parseGroup p =
      match parseKey key with
      | inr err => Panicked (Raised (tokPosition t2) "invalid table array key: %s" [AErr err])
      | inl keys =>
          match enterGroup key keys (tokPosition t1) (builder p) with
          | Ok w =>
              (let* _ := assume tokenRightBracket in ret (Some parseStartFn))
                (mkTomlParser (S (S (flowIdx p))) (flow p) w)
          | Panicked e => Panicked e
          | OutOfFuel => OutOfFuel
          end
      end.
Proof.
  intros (t1 & t2 & H1 & Hty1 & H2 & Hty2 & <-). exists t1, t2.
  cbv beta iota delta [parseGroup bind getToken peek ret onBuilder mbind result_bind
                         abort raiseErrorAt].
  rewrite H1. cbn [flow flowIdx builder]. rewrite H2. cbn [flow flowIdx builder].
  rewrite Hty2. rewrite bool_decide_eq_false_2 by (intros Hne; by apply Hne).
  destruct (parseKey (val t2)) as [keys|err]; [|reflexivity].
  destruct (enterGroup _ _ _ _); reflexivity.
Qed.

(** A header [[key]] that is accepted declares the table. *)
Lemma parseGroup_declares (key : string) (p p' : tomlParser)
  (r : option tomlParserStateFn) :
  declaresTable key p -> parseGroup p = Ok (r, p') ->
  declared key p' /\ exists keys, parseKey key = inl keys.
Proof.
  intros Hd H. destruct (parseGroup_at_header key p Hd) as (t1 & t2 & Heq).
  rewrite Heq in H. destruct (parseKey key) as [keys|err]; [|discriminate].
  split; [|eauto].
  destruct (enterGroup _ _ _ _) as [w| |] eqn:Hw; try discriminate.
  apply enterGroup_seen in Hw.
  assert (preserves sameSeen (let* _ := assume tokenRightBracket in ret (Some parseStartFn)))
    as Hsame.
  { assert (forall q, sameSeen q q) as Hrefl by reflexivity.
    assert (forall q1 q2 q3, sameSeen q1 q2 -> sameSeen q2 q3 -> sameSeen q1 q3) as Htrans
      by (unfold sameSeen; congruence).
    apply preserves_bind; [assumption | |intros _; by apply preserves_ret].
    apply preserves_assume; try assumption. by intros q t _. }
  apply Hsame in H. unfold sameSeen in H. simpl in H.
  unfold declared. rewrite H, Hw. apply in_or_app. right. by left.
Qed.

(** A header [[key]] for a table that is already declared is refused. *)
Lemma parseGroup_duplicated (key : string) (keys : list string) (p : tomlParser) :
  declaresTable key p -> parseKey key = inl keys -> declared key p ->
  exists position, parseGroup p = Panicked (Raised position "duplicated tables" []).
Proof.
  intros Hd Hkeys Hin. destruct (parseGroup_at_header key p Hd) as (t1 & t2 & ->).
  rewrite Hkeys. rewrite enterGroup_duplicated by assumption. eauto.
Qed.

(** ** Table arrays declared again *)

Lemma store_other (h : list Tree) (t t' : ptr) (key : string) (v : iface) :
  t <> t' -> store h t key v !! t' = h !! t'.
Proof.
  intros Hne. unfold store. destruct (h !! t); [|reflexivity].
  by apply list_lookup_insert_ne.
Qed.

Lemma store_length (h : list Tree) (t : ptr) (key : string) (v : iface) :
  List.length (store h t key v) = List.length h.
Proof. unfold store. destruct (h !! t); [apply length_insert | reflexivity]. Qed.

Lemma setPosition_new (h : list Tree) (tr : Tree) (pos : Position) :
  setPosition (h ++ [tr]) (List.length h) pos
  = (h ++ [mkTree (values tr) pos])%list.
Proof.
  unfold setPosition. rewrite list_lookup_middle by reflexivity.
  replace (List.length h) with (List.length h + 0) at 1 by lia.
  rewrite insert_app_r. reflexivity.
Qed.

(** A header [[[k]]] at the top level, where [k] is free or holds a table
    array: a new empty table, positioned at the header, is appended to the
    array, and no other tree but the root changes. *)
Lemma enterGroupArray_appends (key k : string) (position : Position) (w : world)
  (ts : list ptr) :
  is_Some (heap w !! tree (b w)) ->
  rootValues w !! k = None /\ ts = [] \/ rootValues w !! k = Some (TreeSlice ts) ->
  exists w',
    enterGroupArray key [k] position w = Ok w' /\
    tree (b w') = tree (b w) /\
    is_Some (heap w' !! tree (b w')) /\
    rootValues w' !! k = Some (TreeSlice (ts ++ [List.length (heap w)])) /\
    List.length (heap w') = S (List.length (heap w)) /\
    heap w' !! List.length (heap w) = Some (mkTree ∅ position) /\
    (forall t, t <> tree (b w) -> t < List.length (heap w) -> heap w' !! t = heap w !! t).
Proof.
  intros Hroot Hk.
  assert (tree (b w) < List.length (heap w)) as Hlt by by apply lookup_lt_is_Some.
  assert (GetPath (heap w) (tree (b w)) [k]
          = match ts with [] => Nil | _ => TreeSlice ts end \/
          GetPath (heap w) (tree (b w)) [k] = TreeSlice ts) as Hget.
  { unfold rootValues in Hk. cbn [GetPath].
    destruct Hk as [[-> ->]| ->]; [by left | by right]. }
  unfold enterGroupArray, createSubTree. cbn [removelast createSubTree_from].
  cbv beta iota delta [mbind result_bind newTree].
  assert ((match GetPath (heap w) (tree (b w)) [k] with
           | Nil => Ok []
           | TreeSlice target => Ok target
           | _ => raiseError position
                    "key %s is already assigned and not of type table array" [AStr key]
           end) = Ok ts) as ->.
  { destruct Hget as [-> | ->]; [|reflexivity].
    destruct Hk as [[_ ->]| Hk]; [reflexivity|]. by destruct ts. }
  cbn [heap b setHeap setCurrentTable currentTable tree SetPath toTomlValue seenTableKeys].
  rewrite setPosition_new. cbn [values].
  destruct (removeChildren (key +:+ ".") key (seenTableKeys (b w)) false) as [seen found].
  eexists. split; [reflexivity|]. cbn [heap b setHeap setSeenTableKeys tree].
  assert (is_Some ((heap w ++ [mkTree ∅ position])%list !! tree (b w))) as Hroot'.
  { apply lookup_lt_is_Some. rewrite length_app. simpl. lia. }
  split; [reflexivity|]. split; [by apply store_allocated|].
  split; [unfold rootValues; by apply valuesOf_store|].
  split; [rewrite store_length, length_app; simpl; lia|].
  split.
  - rewrite store_other by lia. by apply list_lookup_middle.
  - intros t Hne Ht. rewrite store_other by congruence. by apply lookup_app_l.
Qed.

(** C3.  In every document, once a header [[key]] for a top-level table
    has been accepted, a later header [[key]] that the parser reaches
    makes the parse fail with [duplicated tables]; two headers [[[k]]] in
    a row are both accepted and leave at [k] a table array of two new
    tables, the first positioned at the first header and the second at
    the second.  So is it for the documents [[a]], [[a]] and [[[a]]],
    [[[a]]]. *)
Theorem table_twice_is_rejected_table_array_twice_appends (lib : GoLibrary) :
  (forall tokens key n1 n2 p1 p2,
     noDot key = true ->
     steps lib n1 parseStartFn (start tokens) = Ok (Some parseGroupFn, p1) ->
     declaresTable key p1 ->
     steps lib (S n2) parseGroupFn p1 = Ok (Some parseGroupFn, p2) ->
     declaresTable key p2 ->
     exists position,
       parseToml lib tokens = Panicked (Raised position "duplicated tables" [])) /\
  (forall w key k position1 position2,
     is_Some (heap w !! tree (b w)) ->
     rootValues w !! k = None ->
     exists w1 w2,
       enterGroupArray key [k] position1 w = Ok w1 /\
       enterGroupArray key [k] position2 w1 = Ok w2 /\
       rootValues w2 !! k
         = Some (TreeSlice [List.length (heap w); S (List.length (heap w))]) /\
       heap w2 !! List.length (heap w) = Some (mkTree ∅ position1) /\
       heap w2 !! S (List.length (heap w)) = Some (mkTree ∅ position2)) /\
  parseToml lib doc_table_twice
    = Panicked (Raised (mkPosition 2 1) "duplicated tables" []) /\
  (exists w, parseToml lib doc_table_array_twice = Ok w /\
     rootValues w = {[ "a" := TreeSlice [1; 2] ]} /\
     heap w !! 1 = Some (mkTree ∅ (mkPosition 1 1)) /\
     heap w !! 2 = Some (mkTree ∅ (mkPosition 2 1))).
Proof.
  split; [|split; [|settle]].
  - intros tokens key n1 n2 p1 p2 Hdot H1 D1 H2 D2.
    pose proof H2 as Hsteps.
    apply steps_Ok_S in H2 as (s1 & p1' & Hcall & Hrest). simpl in Hcall.
    destruct (parseGroup_declares key p1 p1' _ D1 Hcall) as [Hdecl [keys Hkeys]].
    pose proof (steps_staysDeclared lib key n2 s1 Hdot _ _ _ Hrest Hdecl) as Hdecl2.
    destruct (parseGroup_duplicated key keys p2 D2 Hkeys Hdecl2) as [position Hdup].
    exists position.
    assert (steps lib (n1 + S n2) parseStartFn (start tokens) = Ok (Some parseGroupFn, p2))
      as Htotal by (by rewrite (steps_app lib n1 (S n2) _ _ _ _ H1)).
    destruct (steps_potential lib _ _ _ _ _ Htotal) as [Hpot (Hflow & _ & _)].
    destruct D2 as (t1 & _ & Ht1 & _). apply lookup_lt_Some in Ht1.
    rewrite Hflow in Ht1. unfold potential, start in Hpot. simpl in Hpot, Ht1.
    unfold parseToml, run, enoughFuel. cbn [flow start].
    replace (2 * List.length tokens + 2)
      with (n1 + S n2 + S (2 * List.length tokens + 1 - (n1 + S n2))) by lia.
    unfold mbind, result_bind.
    rewrite (runFrom_steps lib _ _ _ _ _ _ Htotal).
    simpl. unfold bind. rewrite Hdup. reflexivity.
  - intros w key k position1 position2 Hroot Hk.
    destruct (enterGroupArray_appends key k position1 w [] Hroot (or_introl (conj Hk eq_refl)))
      as (w1 & H1 & Htree1 & Hroot1 & Hk1 & Hlen1 & Hnew1 & _).
    destruct (enterGroupArray_appends key k position2 w1 _ Hroot1 (or_intror Hk1))
      as (w2 & H2 & Htree2 & Hroot2 & Hk2 & Hlen2 & Hnew2 & Hold2).
    exists w1, w2. rewrite Hlen1 in *. simpl in Hk2.
    repeat (split; [assumption|]). split; [|assumption].
    rewrite Hold2; [assumption| |lia].
    apply lookup_lt_is_Some in Hroot. rewrite Htree1. lia.
Qed.

(** ** Digit separators *)

Lemma xorb_true_negb (x : bool) : xorb true x = negb x.
Proof. by destruct x. Qed.

(** What the pattern for decimal, octal and binary literals matches at
    one place. *)
Lemma number_regexp_at (atStart : bool) (s : string) :
  matchPrefix numberUnderscoreInvalidRegexp atStart s (fun _ _ => true)
  = invalidAt isDecimalDigit atStart s.
Proof.
  unfold numberUnderscoreInvalidRegexp.
  destruct s as [|c [|d rest]]; cbn [matchPrefix invalidAt headIs];
    unfold inClass, digit, isDecimalDigit, isUnderscore; cbn [existsb fst snd];
    rewrite ?xorb_true_negb, ?orb_false_r, ?andb_true_r.
  - by destruct atStart.
  - destruct (between "0" "9" c), (Ascii.eqb "_" c), atStart; reflexivity.
  - destruct (between "0" "9" c), (Ascii.eqb "_" c), (between "0" "9" d),
      (Ascii.eqb "_" d), atStart; reflexivity.
Qed.

Lemma number_regexp_search (s : string) :
  forall atStart,
    searchFrom numberUnderscoreInvalidRegexp atStart s
    = invalidFrom isDecimalDigit atStart s.
Proof.
  induction s as [|c rest IH]; intros atStart; cbn [searchFrom invalidFrom];
    rewrite number_regexp_at; [reflexivity|]. by rewrite IH.
Qed.

(** What the pattern for hexadecimal literals matches at one place. *)
Lemma hex_regexp_at (atStart : bool) (s : string) :
  matchPrefix hexNumberUnderscoreInvalidRegexp atStart s (fun _ _ => true)
  = atStart && startsWith0x_ s || invalidAt isHexDigit atStart s.
Proof.
  unfold hexNumberUnderscoreInvalidRegexp.
  destruct s as [|c [|d [|e rest]]]; cbn [matchPrefix invalidAt headIs startsWith0x_];
    unfold inClass, hexDigit, isHexDigit, isUnderscore; cbn [existsb fst snd];
    rewrite ?xorb_true_negb, ?orb_false_r, ?andb_true_r, ?andb_false_r.
  - by destruct atStart.
  - destruct (between "0" "9" c || between "a" "f" c), (Ascii.eqb "_" c), atStart;
      reflexivity.
  - destruct (between "0" "9" c || between "a" "f" c), (Ascii.eqb "_" c),
      (between "0" "9" d || between "a" "f" d), (Ascii.eqb "_" d), atStart,
      (Ascii.eqb "0" c), (Ascii.eqb "x" d); reflexivity.
  - destruct (between "0" "9" c || between "a" "f" c), (Ascii.eqb "_" c),
      (between "0" "9" d || between "a" "f" d), (Ascii.eqb "_" d), atStart,
      (Ascii.eqb "0" c), (Ascii.eqb "x" d), (Ascii.eqb "_" e); reflexivity.
Qed.

Lemma hex_regexp_search_inside (s : string) :
  searchFrom hexNumberUnderscoreInvalidRegexp false s = invalidFrom isHexDigit false s.
Proof.
  induction s as [|c rest IH]; cbn [searchFrom invalidFrom];
    rewrite hex_regexp_at; [reflexivity|]. by rewrite IH.
Qed.

(** The alternative [^0x_] of the hexadecimal pattern adds nothing: the
    [_] it finds comes after [x], which is no digit. *)
Lemma startsWith0x_invalid (c : ascii) (rest : string) :
  startsWith0x_ (String c rest) = true -> invalidFrom isHexDigit false rest = true.
Proof.
  destruct rest as [|d [|e rest]]; try discriminate. cbn [startsWith0x_].
  intros H. apply andb_true_iff in H as [_ H]. apply andb_true_iff in H as [Hx He].
  apply Ascii.eqb_eq in Hx as <-. cbn [invalidFrom invalidAt headIs].
  rewrite He. reflexivity.
Qed.

Lemma hex_regexp_search (s : string) :
  searchFrom hexNumberUnderscoreInvalidRegexp true s = invalidFrom isHexDigit true s.
Proof.
  destruct s as [|c rest]; cbn [searchFrom invalidFrom]; rewrite hex_regexp_at;
    [reflexivity|].
  rewrite hex_regexp_search_inside. cbn [andb].
  destruct (startsWith0x_ (String c rest)) eqn:H0x; [|reflexivity].
  rewrite (startsWith0x_invalid _ _ H0x). by rewrite !orb_true_r.
Qed.

(** Inside the text: something invalid from the byte [c0] on is a [_] at
    [c0] with no digit after it, or a [_] later that is not flanked. *)
Lemma invalidFrom_inside (isDigit : ascii -> bool) (s : string) :
  forall c0,
    invalidFrom isDigit false (String c0 s)
    = isUnderscore c0 && negb (headIs isDigit s)
      || negb (flankedFrom isDigit (Some c0) s).
Proof.
  induction s as [|c rest IH]; intros c0.
  - cbn [invalidFrom invalidAt headIs flankedFrom].
    destruct (isDigit c0), (isUnderscore c0); reflexivity.
  - change (invalidFrom isDigit false (String c0 (String c rest)))
      with (invalidAt isDigit false (String c0 (String c rest))
            || invalidFrom isDigit false (String c rest)).
    rewrite IH. cbn [invalidAt headIs flankedFrom].
    destruct (isDigit c0), (isUnderscore c0), (isDigit c), (isUnderscore c),
      (headIs isDigit rest), (flankedFrom isDigit (Some c) rest); reflexivity.
Qed.

(** The two patterns find a match exactly when some [_] is not flanked by
    digits on both sides. *)
Lemma invalidFrom_flanked (isDigit : ascii -> bool) (s : string) :
  invalidFrom isDigit true s = negb (separatorsFlanked isDigit s).
Proof.
  unfold separatorsFlanked. destruct s as [|c rest]; [reflexivity|].
  change (invalidFrom isDigit true (String c rest))
    with (invalidAt isDigit true (String c rest) || invalidFrom isDigit false rest).
  destruct rest as [|d rest].
  - cbn [invalidFrom invalidAt headIs flankedFrom].
    destruct (isDigit c), (isUnderscore c); reflexivity.
  - rewrite invalidFrom_inside. cbn [invalidAt headIs flankedFrom].
    destruct (isDigit c), (isUnderscore c), (isDigit d), (isUnderscore d),
      (headIs isDigit rest), (flankedFrom isDigit (Some d) rest); reflexivity.
Qed.

Lemma numberContainsInvalidUnderscore_flanked (value : string) :
  numberContainsInvalidUnderscore value = None <->
  separatorsFlanked isDecimalDigit value = true.
Proof.
  unfold numberContainsInvalidUnderscore, MatchString.
  rewrite number_regexp_search, invalidFrom_flanked.
  destruct (separatorsFlanked isDecimalDigit value); simpl; split; congruence.
Qed.

Lemma hexNumberContainsInvalidUnderscore_flanked (value : string) :
  hexNumberContainsInvalidUnderscore value = None <->
  separatorsFlanked isHexDigit value = true.
Proof.
  unfold hexNumberContainsInvalidUnderscore, MatchString.
  rewrite hex_regexp_search, invalidFrom_flanked.
  destruct (separatorsFlanked isHexDigit value); simpl; split; congruence.
Qed.

(** ** Integer literals *)

Lemma removeUnderscores_flanked (isDigit : ascii -> bool) (s : string) :
  forall previous, flankedFrom isDigit previous (removeUnderscores s) = true.
Proof.
  induction s as [|c rest IH]; intros previous; [reflexivity|].
  cbn [removeUnderscores]. destruct (Ascii.eqb c "_") eqn:Hc; [apply IH|].
  cbn [flankedFrom]. unfold isUnderscore. rewrite Ascii.eqb_sym, Hc. apply IH.
Qed.

Lemma removeUnderscores_idempotent (s : string) :
  removeUnderscores (removeUnderscores s) = removeUnderscores s.
Proof.
  induction s as [|c rest IH]; [reflexivity|].
  cbn [removeUnderscores]. destruct (Ascii.eqb c "_") eqn:Hc; [assumption|].
  cbn [removeUnderscores]. by rewrite Hc, IH.
Qed.

Lemma digitValue_nonneg (d : ascii) (v : Z) : digitValue d = Some v -> (0 <= v)%Z.
Proof.
  unfold digitValue, between.
  change (N_of_ascii "0") with 48%N. change (N_of_ascii "a") with 97%N.
  change (N_of_ascii "A") with 65%N.
  repeat case_match; intros [= <-];
    repeat match goal with
           | H : (_ && _) = true |- _ => apply andb_true_iff in H as [? ?]
           | H : (_ <=? _)%N = true |- _ => apply N.leb_le in H
           end; lia.
Qed.

Lemma parseUintLoop_nonneg (base : Z) (s : string) :
  forall n r, (0 <= base)%Z -> (0 <= n)%Z -> parseUintLoop base s n = inl r -> (0 <= r)%Z.
Proof.
  induction s as [|d rest IH]; intros n r Hbase Hn; cbn [parseUintLoop].
  - by intros [= <-].
  - destruct (digitValue d) as [v|] eqn:Hv; [|discriminate].
    apply digitValue_nonneg in Hv.
    destruct (base <=? v)%Z; [discriminate|].
    destruct (maxUint64 <? n * base + v)%Z; [discriminate|].
    apply IH; [assumption | nia].
Qed.

(** A value [strconv.ParseInt] returns fits a signed 64-bit integer. *)
Lemma ParseInt_int64 (s : string) (base n : Z) :
  (0 <= base)%Z -> ParseInt s base = inl n -> (- 2 ^ 63 <= n < 2 ^ 63)%Z.
Proof.
  intros Hbase. unfold ParseInt. destruct s as [|c rest]; [discriminate|].
  set (digits := if (Ascii.eqb c "+" || Ascii.eqb c "-")%bool then rest else String c rest).
  destruct (ParseUint digits base) as [un|] eqn:Hun; [|discriminate].
  assert (0 <= un)%Z as Hpos.
  { unfold ParseUint in Hun. destruct digits; [discriminate|].
    eapply parseUintLoop_nonneg; [exact Hbase | | exact Hun]. lia. }
  destruct (Ascii.eqb c "-"); cbn [negb andb].
  - destruct (2 ^ 63 <? un)%Z eqn:Hcut; [discriminate|]. intros [= <-].
    apply Z.ltb_ge in Hcut. lia.
  - destruct (2 ^ 63 <=? un)%Z eqn:Hcut; [discriminate|]. intros [= <-].
    apply Z.leb_gt in Hcut. lia.
Qed.

Lemma checkedParseInt_Ok (tok : token) (invalid : option goerror) (digits : string)
  (base n : Z) :
  checkedParseInt tok invalid digits base = Ok n ->
  invalid = None /\ ParseInt digits base = inl n.
Proof.
  unfold checkedParseInt. destruct invalid; [discriminate|].
  destruct (ParseInt digits base); [|discriminate]. by intros [= <-].
Qed.

Lemma checkedParseInt_clean (tok tok' : token) (digits : string) (base n : Z) :
  ParseInt digits base = inl n -> checkedParseInt tok' None digits base = Ok n.
Proof. unfold checkedParseInt. by intros ->. Qed.

(** A literal without separators passes both checks. *)
Lemma cleaned_passes (value : string) :
  numberContainsInvalidUnderscore (cleanupNumberToken value) = None /\
  hexNumberContainsInvalidUnderscore (cleanupNumberToken value) = None.
Proof.
  split.
  - apply numberContainsInvalidUnderscore_flanked, removeUnderscores_flanked.
  - apply hexNumberContainsInvalidUnderscore_flanked, removeUnderscores_flanked.
Qed.

(** An accepted integer literal: its separators are flanked by digits,
    its value is what [strconv.ParseInt] reads in the cleaned literal, in
    the base its prefix selects, the value fits 64 bits, and it is the
    value of the literal without its separators. *)
Lemma parseInteger_Ok (tok : token) (n : Z) :
  parseInteger tok = Ok n ->
  let cleanedVal := cleanupNumberToken (val tok) in
  separatorsFlanked (separatorDigit cleanedVal) (val tok) = true /\
  ParseInt (snd (baseAndDigits cleanedVal)) (fst (baseAndDigits cleanedVal)) = inl n /\
  (- 2 ^ 63 <= n < 2 ^ 63)%Z /\
  parseInteger (mkToken (tokPosition tok) (typ tok) cleanedVal) = Ok n.
Proof.
  intros H. cbv zeta.
  destruct (cleaned_passes (val tok)) as [Hdec Hhex].
  unfold parseInteger in *. cbn [val tokPosition].
  unfold cleanupNumberToken in *. rewrite removeUnderscores_idempotent.
  set (cleanedVal := removeUnderscores (val tok)) in *.
  unfold separatorDigit, baseAndDigits.
  destruct cleanedVal as [|c0 [|c1 [|c2 rest]]];
    try (apply checkedParseInt_Ok in H as [Hflank Hn]; cbn [fst snd Z.eqb];
         apply numberContainsInvalidUnderscore_flanked in Hflank;
         rewrite Hdec;
         repeat split; [assumption | assumption | eapply ParseInt_int64; [|eassumption]; lia
                        | eapply ParseInt_int64; [|eassumption]; lia
                        | by eapply checkedParseInt_clean ]).
  destruct (Ascii.eqb c0 "0"); cbn [andb];
    [destruct (Ascii.eqb c1 "x");
     [|destruct (Ascii.eqb c1 "o"); [|destruct (Ascii.eqb c1 "b"); [|discriminate]]]|];
    apply checkedParseInt_Ok in H as [Hflank Hn]; cbn [fst snd Z.eqb Pos.eqb];
    first [apply numberContainsInvalidUnderscore_flanked in Hflank
          |apply hexNumberContainsInvalidUnderscore_flanked in Hflank];
    rewrite ?Hdec, ?Hhex;
    (repeat split; [assumption | assumption | eapply ParseInt_int64; [|eassumption]; lia
                    | eapply ParseInt_int64; [|eassumption]; lia
                    | by eapply checkedParseInt_clean ]).
Qed.

Lemma parseInteger_returns (tok : token) : parseInteger tok <> OutOfFuel.
Proof.
  unfold parseInteger, checkedParseInt.
  repeat case_match; discriminate.
Qed.

(** C8.  An integer literal is accepted only if every [_] in it is
    flanked by digits on both sides (hexadecimal digits in a [0x]
    literal); its value is then what [strconv.ParseInt] reads in the
    literal without separators, in base 16, 8 or 2 after a [0x], [0o] or
    [0b] prefix and in base 10 otherwise, it fits a signed 64-bit integer,
    and it is the value of the literal written without separators.  A
    literal with a [_] that is not flanked is rejected.  So [1_000] is
    1000, [0x1A] is 26, [0b101] is 5, [0o17] is 15, and [_100], [100_]
    and [1__00] are rejected. *)
Theorem integer_literals_are_checked_cleaned_and_read_in_their_base (lib : GoLibrary) :
  (forall tok n,
     parseInteger tok = Ok n ->
     let cleanedVal := cleanupNumberToken (val tok) in
     separatorsFlanked (separatorDigit cleanedVal) (val tok) = true /\
     ParseInt (snd (baseAndDigits cleanedVal)) (fst (baseAndDigits cleanedVal)) = inl n /\
     (- 2 ^ 63 <= n < 2 ^ 63)%Z /\
     parseInteger (mkToken (tokPosition tok) (typ tok) cleanedVal) = Ok n) /\
  (forall tok,
     separatorsFlanked (separatorDigit (cleanupNumberToken (val tok))) (val tok) = false ->
     exists e, parseInteger tok = Panicked e) /\
  (parseInteger (integerToken "1_000") = Ok 1000%Z /\
   parseInteger (integerToken "0x1A") = Ok 26%Z /\
   parseInteger (integerToken "0b101") = Ok 5%Z /\
   parseInteger (integerToken "0o17") = Ok 15%Z) /\
  (isPanicked (parseInteger (integerToken "_100")) = true /\
   isPanicked (parseInteger (integerToken "100_")) = true /\
   isPanicked (parseInteger (integerToken "1__00")) = true) /\
  (exists w, parseToml lib (doc_integer "0x1A") = Ok w /\
     assigned w = Some (TomlValuePtr (GoInt64 26) (mkPosition 1 1))) /\
  (exists w, parseToml lib (doc_integer "1_000") = Ok w /\
     assigned w = Some (TomlValuePtr (GoInt64 1000) (mkPosition 1 1))).
Proof.
  split; [exact parseInteger_Ok|]. split; [|settle].
  intros tok Hbad. destruct (parseInteger tok) as [n|e|] eqn:H.
  - apply parseInteger_Ok in H as [Hflank _]. congruence.
  - eauto.
  - by apply parseInteger_returns in H.
Qed.

(** ** Keys of assignments *)

(** [enterAssign] creates no tree, changes no tree and leaves the current
    table as it is. *)
Lemma enterAssign_heap (key : string) (position : Position) (w w' : world) :
  enterAssign key position w = Ok w' ->
  heap w' = heap w /\ currentTable (b w') = currentTable (b w).
Proof.
  unfold enterAssign. intros H. simpl in H. unfold mbind, result_bind in H.
  repeat (case_match; try discriminate); simplify_eq; split; reflexivity.
Qed.

(** C2, as the claim states it: the two assignments [a.b = 1] and
    [a.c = 2] are not both accepted. *)
Lemma dotted_keys_counterexample :
  ~ exists lib w, parseToml lib doc_dotted_pair = Ok w.
Proof. intros (lib & w & H). vm_compute in H. discriminate. Qed.

(** C2, amended.  The second of the assignments [a = 1] and [a = 2] fails
    with the error of a key defined twice.  The key of an assignment is
    one segment: [enterAssign] creates no table and does not move the
    current table, so after [a.b = 1] the root tree has no key [a] and
    holds no table. *)
Theorem second_assignment_is_rejected_and_keys_are_one_segment (lib : GoLibrary) :
  (exists args,
     parseToml lib doc_a_twice
     = Panicked (Raised (mkPosition 2 1) "The following key was defined twice: %s" args)) /\
  (forall key position w w',
     enterAssign key position w = Ok w' ->
     heap w' = heap w /\ currentTable (b w') = currentTable (b w)) /\
  (exists w, parseToml lib doc_dotted = Ok w /\
     rootValues w !! "a" = None /\
     map_Forall (fun _ v => TypeOf v <> Some TTreePtr) (rootValues w)).
Proof.
  split; [settle|]. split; [exact enterAssign_heap|].
  eexists. split; [evaluate|]. split; [evaluate|].
  match goal with
  | |- map_Forall _ ?m =>
      assert (m = {[ EmptyString := TomlValuePtr (GoInt64 1) (mkPosition 1 1) ]}) as ->
        by evaluate
  end.
  apply map_Forall_singleton. discriminate.
Qed.

(** ** The parser always returns *)

Lemma advances_remaining (p p' : tomlParser) :
  advances p p' -> remaining p' <= remaining p.
Proof. unfold advances, remaining. intros (-> & Hle & _). lia. Qed.

Lemma bind_returns {A B} (m : method A) (f : A -> method B) (p : tomlParser) :
  m p <> OutOfFuel ->
  (forall a p1, m p = Ok (a, p1) -> f a p1 <> OutOfFuel) ->
  bind m f p <> OutOfFuel.
Proof.
  intros Hm Hf. unfold bind. destruct (m p) as [[a p1]| |]; [by apply Hf | discriminate | done].
Qed.

Lemma raiseErrorAt_returns {A} (t : option token) (msg : string) (args : list arg)
  (p : tomlParser) : @raiseErrorAt A t msg args p <> OutOfFuel.
Proof. by destruct t. Qed.

Lemma getToken_returns (p : tomlParser) : getToken p <> OutOfFuel.
Proof.
  cbv beta iota delta [bind getToken peek ret].
  destruct (flow p !! flowIdx p); discriminate.
Qed.

Lemma assume_returns (ty : tokenType) (p : tomlParser) : assume ty p <> OutOfFuel.
Proof.
  cbv beta iota delta [assume bind getToken peek ret raiseErrorAt abort].
  destruct (flow p !! flowIdx p); [|discriminate].
  destruct (bool_decide _); discriminate.
Qed.

Lemma onBuilder_returns (f : world -> result world) (p : tomlParser) :
  f (builder p) <> OutOfFuel -> onBuilder f p <> OutOfFuel.
Proof. unfold onBuilder, mbind, result_bind. by destruct (f (builder p)). Qed.

Lemma treeSet_returns (t : ptr) (key : string) (value : iface) (p : tomlParser) :
  treeSet t key value p <> OutOfFuel.
Proof. unfold treeSet. by destruct (Set_ _ _ _ _). Qed.

Lemma foundValue_returns (value : iface) (position : Position) (w : world) :
  foundValue value position w <> OutOfFuel.
Proof. unfold foundValue, raiseError. repeat case_match; discriminate. Qed.

Lemma exitArray_returns (w : world) : exitArray w <> OutOfFuel.
Proof. unfold exitArray. repeat case_match; discriminate. Qed.

Lemma enterAssign_returns (key : string) (position : Position) (w : world) :
  enterAssign key position w <> OutOfFuel.
Proof.
  unfold enterAssign, raiseError, mbind, result_bind. cbv zeta.
  repeat case_match; discriminate.
Qed.

Lemma enterGroup_returns (key : string) (keys : list string) (position : Position)
  (w : world) : enterGroup key keys position w <> OutOfFuel.
Proof. unfold enterGroup, raiseError. repeat case_match; discriminate. Qed.

Lemma enterGroupArray_returns (key : string) (keys : list string) (position : Position)
  (w : world) : enterGroupArray key keys position w <> OutOfFuel.
Proof.
  unfold enterGroupArray, raiseError, mbind, result_bind. cbv zeta.
  repeat case_match; discriminate.
Qed.

Lemma getToken_remaining (p p1 : tomlParser) (r : option token) :
  getToken p = Ok (r, p1) -> remaining p1 <= remaining p.
Proof.
  intros H. apply getToken_inv in H as [(t & _ & Ht & ->)|(_ & -> & _)]; [|done].
  unfold remaining. simpl. lia.
Qed.

Lemma getToken_consumes (p p1 : tomlParser) (r : option token) (t : token) :
  flow p !! flowIdx p = Some t -> getToken p = Ok (r, p1) -> remaining p1 < remaining p.
Proof.
  intros Ht H. apply lookup_lt_Some in Ht as Hlt.
  apply getToken_inv in H as [(t' & _ & _ & ->)|(_ & _ & Hnone)]; [|congruence].
  unfold remaining. simpl. lia.
Qed.

Lemma assume_remaining (ty : tokenType) (p p1 : tomlParser) (r : unit) :
  assume ty p = Ok (r, p1) -> remaining p1 <= remaining p.
Proof.
  intros H. apply advances_remaining.
  eapply (preserves_assume advances advances_refl advances_trans advances_next).
  eassumption.
Qed.

Lemma onBuilder_remaining (f : world -> result world) (p p1 : tomlParser) (r : unit) :
  onBuilder f p = Ok (r, p1) -> remaining p1 <= remaining p.
Proof. intros H. eapply advances_remaining, onBuilder_advances. eassumption. Qed.

Lemma treeSet_remaining (t : ptr) (key : string) (value : iface) (p p1 : tomlParser)
  (r : unit) :
  treeSet t key value p = Ok (r, p1) -> remaining p1 <= remaining p.
Proof. intros H. eapply advances_remaining, treeSet_advances. eassumption. Qed.

(** A value consumes a token. *)
Lemma parseRvalue_remaining (lib : GoLibrary) (fuel : nat) (p p' : tomlParser) (v : iface) :
  parseRvalue lib fuel p = Ok (v, p') -> remaining p' < remaining p.
Proof.
  intros H.
  apply (parseRvalue_consumes advances advances_refl advances_trans advances_next) in H
    as (t & Ht & Hadv);
    eauto using onBuilder_advances, treeSet_advances.
  apply lookup_lt_Some in Ht. apply advances_remaining in Hadv.
  unfold remaining in *. simpl in Hadv. lia.
Qed.

Lemma peek_inv (p p1 : tomlParser) (r : option token) :
  peek p = Ok (r, p1) -> p1 = p /\ r = flow p !! flowIdx p.
Proof. by intros [= <- <-]. Qed.

Lemma parseArrayLoop_returns (parseRvalue : method iface) (fuel : nat) :
  forall p,
    (forall q, remaining q <= remaining p -> parseRvalue q <> OutOfFuel) ->
    (forall q v q', parseRvalue q = Ok (v, q') -> remaining q' < remaining q) ->
    remaining p < fuel ->
    parseArrayLoop parseRvalue fuel p <> OutOfFuel.
Proof.
  induction fuel as [|fuel IH]; intros p Hrv Hstrict Hfuel; [lia|].
  cbn [parseArrayLoop].
  apply bind_returns; [discriminate|]. intros follow p1 [-> ->]%peek_inv.
  destruct (flow p !! flowIdx p) as [f|]; [|apply raiseErrorAt_returns].
  destruct (bool_decide (typ f = tokenEOF)); [apply raiseErrorAt_returns|].
  destruct (bool_decide (typ f = tokenRightBracket)).
  { apply bind_returns; [apply getToken_returns | discriminate]. }
  apply bind_returns; [apply Hrv; lia|]. intros v p2 Hv%Hstrict.
  apply bind_returns; [discriminate|]. intros follow2 p3 [-> ->]%peek_inv.
  destruct (flow p2 !! flowIdx p2) as [f2|]; [|apply raiseErrorAt_returns].
  destruct (bool_decide (typ f2 = tokenEOF)); [apply raiseErrorAt_returns|].
  destruct (_ && _); [apply raiseErrorAt_returns|].
  apply bind_returns.
  { destruct (bool_decide _); [apply getToken_returns | discriminate]. }
  intros r p4 H4.
  assert (remaining p4 <= remaining p2) as Hle.
  { destruct (bool_decide _); [by eapply getToken_remaining|]. by injection H4 as _ <-. }
  apply IH; [intros q Hq; apply Hrv; lia | assumption | lia].
Qed.

Lemma parseInlineTableLoop_returns (parseRvalue : method iface) (fuel : nat) :
  forall p tree previous,
    (forall q, remaining q <= remaining p -> parseRvalue q <> OutOfFuel) ->
    (forall q v q', parseRvalue q = Ok (v, q') -> remaining q' < remaining q) ->
    remaining p < fuel ->
    parseInlineTableLoop parseRvalue tree previous fuel p <> OutOfFuel.
Proof.
  induction fuel as [|fuel IH]; intros p tree previous Hrv Hstrict Hfuel; [lia|].
  cbn [parseInlineTableLoop].
  apply bind_returns; [discriminate|]. intros follow p1 [-> ->]%peek_inv.
  destruct (flow p !! flowIdx p) as [f|] eqn:Hf; [|apply raiseErrorAt_returns].
  destruct (typ f); try apply raiseErrorAt_returns.
  - destruct (_ && _); [apply raiseErrorAt_returns|].
    apply bind_returns; [apply getToken_returns|]. intros key p2 H2.
    pose proof (getToken_consumes _ _ _ _ Hf H2).
    apply bind_returns; [apply assume_returns|]. intros r3 p3 H3%assume_remaining.
    apply bind_returns; [apply Hrv; lia|]. intros v p4 H4%Hstrict.
    destruct key as [k|]; [|discriminate]. destruct tree as [t|]; [|discriminate].
    apply bind_returns; [apply treeSet_returns|]. intros r5 p5 H5%treeSet_remaining.
    apply IH; [intros q Hq; apply Hrv; lia | assumption | lia].
  - destruct (bool_decide _); [apply raiseErrorAt_returns|].
    destruct (tokenIsComma previous); [apply raiseErrorAt_returns|].
    apply bind_returns; [apply getToken_returns|]. intros r2 p2 H2.
    pose proof (getToken_consumes _ _ _ _ Hf H2).
    apply IH; [intros q Hq; apply Hrv; lia | assumption | lia].
  - apply bind_returns; [apply getToken_returns | discriminate].
Qed.

(** With more fuel than tokens left, a value is parsed or refused. *)
Lemma parseRvalue_returns (lib : GoLibrary) (fuel : nat) :
  forall p, remaining p < fuel -> parseRvalue lib fuel p <> OutOfFuel.
Proof.
  induction fuel as [|fuel IH]; intros p Hfuel; [lia|]. cbn [parseRvalue].
  apply bind_returns; [apply getToken_returns|]. intros tok p1 H1.
  destruct tok as [t|]; [|discriminate].
  assert (remaining p1 < remaining p) as Hlt.
  { apply getToken_inv in H1 as [(t' & _ & Ht & ->)|(? & _ & _)]; [|discriminate].
    apply lookup_lt_Some in Ht. unfold remaining. simpl. lia. }
  assert (forall value, found t value p1 <> OutOfFuel) as Hfound.
  { intros value. unfold found. apply bind_returns; [|discriminate].
    apply onBuilder_returns, foundValue_returns. }
  destruct (typ t); try apply raiseErrorAt_returns; try apply Hfound.
  - apply bind_returns; [|discriminate]. unfold parseArray.
    apply bind_returns; [by apply onBuilder_returns|]. intros r2 p2 H2%onBuilder_remaining.
    apply bind_returns; [|intros; apply onBuilder_returns, exitArray_returns].
    apply parseArrayLoop_returns;
      [intros q Hq; apply IH; lia | intros q v q'; apply parseRvalue_remaining | lia].
  - unfold parseInlineTable.
    apply bind_returns; [by apply onBuilder_returns|]. intros r2 p2 H2%onBuilder_remaining.
    apply bind_returns; [discriminate|]. intros tree p3 [= <- <-].
    apply bind_returns.
    + apply parseInlineTableLoop_returns;
        [intros q Hq; apply IH; lia | intros q v q'; apply parseRvalue_remaining | lia].
    + intros previous p4 _. destruct (tokenIsComma previous);
        [apply raiseErrorAt_returns | discriminate].
  - pose proof (parseInteger_returns t). destruct (parseInteger t); [apply Hfound|done|done].
  - destruct (numberContainsInvalidUnderscore _); [apply raiseErrorAt_returns|].
    destruct (ParseFloat _ _); [apply Hfound | apply raiseErrorAt_returns].
  - destruct (ParseInLocation _ _); [apply Hfound | apply raiseErrorAt_returns].
  - destruct (val t) as [|c rest]; [discriminate|]. destruct (Ascii.eqb c "-"); apply Hfound.
Qed.

Lemma call_returns (lib : GoLibrary) (state : tomlParserStateFn) (p : tomlParser) :
  call lib state p <> OutOfFuel.
Proof.
  destruct state; cbn [call].
  - unfold parseStart. apply bind_returns; [discriminate|]. intros tok p1 _.
    destruct tok as [t|]; [|discriminate].
    destruct (typ t); first [apply raiseErrorAt_returns | discriminate].
  - unfold parseGroupArray.
    apply bind_returns; [apply getToken_returns|]. intros startToken p1 _.
    apply bind_returns; [apply getToken_returns|]. intros key p2 _.
    destruct key as [k|]; [|discriminate].
    destruct (bool_decide _); [apply raiseErrorAt_returns|].
    destruct (parseKey (val k)); [|apply raiseErrorAt_returns].
    destruct startToken; [|discriminate].
    apply bind_returns; [apply onBuilder_returns, enterGroupArray_returns|]. intros ? p3 _.
    apply bind_returns; [apply assume_returns | discriminate].
  - unfold parseGroup.
    apply bind_returns; [apply getToken_returns|]. intros startToken p1 _.
    apply bind_returns; [apply getToken_returns|]. intros key p2 _.
    destruct key as [k|]; [|discriminate].
    destruct (bool_decide _); [apply raiseErrorAt_returns|].
    destruct (parseKey (val k)); [|apply raiseErrorAt_returns].
    destruct startToken; [|discriminate].
    apply bind_returns; [apply onBuilder_returns, enterGroup_returns|]. intros ? p3 _.
    apply bind_returns; [apply assume_returns | discriminate].
  - unfold parseAssign.
    apply bind_returns; [apply getToken_returns|]. intros key p1 _.
    apply bind_returns; [apply assume_returns|]. intros ? p2 _.
    destruct key as [k|]; [|discriminate].
    apply bind_returns; [apply onBuilder_returns, enterAssign_returns|]. intros ? p3 _.
    apply bind_returns; [|discriminate].
    apply parseRvalue_returns. lia.
Qed.

(** A state other than [parseStart] leaves fewer tokens. *)
Lemma call_remaining (lib : GoLibrary) (state : tomlParserStateFn)
  (p p' : tomlParser) (r : option tomlParserStateFn) :
  state <> parseStartFn ->
  call lib state p = Ok (r, p') ->
  remaining p' < remaining p.
Proof.
  intros Hstate H.
  assert (exists t, flow p !! flowIdx p = Some t /\
            advances (mkTomlParser (S (flowIdx p)) (flow p) (builder p)) p')
    as (t & Ht & Hadv).
  { destruct state; simpl in H; [congruence| | |];
      [eapply parseGroupArray_consumes | eapply parseGroup_consumes
      | eapply parseAssign_consumes];
      eauto using advances_refl, advances_trans, advances_next, onBuilder_advances,
        treeSet_advances. }
  apply lookup_lt_Some in Ht. apply advances_remaining in Hadv.
  unfold remaining in *. simpl in Hadv. lia.
Qed.

(** The loop of [run] ends within two calls for every token left, and
    two more. *)
Lemma runFrom_returns (lib : GoLibrary) (fuel : nat) :
  forall state p,
    2 * remaining p + match state with parseStartFn => 2 | _ => 1 end <= fuel ->
    runFrom lib fuel state p <> OutOfFuel.
Proof.
  induction fuel as [|fuel IH]; intros state p Hfuel; [destruct state; lia|].
  cbn [runFrom]. apply bind_returns; [apply call_returns|].
  intros [state'|] p' Hcall; [|discriminate]. apply IH.
  destruct (decide (state = parseStartFn)) as [->|Hstate].
  - cbn [call] in Hcall. apply parseStart_inv in Hcall as [-> Hnext].
    destruct state'; [congruence | lia..].
  - pose proof (call_remaining _ _ _ _ _ Hstate Hcall).
    destruct state, state'; lia.
Qed.

(** [parseToml] gives a tree or panics: the fuel of the model never runs
    out. *)
Theorem parseToml_returns (lib : GoLibrary) (tokens : list token) :
  parseToml lib tokens <> OutOfFuel.
Proof.
  unfold parseToml, run, mbind, result_bind.
  pose proof (runFrom_returns lib (enoughFuel tokens) parseStartFn
                (mkTomlParser 0 tokens makeTreeBuilder)) as H.
  cbn [flow] in *.
  destruct (runFrom _ _ _ _) as [[? ?]| |]; [discriminate..|].
  exfalso. apply H; [|reflexivity]. unfold enoughFuel, remaining. simpl. lia.
Qed.

(** * Instances

    The general statements above, at the documents of the spec. *)

(** C2 at the key [a.b]. *)
Lemma keys_are_one_segment_witness :
  exists w',
    enterAssign "a.b" (mkPosition 1 1) makeTreeBuilder = Ok w' /\
    heap w' = heap makeTreeBuilder /\
    currentTable (b w') = currentTable (b makeTreeBuilder).
Proof.
  eexists. split; [vm_compute; reflexivity|].
  apply (proj1 (proj2 (second_assignment_is_rejected_and_keys_are_one_segment noLibrary))
           "a.b" (mkPosition 1 1)).
  vm_compute; reflexivity.
Defined.

(** C3 at the documents [[a]], [[a]] and at two headers [[[a]]] on a new
    builder. *)
Lemma table_twice_witness :
  noDot "a" = true /\
  (exists position,
     parseToml noLibrary doc_table_twice
     = Panicked (Raised position "duplicated tables" [])) /\
  (exists w1 w2,
     enterGroupArray "a" ["a"] (mkPosition 1 1) makeTreeBuilder = Ok w1 /\
     enterGroupArray "a" ["a"] (mkPosition 2 1) w1 = Ok w2 /\
     rootValues w2 !! "a" = Some (TreeSlice [1; 2]) /\
     heap w2 !! 1 = Some (mkTree ∅ (mkPosition 1 1)) /\
     heap w2 !! 2 = Some (mkTree ∅ (mkPosition 2 1))).
Proof.
  split; [reflexivity|]. split.
  - eapply (proj1 (table_twice_is_rejected_table_array_twice_appends noLibrary)
              doc_table_twice "a" 1 1).
    + reflexivity.
    + vm_compute; reflexivity.
    + do 2 eexists. repeat (split; [vm_compute; reflexivity|]). vm_compute; reflexivity.
    + vm_compute; reflexivity.
    + do 2 eexists. repeat (split; [vm_compute; reflexivity|]). vm_compute; reflexivity.
  - apply (proj1 (proj2 (table_twice_is_rejected_table_array_twice_appends noLibrary))
             makeTreeBuilder "a" "a" (mkPosition 1 1) (mkPosition 2 1)).
    + eexists. vm_compute; reflexivity.
    + vm_compute; reflexivity.
Defined.

(** C4 at the elements of [[1, "a"]]. *)
Lemma mixed_array_witness :
  exists w0,
    enterArray makeTreeBuilder = Ok w0 /\
    foundValues [(GoInt64 1, mkPosition 1 6); (GoString "a", mkPosition 1 9)] w0
    = raiseError (mkPosition 1 9) "mixed types in array" [].
Proof.
  apply (proj1 (array_elements_are_checked_against_the_first noLibrary) makeTreeBuilder
           [(GoInt64 1, mkPosition 1 6); (GoString "a", mkPosition 1 9)]).
  vm_compute; reflexivity.
Defined.

(** C8 at the literals [1_000] and [_100]. *)
Lemma integer_literal_witness :
  (parseInteger (integerToken "1_000") = Ok 1000%Z /\
   separatorsFlanked isDecimalDigit "1_000" = true /\
   ParseInt "1000" 10 = inl 1000%Z /\
   (- 2 ^ 63 <= 1000 < 2 ^ 63)%Z /\
   parseInteger (integerToken "1000") = Ok 1000%Z) /\
  (separatorsFlanked isDecimalDigit "_100" = false /\
   exists e, parseInteger (integerToken "_100") = Panicked e).
Proof.
  split.
  - split; [vm_compute; reflexivity|].
    apply (proj1 (integer_literals_are_checked_cleaned_and_read_in_their_base noLibrary)
             (integerToken "1_000") 1000%Z).
    vm_compute; reflexivity.
  - split; [vm_compute; reflexivity|].
    apply (proj1 (proj2 (integer_literals_are_checked_cleaned_and_read_in_their_base
                           noLibrary)) (integerToken "_100")).
    vm_compute; reflexivity.
Defined.

(** * Further properties of the parser and of the builder *)

(** ** The two separator checks *)

(** X1.  [numberContainsInvalidUnderscore] returns its error exactly when
    some [_] of the text has no decimal digit right before it or right
    after it: at the start, at the end, next to another [_], a sign, a
    dot or a letter. *)
Theorem number_separator_check_is_exact (value : string) :
  numberContainsInvalidUnderscore value
  = if separatorsFlanked isDecimalDigit value then None
    else Some (Errorf "invalid use of _ in number" []).
Proof.
  unfold numberContainsInvalidUnderscore, MatchString.
  rewrite number_regexp_search, invalidFrom_flanked.
  by destruct (separatorsFlanked isDecimalDigit value).
Qed.

Lemma flankedFrom_app (isDigit : ascii -> bool) (pre s : string) :
  forall previous,
    flankedFrom isDigit previous (pre +:+ s) = true ->
    exists previous', flankedFrom isDigit previous' s = true /\
      (pre = EmptyString -> previous' = previous).
Proof.
  induction pre as [|c pre IH]; intros previous H.
  - exists previous. split; [exact H | reflexivity].
  - change (String c pre +:+ s) with (String c (pre +:+ s)) in H.
    cbn [flankedFrom] in H. apply andb_true_iff in H as [_ H].
    destruct (IH _ H) as (previous' & Hs & _). exists previous'. split; [exact Hs|discriminate].
Qed.

Lemma flankedFrom_after (isDigit : ascii -> bool) (pre post : string) (c : ascii) :
  forall previous,
    isDigit c = false ->
    flankedFrom isDigit previous (pre +:+ String c (String "_" post)) = false.
Proof.
  induction pre as [|d pre IH]; intros previous Hc.
  - change (EmptyString +:+ String c (String "_" post)) with (String c (String "_" post)).
    cbn [flankedFrom]. change (isUnderscore "_") with true. cbv iota. rewrite Hc.
    cbn [andb]. apply andb_false_r.
  - change (String d pre +:+ String c (String "_" post))
      with (String d (pre +:+ String c (String "_" post))).
    cbn [flankedFrom]. rewrite IH by assumption. apply andb_false_r.
Qed.

Lemma upper_case_is_no_hex_digit (c : ascii) :
  between "A" "F" c = true -> isHexDigit c = false.
Proof.
  unfold isHexDigit, between.
  change (N_of_ascii "A") with 65%N. change (N_of_ascii "F") with 70%N.
  change (N_of_ascii "0") with 48%N. change (N_of_ascii "9") with 57%N.
  change (N_of_ascii "a") with 97%N. change (N_of_ascii "f") with 102%N.
  intros [H1 H2]%andb_true_iff. apply N.leb_le in H1, H2.
  apply orb_false_iff. split; apply andb_false_iff.
  - right. apply N.leb_gt. lia.
  - left. apply N.leb_gt. lia.
Qed.

(** X2.  [hexNumberContainsInvalidUnderscore] returns its error exactly
    when some [_] of the text has no byte of [0-9a-f] right before it or
    right after it; the alternative for a text that starts with [0x_]
    never decides.  An upper-case hexadecimal digit is no such byte: a
    [_] right after one is refused. *)
Theorem hex_separator_check_is_exact :
  (forall value,
     hexNumberContainsInvalidUnderscore value
     = if separatorsFlanked isHexDigit value then None
       else Some (Errorf "invalid use of _ in hex number" [])) /\
  (forall pre post c,
     between "A" "F" c = true ->
     hexNumberContainsInvalidUnderscore (pre +:+ String c (String "_" post))
     = Some (Errorf "invalid use of _ in hex number" [])).
Proof.
  assert (forall value,
     hexNumberContainsInvalidUnderscore value
     = if separatorsFlanked isHexDigit value then None
       else Some (Errorf "invalid use of _ in hex number" [])) as Hexact.
  { intros value. unfold hexNumberContainsInvalidUnderscore, MatchString.
    rewrite hex_regexp_search, invalidFrom_flanked.
    by destruct (separatorsFlanked isHexDigit value). }
  split; [exact Hexact|]. intros pre post c Hc. rewrite Hexact.
  unfold separatorsFlanked.
  by rewrite flankedFrom_after by by apply upper_case_is_no_hex_digit.
Qed.

(** X2 at the digit [A] of [0xA_B]. *)
Lemma hex_separator_witness :
  between "A" "F" "A"%char = true /\
  hexNumberContainsInvalidUnderscore "0xA_B"
  = Some (Errorf "invalid use of _ in hex number" []).
Proof.
  split; [reflexivity|].
  apply (proj2 hex_separator_check_is_exact "0x" "B" "A"%char). reflexivity.
Defined.

(** ** Running the parser by hand *)

Lemma bind_eq {A B} (m : method A) (f : A -> method B) (p p' : tomlParser) (a : A) :
  m p = Ok (a, p') -> bind m f p = f a p'.
Proof. unfold bind. by intros ->. Qed.

Lemma bind_panicked {A B} (m : method A) (f : A -> method B) (p : tomlParser) (e : panic) :
  m p = Panicked e -> bind m f p = Panicked e.
Proof. unfold bind. by intros ->. Qed.

Lemma peek_at (p : tomlParser) : peek p = Ok (flow p !! flowIdx p, p).
Proof. reflexivity. Qed.

Lemma getToken_at (p : tomlParser) (t : token) :
  flow p !! flowIdx p = Some t -> getToken p = Ok (Some t, next p).
Proof. intros Ht. unfold getToken, bind, peek. by rewrite Ht. Qed.

Lemma getToken_at_end (p : tomlParser) :
  flow p !! flowIdx p = None -> getToken p = Ok (None, p).
Proof. intros Ht. unfold getToken, bind, peek. by rewrite Ht. Qed.

Lemma assume_at (ty : tokenType) (p : tomlParser) (t : token) :
  flow p !! flowIdx p = Some t ->
  assume ty p
  = if bool_decide (typ t = ty) then Ok (tt, next p)
    else Panicked (Raised (tokPosition t) "was expecting token %s, but got %s instead"
                     [ATyp ty; ATok (Some t)]).
Proof.
  intros Ht. unfold assume. rewrite (bind_eq _ _ _ _ _ (getToken_at p t Ht)).
  destruct (decide (typ t = ty)) as [Hty|Hty].
  - rewrite bool_decide_eq_false_2 by auto. by rewrite bool_decide_eq_true_2.
  - rewrite bool_decide_eq_true_2 by auto. by rewrite bool_decide_eq_false_2.
Qed.

Lemma onBuilder_eq (f : world -> result world) (p : tomlParser) :
  onBuilder f p = w ← f (builder p); Ok (tt, withBuilder w p).
Proof. reflexivity. Qed.

Lemma found_eq (t : token) (value : iface) (p : tomlParser) :
  found t value p
  = w ← foundValue value (tokPosition t) (builder p); Ok (value, withBuilder w p).
Proof.
  unfold found, bind, onBuilder, mbind, result_bind, ret.
  by destruct (foundValue _ _ _).
Qed.

Lemma steps_S (lib : GoLibrary) (n : nat) (state : tomlParserStateFn) (p : tomlParser) :
  steps lib (S n) state p
  = match call lib state p with
    | Ok (Some state', p') => steps lib n state' p'
    | Ok (None, p') => Ok (None, p')
    | Panicked e => Panicked e
    | OutOfFuel => OutOfFuel
    end.
Proof. cbn [steps]. unfold bind. by destruct (call lib state p) as [[[?|] ?]| |]. Qed.

(** The loop of [run] ends as the calls [steps] lists end, if the fuel
    covers them. *)
Lemma runFrom_ends (lib : GoLibrary) (n : nat) :
  forall fuel state p,
    n <= fuel ->
    match steps lib n state p with
    | Ok (None, p') => runFrom lib fuel state p = Ok (tt, p')
    | Panicked e => runFrom lib fuel state p = Panicked e
    | _ => True
    end.
Proof.
  induction n as [|n IH]; intros fuel state p Hle; [exact I|].
  destruct fuel as [|fuel]; [lia|]. rewrite steps_S. cbn [runFrom]. unfold bind.
  destruct (call lib state p) as [[[state'|] p']| |]; try done.
  apply IH. lia.
Qed.

Lemma parseToml_ends (lib : GoLibrary) (n : nat) (tokens : list token) :
  n <= enoughFuel tokens ->
  match steps lib n parseStartFn (start tokens) with
  | Ok (None, p') => parseToml lib tokens = Ok (builder p')
  | Panicked e => parseToml lib tokens = Panicked e
  | _ => True
  end.
Proof.
  intros Hle. pose proof (runFrom_ends lib n _ parseStartFn (start tokens) Hle) as H.
  unfold parseToml, run, mbind, result_bind. fold (start tokens). cbn [flow start].
  destruct (steps lib n parseStartFn (start tokens)) as [[[?|] ?]| |]; try done;
    by rewrite H.
Qed.

Lemma parseStart_at (p : tomlParser) (t : token) :
  flow p !! flowIdx p = Some t ->
  parseStart p
  = match typ t with
    | tokenDoubleLeftBracket => Ok (Some parseGroupArrayFn, p)
    | tokenLeftBracket => Ok (Some parseGroupFn, p)
    | tokenKey => Ok (Some parseAssignFn, p)
    | tokenEOF => Ok (None, p)
    | _ => Panicked (Raised (tokPosition t) "unexpected token" [])
    end.
Proof.
  intros Ht. unfold parseStart, bind, peek. rewrite Ht. by destruct (typ t).
Qed.

(** [parseAssign] at a key followed by [=]. *)
Lemma parseAssign_at (lib : GoLibrary) (p : tomlParser) (k e : token) :
  flow p !! flowIdx p = Some k ->
  flow p !! S (flowIdx p) = Some e ->
  typ e = tokenEqual ->
  parseAssign lib p
  = w ← enterAssign (val k) (tokPosition k) (builder p);
    '(_, p') ← parseRvalue lib (S (remaining p - 2)) (withBuilder w (next (next p)));
    Ok (Some parseStartFn, p').
Proof.
  intros Hk He Hty. unfold parseAssign.
  rewrite (bind_eq _ _ _ _ _ (getToken_at p k Hk)).
  unfold bind at 1. rewrite (assume_at _ (next p) e He), bool_decide_eq_true_2 by done.
  unfold bind at 1. rewrite onBuilder_eq. unfold mbind, result_bind.
  destruct (enterAssign _ _ _) as [w| |]; try reflexivity.
  unfold bind, ret, remaining, withBuilder, next. cbn [flow flowIdx builder].
  replace (List.length (flow p) - S (S (flowIdx p)))
    with (List.length (flow p) - flowIdx p - 2) by lia.
  by destruct (parseRvalue _ _ _) as [[? ?]| |].
Qed.

Lemma parseRvalue_at (lib : GoLibrary) (fuel : nat) (p : tomlParser) (t : token) :
  flow p !! flowIdx p = Some t ->
  parseRvalue lib (S fuel) p
  = match typ t with
    | tokenEOF => Panicked (Raised (tokPosition t) "expecting a value" [])
    | tokenString => found t (GoString (val t)) (next p)
    | tokenTrue => found t (GoBool true) (next p)
    | tokenFalse => found t (GoBool false) (next p)
    | tokenInf =>
        match val t with
        | EmptyString => Panicked OutOfRange
        | String c _ => found t (GoFloat64 (FInf (Ascii.eqb c "-"))) (next p)
        end
    | tokenNan => found t (GoFloat64 FNaN) (next p)
    | tokenInteger =>
        match parseInteger t with
        | Ok n => found t (GoInt64 n) (next p)
        | Panicked e => Panicked e
        | OutOfFuel => OutOfFuel
        end
    | tokenFloat =>
        if separatorsFlanked isDecimalDigit (val t) then
          match ParseFloat lib (cleanupNumberToken (val t)) with
          | inr err => Panicked (Raised (tokPosition t) "%s" [AErr err])
          | inl f => found t (GoFloat64 f) (next p)
          end
        else Panicked (Raised (tokPosition t) "%s"
                         [AErr (Errorf "invalid use of _ in number" [])])
    | tokenDate =>
        match ParseInLocation lib (val t) with
        | inr err => Panicked (Raised (tokPosition t) "%s" [AErr err])
        | inl d => found t (GoTime d) (next p)
        end
    | tokenLeftBracket =>
        '(_, p') ← parseArray (parseRvalue lib fuel) fuel (next p); Ok (Nil, p')
    | tokenLeftCurlyBrace => parseInlineTable (parseRvalue lib fuel) fuel (next p)
    | tokenEqual =>
        Panicked (Raised (tokPosition t) "cannot have multiple equals for the same key" [])
    | tokenError => Panicked (Raised (tokPosition t) "%s" [ATok (Some t)])
    | _ => Panicked (Raised (tokPosition t) "never reached" [])
    end.
Proof.
  intros Ht. cbn [parseRvalue]. rewrite (bind_eq _ _ _ _ _ (getToken_at p t Ht)).
  pose proof (numberContainsInvalidUnderscore_flanked (val t)) as Hflank.
  destruct (typ t);
    first [ reflexivity
          | by destruct (parseInteger t)
          | by destruct (ParseInLocation lib (val t))
          | by destruct (val t) as [|c ?]; [|destruct (Ascii.eqb c "-")]
          | idtac ].
  destruct (separatorsFlanked isDecimalDigit (val t)).
  - rewrite (proj2 Hflank eq_refl). by destruct (ParseFloat _ _).
  - unfold numberContainsInvalidUnderscore in *.
    destruct (MatchString _ _); [reflexivity|]. destruct Hflank as [H _]. by specialize (H eq_refl).
Qed.

(** A call of the builder on a known state is run. *)
Ltac builderCall :=
  match goal with
  | |- context [enterAssign ?k ?pos ?w] =>
      let r := eval vm_compute in (enterAssign k pos w) in
      replace (enterAssign k pos w) with r by (vm_compute; reflexivity)
  | |- context [foundValue ?v ?pos ?w] =>
      let r := eval vm_compute in (foundValue v pos w) in
      replace (foundValue v pos w) with r by (vm_compute; reflexivity)
  end.

(** The parse of a document whose first [n] calls of the loop end it. *)
Ltac parse n :=
  unfold parsedRoot;
  match goal with
  | |- context [parseToml ?lib ?tokens] =>
      let H := fresh "Hends" in
      pose proof (parseToml_ends lib n tokens ltac:(unfold enoughFuel; cbn; lia)) as H;
      revert H
  end.

Ltac atStart t :=
  rewrite steps_S; cbn [call]; rewrite (parseStart_at _ t) by reflexivity; cbn [typ].

Ltac atAssign k e :=
  rewrite steps_S; cbn [call]; rewrite (parseAssign_at _ _ k e) by reflexivity;
  cbn [val tokPosition builder start]; builderCall; unfold mbind at 1, result_bind at 1.

Ltac atValue v :=
  rewrite (parseRvalue_at _ _ _ v) by reflexivity; cbn [typ val tokPosition tok].

Ltac isFound :=
  rewrite found_eq; cbn [builder withBuilder next tokPosition]; builderCall;
  unfold mbind, result_bind.

(** The document [key = value], to the value. *)
Ltac toValue kpos key v :=
  unfold doc_assign, eofThen;
  atStart (mkToken kpos tokenKey key);
  atAssign (mkToken kpos tokenKey key) (tok 1 5 tokenEqual "=");
  atValue v.

Ltac stored zpos :=
  isFound; atStart (mkToken zpos tokenEOF EmptyString);
  intros ->; vm_compute; reflexivity.

(** X3.  A float literal: the separators of the token are checked first,
    against the pattern of the decimal numbers; the literal without its
    separators is then handed to [strconv.ParseFloat], whose error is
    raised at the position of the token and whose value is stored at the
    assignment, with the position of the key.  What follows the
    end-of-file token does not matter. *)
Theorem float_literal_is_checked_then_cleaned (lib : GoLibrary) (kpos vpos zpos : Position)
  (key text : string) (rest : list token) :
  parsedRoot lib (doc_assign kpos key (mkToken vpos tokenFloat text) (eofThen zpos rest))
  = if separatorsFlanked isDecimalDigit text then
      match ParseFloat lib (cleanupNumberToken text) with
      | inl f => Ok {[ EmptyString := TomlValuePtr (GoFloat64 f) kpos ]}
      | inr err => Panicked (Raised vpos "%s" [AErr err])
      end
    else Panicked (Raised vpos "%s" [AErr (Errorf "invalid use of _ in number" [])]).
Proof.
  parse 3. toValue kpos key (mkToken vpos tokenFloat text).
  destruct (separatorsFlanked isDecimalDigit text); [|by intros ->].
  destruct (ParseFloat lib (cleanupNumberToken text)) as [f|err]; [|by intros ->].
  stored zpos.
Qed.

(** X4.  A date is handed to [time.ParseInLocation] as the token has it;
    the error of the library is raised at the position of the token, and
    its value is stored at the assignment, with the position of the
    key. *)
Theorem date_literal_is_read_as_it_is (lib : GoLibrary) (kpos vpos zpos : Position)
  (key text : string) (rest : list token) :
  parsedRoot lib (doc_assign kpos key (mkToken vpos tokenDate text) (eofThen zpos rest))
  = match ParseInLocation lib text with
    | inl d => Ok {[ EmptyString := TomlValuePtr (GoTime d) kpos ]}
    | inr err => Panicked (Raised vpos "%s" [AErr err])
    end.
Proof.
  parse 3. toValue kpos key (mkToken vpos tokenDate text).
  destruct (ParseInLocation lib text) as [d|err]; [|by intros ->].
  stored zpos.
Qed.

(** X5.  An infinity takes its sign from the first byte of the token
    alone: a [-] gives the negative infinity and any other byte the
    positive one.  A token without text makes the parser index its text
    out of range. *)
Theorem infinity_takes_its_sign_from_the_first_byte (lib : GoLibrary)
  (kpos vpos zpos : Position) (key : string) (rest : list token) :
  (forall c text,
     parsedRoot lib (doc_assign kpos key (mkToken vpos tokenInf (String c text))
                       (eofThen zpos rest))
     = Ok {[ EmptyString := TomlValuePtr (GoFloat64 (FInf (Ascii.eqb c "-"))) kpos ]}) /\
  parsedRoot lib (doc_assign kpos key (mkToken vpos tokenInf EmptyString) (eofThen zpos rest))
  = Panicked OutOfRange.
Proof.
  split.
  - intros c text. parse 3. toValue kpos key (mkToken vpos tokenInf (String c text)).
    stored zpos.
  - parse 2. toValue kpos key (mkToken vpos tokenInf EmptyString). by intros ->.
Qed.

(** X6.  A string, a boolean and a not-a-number are stored at the
    assignment wrapped with the position of the key of the assignment,
    not with the position of their own token; the text of a boolean
    token and of a not-a-number token is not looked at. *)
Theorem scalar_is_stored_with_the_position_of_its_key (lib : GoLibrary)
  (kpos vpos zpos : Position) (key text : string) (rest : list token) :
  let document ty := doc_assign kpos key (mkToken vpos ty text) (eofThen zpos rest) in
  parsedRoot lib (document tokenString)
  = Ok {[ EmptyString := TomlValuePtr (GoString text) kpos ]} /\
  parsedRoot lib (document tokenTrue)
  = Ok {[ EmptyString := TomlValuePtr (GoBool true) kpos ]} /\
  parsedRoot lib (document tokenFalse)
  = Ok {[ EmptyString := TomlValuePtr (GoBool false) kpos ]} /\
  parsedRoot lib (document tokenNan)
  = Ok {[ EmptyString := TomlValuePtr (GoFloat64 FNaN) kpos ]}.
Proof.
  cbv zeta. split; [|split; [|split]].
  - parse 3. toValue kpos key (mkToken vpos tokenString text). stored zpos.
  - parse 3. toValue kpos key (mkToken vpos tokenTrue text). stored zpos.
  - parse 3. toValue kpos key (mkToken vpos tokenFalse text). stored zpos.
  - parse 3. toValue kpos key (mkToken vpos tokenNan text). stored zpos.
Qed.

(** X7.  Where a value should start: an end-of-file token is reported
    with [expecting a value], a second [=] as multiple equals, an error
    token with the token itself, and a key, the key of a header, a comma,
    a closing bracket, a double bracket or a closing brace with the words
    [never reached]; all at the position of the token, whatever
    follows. *)
Theorem token_that_is_no_value (lib : GoLibrary) (kpos vpos : Position)
  (key text : string) (rest : list token) :
  let document ty := doc_assign kpos key (mkToken vpos ty text) rest in
  parseToml lib (document tokenEOF) = Panicked (Raised vpos "expecting a value" []) /\
  parseToml lib (document tokenEqual)
  = Panicked (Raised vpos "cannot have multiple equals for the same key" []) /\
  parseToml lib (document tokenError)
  = Panicked (Raised vpos "%s" [ATok (Some (mkToken vpos tokenError text))]) /\
  Forall (fun ty => parseToml lib (document ty) = Panicked (Raised vpos "never reached" []))
    [tokenKey; tokenKeyGroup; tokenKeyGroupArray; tokenComma; tokenRightBracket;
     tokenDoubleLeftBracket; tokenDoubleRightBracket; tokenRightCurlyBrace].
Proof.
  cbv zeta. split; [|split; [|split]];
    repeat first [apply List.Forall_nil | apply List.Forall_cons]; cbv beta;
    match goal with
    | |- parseToml _ (doc_assign _ _ ?v _) = _ =>
        parse 2; toValue kpos key v; by intros ->
    end.
Qed.

(** ** Statements *)

(** [parseGroup] at [[] followed by a token. *)
Lemma parseGroup_eq (p : tomlParser) (s k : token) :
  flow p !! flowIdx p = Some s ->
  flow p !! S (flowIdx p) = Some k ->
  parseGroup p
  = if bool_decide (typ k = tokenKeyGroup) then
      match parseKey (val k) with
      | inr err => Panicked (Raised (tokPosition k) "invalid table array key: %s" [AErr err])
      | inl keys =>
          w ← enterGroup (val k) keys (tokPosition s) (builder p);
          '(_, p') ← assume tokenRightBracket (withBuilder w (next (next p)));
          Ok (Some parseStartFn, p')
      end
    else Panicked (Raised (tokPosition k) "unexpected token %s, was expecting a table key"
                     [ATok (Some k)]).
Proof.
  intros Hs Hk. unfold parseGroup.
  rewrite (bind_eq _ _ _ _ _ (getToken_at p s Hs)).
  rewrite (bind_eq _ _ _ _ _ (getToken_at (next p) k Hk)).
  destruct (decide (typ k = tokenKeyGroup)) as [Hty|Hty].
  - rewrite bool_decide_eq_false_2 by auto. rewrite bool_decide_eq_true_2 by done.
    destruct (parseKey (val k)) as [keys|err]; [|reflexivity].
    unfold bind at 1. rewrite onBuilder_eq. unfold mbind, result_bind.
    destruct (enterGroup _ _ _ _) as [w| |]; reflexivity.
  - rewrite bool_decide_eq_true_2 by auto. by rewrite bool_decide_eq_false_2.
Qed.

(** [parseGroupArray] at [[[] followed by a token. *)
Lemma parseGroupArray_eq (p : tomlParser) (s k : token) :
  flow p !! flowIdx p = Some s ->
  flow p !! S (flowIdx p) = Some k ->
  parseGroupArray p
  = if bool_decide (typ k = tokenKeyGroupArray) then
      match parseKey (val k) with
      | inr err => Panicked (Raised (tokPosition k) "invalid table array key: %s" [AErr err])
      | inl keys =>
          w ← enterGroupArray (val k) keys (tokPosition s) (builder p);
          '(_, p') ← assume tokenDoubleRightBracket (withBuilder w (next (next p)));
          Ok (Some parseStartFn, p')
      end
    else Panicked (Raised (tokPosition k)
                     "unexpected token %s, was expecting a table array key" [ATok (Some k)]).
Proof.
  intros Hs Hk. unfold parseGroupArray.
  rewrite (bind_eq _ _ _ _ _ (getToken_at p s Hs)).
  rewrite (bind_eq _ _ _ _ _ (getToken_at (next p) k Hk)).
  destruct (decide (typ k = tokenKeyGroupArray)) as [Hty|Hty].
  - rewrite bool_decide_eq_false_2 by auto. rewrite bool_decide_eq_true_2 by done.
    destruct (parseKey (val k)) as [keys|err]; [|reflexivity].
    unfold bind at 1. rewrite onBuilder_eq. unfold mbind, result_bind.
    destruct (enterGroupArray _ _ _ _) as [w| |]; reflexivity.
  - rewrite bool_decide_eq_true_2 by auto. by rewrite bool_decide_eq_false_2.
Qed.

(** X8.  A statement starts with [[[], [[] or a key; an end-of-file token
    ends the parse, whatever follows it, and so does the end of the flow;
    any other token is reported at its position.  The empty flow and a
    flow that starts with the end-of-file token give the empty tree. *)
Theorem statement_starts_with_a_header_or_a_key (lib : GoLibrary) :
  parsedRoot lib [] = Ok ∅ /\
  (forall zpos text rest, parsedRoot lib (mkToken zpos tokenEOF text :: rest) = Ok ∅) /\
  (forall t rest,
     typ t <> tokenDoubleLeftBracket -> typ t <> tokenLeftBracket ->
     typ t <> tokenKey -> typ t <> tokenEOF ->
     parseToml lib (t :: rest) = Panicked (Raised (tokPosition t) "unexpected token" [])).
Proof.
  split; [evaluate|]. split.
  - intros zpos text rest. parse 1.
    atStart (mkToken zpos tokenEOF text). intros ->. evaluate.
  - intros t rest H1 H2 H3 H4. parse 1.
    rewrite steps_S; cbn [call]; rewrite (parseStart_at _ t) by reflexivity.
    destruct (typ t); try congruence; by intros ->.
Qed.

(** X8 at a document that starts with a comma. *)
Lemma statement_start_witness :
  parseToml noLibrary [tok 1 1 tokenComma ","]
  = Panicked (Raised (mkPosition 1 1) "unexpected token" []).
Proof.
  apply (proj2 (proj2 (statement_starts_with_a_header_or_a_key noLibrary))
           (tok 1 1 tokenComma ",") []); discriminate.
Defined.

(** X9.  The token after the key of an assignment must be [=]: any other
    token is reported at its own position, with the kind that was
    expected and the token that was found. *)
Theorem key_must_be_followed_by_equal (lib : GoLibrary) (kpos : Position) (key : string)
  (t : token) (rest : list token) :
  typ t <> tokenEqual ->
  parseToml lib (mkToken kpos tokenKey key :: t :: rest)
  = Panicked (Raised (tokPosition t) "was expecting token %s, but got %s instead"
                [ATyp tokenEqual; ATok (Some t)]).
Proof.
  intros Hty. parse 2. atStart (mkToken kpos tokenKey key).
  rewrite steps_S; cbn [call]. unfold parseAssign.
  erewrite bind_eq by (by apply getToken_at).
  erewrite bind_panicked; [by intros ->|].
  rewrite (assume_at _ _ t) by reflexivity. by rewrite bool_decide_eq_false_2.
Qed.

(** X9 at a key followed by a string. *)
Lemma key_must_be_followed_by_equal_witness :
  parseToml noLibrary [tok 1 1 tokenKey "a"; tok 1 3 tokenString "b"]
  = Panicked (Raised (mkPosition 1 3) "was expecting token %s, but got %s instead"
                [ATyp tokenEqual; ATok (Some (tok 1 3 tokenString "b"))]).
Proof.
  apply (key_must_be_followed_by_equal noLibrary (mkPosition 1 1) "a"
           (tok 1 3 tokenString "b") []). discriminate.
Defined.

(** X10.  What follows the opening bracket of a header must be a key of the
    header's kind, and the key must split into segments: a token of
    another kind and a key that does not split are both reported at the
    position of that token, the second with the words [invalid table
    array key] for both kinds of header. *)
Theorem header_needs_its_key (lib : GoLibrary) (spos : Position) (stext : string)
  (rest : list token) :
  (forall t, typ t <> tokenKeyGroup ->
     parseToml lib (mkToken spos tokenLeftBracket stext :: t :: rest)
     = Panicked (Raised (tokPosition t) "unexpected token %s, was expecting a table key"
                   [ATok (Some t)])) /\
  (forall t, typ t <> tokenKeyGroupArray ->
     parseToml lib (mkToken spos tokenDoubleLeftBracket stext :: t :: rest)
     = Panicked (Raised (tokPosition t)
                   "unexpected token %s, was expecting a table array key" [ATok (Some t)])) /\
  (forall kpos key err, parseKey key = inr err ->
     parseToml lib (mkToken spos tokenLeftBracket stext
                    :: mkToken kpos tokenKeyGroup key :: rest)
     = Panicked (Raised kpos "invalid table array key: %s" [AErr err]) /\
     parseToml lib (mkToken spos tokenDoubleLeftBracket stext
                    :: mkToken kpos tokenKeyGroupArray key :: rest)
     = Panicked (Raised kpos "invalid table array key: %s" [AErr err])).
Proof.
  split; [|split].
  - intros t Hty. parse 2. atStart (mkToken spos tokenLeftBracket stext).
    rewrite steps_S; cbn [call].
    rewrite (parseGroup_eq _ (mkToken spos tokenLeftBracket stext) t) by reflexivity.
    rewrite bool_decide_eq_false_2 by done. by intros ->.
  - intros t Hty. parse 2. atStart (mkToken spos tokenDoubleLeftBracket stext).
    rewrite steps_S; cbn [call].
    rewrite (parseGroupArray_eq _ (mkToken spos tokenDoubleLeftBracket stext) t)
      by reflexivity.
    rewrite bool_decide_eq_false_2 by done. by intros ->.
  - intros kpos key err Hkey. split.
    + parse 2. atStart (mkToken spos tokenLeftBracket stext).
      rewrite steps_S; cbn [call].
      rewrite (parseGroup_eq _ (mkToken spos tokenLeftBracket stext)
                 (mkToken kpos tokenKeyGroup key)) by reflexivity.
      cbn [typ val tokPosition]. rewrite bool_decide_eq_true_2, Hkey by done.
      by intros ->.
    + parse 2. atStart (mkToken spos tokenDoubleLeftBracket stext).
      rewrite steps_S; cbn [call].
      rewrite (parseGroupArray_eq _ (mkToken spos tokenDoubleLeftBracket stext)
                 (mkToken kpos tokenKeyGroupArray key)) by reflexivity.
      cbn [typ val tokPosition]. rewrite bool_decide_eq_true_2, Hkey by done.
      by intros ->.
Qed.

(** X10 at the header of the key [a..b]. *)
Lemma header_needs_its_key_witness :
  parseToml noLibrary [tok 1 1 tokenLeftBracket "["; tok 1 2 tokenKeyGroup "a..b"]
  = Panicked (Raised (mkPosition 1 2) "invalid table array key: %s"
                [AErr (Errorf "empty table key" [])]).
Proof.
  apply (proj2 (proj2 (header_needs_its_key noLibrary (mkPosition 1 1) "[" []))
           (mkPosition 1 2) "a..b" (Errorf "empty table key" [])).
  reflexivity.
Defined.

(** X11.  At the end of the flow, only [parseStart] returns: [assume], the
    three other states and the parsers of values read the position of a
    token that is not there, which is a nil dereference; [assume] does
    not get to report that the token stream is empty. *)
Theorem end_of_flow_is_handled_by_parseStart_only (lib : GoLibrary) (p : tomlParser) :
  flow p !! flowIdx p = None ->
  parseStart p = Ok (None, p) /\
  (forall ty, assume ty p = Panicked NilDereference) /\
  parseGroup p = Panicked NilDereference /\
  parseGroupArray p = Panicked NilDereference /\
  parseAssign lib p = Panicked NilDereference /\
  (forall fuel, parseRvalue lib (S fuel) p = Panicked NilDereference) /\
  (forall value fuel, parseArray value (S fuel) p = Panicked NilDereference) /\
  (forall value fuel, parseInlineTable value (S fuel) p = Panicked NilDereference).
Proof.
  intros Hend.
  assert (getToken p = Ok (None, p)) as Hget by by apply getToken_at_end.
  repeat match goal with |- _ /\ _ => split end.
  - unfold parseStart, bind, peek. by rewrite Hend.
  - intros ty. unfold assume. by rewrite (bind_eq _ _ _ _ _ Hget).
  - unfold parseGroup. by rewrite !(bind_eq _ _ _ _ _ Hget).
  - unfold parseGroupArray. by rewrite !(bind_eq _ _ _ _ _ Hget).
  - unfold parseAssign. rewrite (bind_eq _ _ _ _ _ Hget).
    apply bind_panicked. unfold assume. by rewrite (bind_eq _ _ _ _ _ Hget).
  - intros fuel. cbn [parseRvalue]. by rewrite (bind_eq _ _ _ _ _ Hget).
  - intros value fuel. unfold parseArray.
    erewrite bind_eq by reflexivity. apply bind_panicked.
    cbn [parseArrayLoop]. unfold bind, peek. cbn [flow flowIdx]. by rewrite Hend.
  - intros value fuel. unfold parseInlineTable.
    unfold bind at 1. unfold onBuilder, enterInlineTable. cbn [mbind result_bind].
    destruct (newTree _) as [t h]. cbn [mbind result_bind].
    unfold bind at 1. apply bind_panicked.
    cbn [parseInlineTableLoop]. unfold bind, peek. cbn [flow flowIdx]. by rewrite Hend.
Qed.

(** X11 at a flow that is one key. *)
Lemma end_of_flow_witness :
  parseAssign noLibrary (mkTomlParser 1 [tok 1 1 tokenKey "a"] makeTreeBuilder)
  = Panicked NilDereference.
Proof.
  apply (end_of_flow_is_handled_by_parseStart_only noLibrary
           (mkTomlParser 1 [tok 1 1 tokenKey "a"] makeTreeBuilder)).
  reflexivity.
Defined.

(** ** Names of tables and of table arrays *)

Lemma not_declared (key : string) (seen : list string) :
  existsb (fun item => String.eqb item key) seen = false <-> ~ In key seen.
Proof.
  split.
  - intros Hex Hin. apply not_true_iff_false in Hex. apply Hex.
    apply existsb_exists. exists key. split; [assumption | apply String.eqb_refl].
  - intros Hin. apply not_true_iff_false. intros Hex.
    apply existsb_exists in Hex as (item & Hitem & Heq).
    apply String.eqb_eq in Heq. by subst.
Qed.

(** X12.  [enterGroup] raises [duplicated tables] exactly for a key that is
    in the list of declared tables, compared as a whole string; a header
    it accepts appends its key to that list and becomes the current
    table. *)
Theorem enterGroup_refuses_exactly_the_declared_tables (key : string) (keys : list string)
  (position : Position) (w : world) :
  (enterGroup key keys position w = Panicked (Raised position "duplicated tables" [])
   <-> In key (seenTableKeys (b w))) /\
  (forall w', enterGroup key keys position w = Ok w' ->
     ~ In key (seenTableKeys (b w)) /\
     seenTableKeys (b w') = (seenTableKeys (b w) ++ [key])%list /\
     currentTable (b w') = keys /\
     tree (b w') = tree (b w)).
Proof.
  unfold enterGroup.
  destruct (existsb _ (seenTableKeys (b w))) eqn:Hex.
  - assert (In key (seenTableKeys (b w))) as Hin.
    { apply existsb_exists in Hex as (item & Hitem & Heq).
      apply String.eqb_eq in Heq. by subst. }
    split; [done | discriminate].
  - apply not_declared in Hex. cbn [b setSeenTableKeys heap tree seenTableKeys].
    destruct (createSubTree _ _ _ _) as [[h [err|]]|].
    + split; [|discriminate]. split; [discriminate | done].
    + split; [split; [discriminate | done]|]. by intros w' [= <-].
    + split; [|discriminate]. split; [discriminate | done].
Qed.

(** X12 at the table [a], declared before. *)
Lemma enterGroup_refuses_witness :
  enterGroup "a" ["a"] (mkPosition 2 1)
    (setSeenTableKeys ["a"] makeTreeBuilder)
  = Panicked (Raised (mkPosition 2 1) "duplicated tables" []).
Proof.
  apply (proj1 (enterGroup_refuses_exactly_the_declared_tables "a" ["a"] (mkPosition 2 1)
                  (setSeenTableKeys ["a"] makeTreeBuilder))).
  simpl. by left.
Defined.

(** The loop of [enterGroupArray] keeps the keys that are not under the
    prefix, in their order; what it finds is decided by the last of them
    alone. *)
Lemma removeChildren_eq (prefix key : string) (seen : list string) :
  forall found,
    removeChildren prefix key seen found
    = (List.filter (fun k => negb (HasPrefix k prefix)) seen,
       match last (List.filter (fun k => negb (HasPrefix k prefix)) seen) with
       | Some k => String.eqb k key
       | None => found
       end).
Proof.
  induction seen as [|tableKey rest IH]; intros found; [reflexivity|].
  cbn [removeChildren List.filter]. destruct (HasPrefix tableKey prefix); cbn [negb].
  - apply IH.
  - rewrite IH. cbv beta iota. f_equal.
    generalize (List.filter (fun k => negb (HasPrefix k prefix)) rest) as kept.
    intros [|k kept]; [reflexivity|]. rewrite last_cons_cons.
    destruct (last (k :: kept)) eqn:Hlast; [reflexivity|].
    by apply last_None in Hlast.
Qed.

(** A string is no proper extension of itself. *)
Lemma prefix_length (s1 s2 : string) :
  String.prefix s1 s2 = true -> String.length s1 <= String.length s2.
Proof.
  revert s2. induction s1 as [|c s1 IH]; intros [|d s2]; simpl; try lia; try discriminate.
  destruct (ascii_dec c d); [|discriminate]. intros H. apply IH in H. lia.
Qed.

Lemma length_append (s1 s2 : string) :
  String.length (s1 +:+ s2) = String.length s1 + String.length s2.
Proof. induction s1 as [|c s1 IH]; simpl; [reflexivity | by rewrite IH]. Qed.

Lemma not_its_own_child (key : string) : HasPrefix key (key +:+ ".") = false.
Proof.
  unfold HasPrefix. destruct (String.prefix _ _) eqn:H; [|reflexivity].
  apply prefix_length in H. rewrite length_append in H. simpl in H. lia.
Qed.

(** What [enterGroupArray] leaves in the builder besides the trees. *)
Lemma enterGroupArray_builder (key : string) (keys : list string) (position : Position)
  (w w' : world) :
  enterGroupArray key keys position w = Ok w' ->
  let kept := List.filter (fun k => negb (HasPrefix k (key +:+ "."))) (seenTableKeys (b w)) in
  seenTableKeys (b w')
  = (if match last kept with Some k => String.eqb k key | None => false end
     then kept else kept ++ [key])%list /\
  currentTable (b w') = keys /\
  tree (b w') = tree (b w) /\
  assignKeyVal (b w') = assignKeyVal (b w) /\
  inArray (b w') = inArray (b w).
Proof.
  intros H. cbv zeta.
  destruct keys as [|k keys]; [discriminate|].
  unfold enterGroupArray, mbind, result_bind in H. cbv beta iota in H.
  destruct (createSubTree _ _ _ _) as [[h err]|]; try discriminate.
  destruct (match GetPath h (tree (b w)) (k :: keys) with
            | Nil => _ | TreeSlice target => _ | _ => _ end) as [arr| |];
    try discriminate.
  destruct (newTree _) as [t h1].
  destruct (SetPath _ _ _ _) as [h'|]; [|discriminate].
  cbn [b setHeap setCurrentTable seenTableKeys] in H.
  rewrite removeChildren_eq in H. injection H as <-.
  cbn [b setSeenTableKeys seenTableKeys currentTable tree assignKeyVal inArray].
  done.
Qed.

(** X13.  An accepted header [[[key]]] forgets every declared table whose
    name starts with [key.], keeps the other names in their order, and
    leaves [key] itself declared: it appends it, unless the last name it
    kept is [key].  The array becomes the current table. *)
Theorem enterGroupArray_forgets_the_tables_under_its_key (key : string) (keys : list string)
  (position : Position) (w w' : world) :
  enterGroupArray key keys position w = Ok w' ->
  let kept := List.filter (fun k => negb (HasPrefix k (key +:+ "."))) (seenTableKeys (b w)) in
  seenTableKeys (b w')
  = (if match last kept with Some k => String.eqb k key | None => false end
     then kept else kept ++ [key])%list /\
  In key (seenTableKeys (b w')) /\
  (forall child, HasPrefix child (key +:+ ".") = true -> ~ In child (seenTableKeys (b w'))) /\
  currentTable (b w') = keys.
Proof.
  intros H. apply enterGroupArray_builder in H as (Hseen & Hcurrent & _). cbv zeta in *.
  set (kept := List.filter _ _) in *.
  split; [exact Hseen|]. split; [|split; [|exact Hcurrent]].
  - rewrite Hseen. destruct (last kept) as [k|] eqn:Hlast.
    + destruct (String.eqb k key) eqn:Hk.
      * apply String.eqb_eq in Hk as ->. apply last_Some in Hlast as [l' ->].
        apply in_or_app. right. by left.
      * apply in_or_app. right. by left.
    + apply in_or_app. right. by left.
  - intros child Hchild Hin.
    assert (In child (kept ++ [key])%list) as Hin'.
    { rewrite Hseen in Hin. destruct (match last kept with Some _ => _ | None => _ end);
        [apply in_or_app; by left | assumption]. }
    apply in_app_or in Hin' as [Hin'|[<-|[]]].
    + apply filter_In in Hin' as [_ Hkept]. by rewrite Hchild in Hkept.
    + by rewrite not_its_own_child in Hchild.
Qed.

(** X13 at the array [a], with the tables [a.b] and [c] declared. *)
Lemma enterGroupArray_forgets_witness :
  exists w',
    enterGroupArray "a" ["a"] (mkPosition 3 1)
      (setSeenTableKeys ["a.b"; "c"] makeTreeBuilder) = Ok w' /\
    seenTableKeys (b w') = ["c"; "a"].
Proof.
  eexists. split; [vm_compute; reflexivity|].
  apply (enterGroupArray_forgets_the_tables_under_its_key "a" ["a"] (mkPosition 3 1)
           (setSeenTableKeys ["a.b"; "c"] makeTreeBuilder)).
  vm_compute. reflexivity.
Defined.

(** A header [[[k]]] at the top level, where [k] holds a table or a
    scalar. *)
Lemma enterGroupArray_refuses (key k : string) (position : Position) (w : world)
  (v : iface) :
  rootValues w !! k = Some v ->
  match v with
  | TreePtr _ => True
  | TomlValuePtr x _ =>
      match x with Nil | TreeSlice _ => False | _ => True end
  | _ => False
  end ->
  enterGroupArray key [k] position w
  = Panicked (Raised position "key %s is already assigned and not of type table array"
                [AStr key]).
Proof.
  intros Hk Hv. unfold enterGroupArray, createSubTree.
  cbn [removelast createSubTree_from]. cbv beta iota delta [mbind result_bind].
  unfold rootValues in Hk. cbn [GetPath]. rewrite Hk.
  destruct v as [| | | | | | | | |x q]; try done.
  by destruct x.
Qed.

(** A header [[k]] at the top level, where [k] is free: a new table,
    positioned at the header, is stored at [k]. *)
Lemma enterGroup_creates (key k : string) (position : Position) (w : world) :
  is_Some (heap w !! tree (b w)) ->
  rootValues w !! k = None ->
  ~ In key (seenTableKeys (b w)) ->
  exists w',
    enterGroup key [k] position w = Ok w' /\
    tree (b w') = tree (b w) /\
    rootValues w' !! k = Some (TreePtr (List.length (heap w))) /\
    heap w' !! List.length (heap w) = Some (mkTree ∅ position) /\
    (forall k', k' <> k -> rootValues w' !! k' = rootValues w !! k').
Proof.
  intros Hroot Hk Hnew. apply not_declared in Hnew.
  assert (tree (b w) < List.length (heap w)) as Hlt by by apply lookup_lt_is_Some.
  unfold enterGroup. rewrite Hnew. unfold createSubTree.
  cbn [b setSeenTableKeys heap tree createSubTree_from].
  unfold rootValues in Hk. rewrite Hk. cbv beta iota delta [newTree].
  rewrite setPosition_new. cbn [values createSubTree_from].
  eexists. split; [reflexivity|]. cbn [b heap setHeap setCurrentTable tree].
  assert (is_Some ((heap w ++ [mkTree ∅ position])%list !! tree (b w))) as Hroot'.
  { apply lookup_lt_is_Some. rewrite length_app. simpl. lia. }
  split; [reflexivity|]. split; [unfold rootValues; by apply valuesOf_store|].
  split.
  - rewrite store_other by lia. by apply list_lookup_middle.
  - intros k' Hne. unfold rootValues.
    cbn [b heap tree setHeap setCurrentTable setSeenTableKeys].
    rewrite valuesOf_store_other_key by done.
    unfold valuesOf. by rewrite lookup_app_l.
Qed.

(** X14.  A name that holds a table or a scalar is refused as the name of a
    table array: [enterGroupArray] raises, at the position it was given,
    with the key of the header. *)
Theorem enterGroupArray_refuses_a_key_that_holds_something_else (key k : string)
  (position : Position) (w : world) :
  (forall t, rootValues w !! k = Some (TreePtr t) ->
     enterGroupArray key [k] position w
     = Panicked (Raised position "key %s is already assigned and not of type table array"
                   [AStr key])) /\
  (forall x q, rootValues w !! k = Some (TomlValuePtr x q) ->
     is_nil x = false -> TypeOf x <> Some TTreeSlice ->
     enterGroupArray key [k] position w
     = Panicked (Raised position "key %s is already assigned and not of type table array"
                   [AStr key])).
Proof.
  split.
  - intros t Hk. by eapply enterGroupArray_refuses.
  - intros x q Hk Hnil Hty. eapply enterGroupArray_refuses; [eassumption|].
    by destruct x.
Qed.

(** X14 at the key [a], which holds an integer. *)
Lemma enterGroupArray_refuses_witness :
  enterGroupArray "a" ["a"] (mkPosition 2 1)
    (setHeap (store (heap makeTreeBuilder) 0 "a" (TomlValuePtr (GoInt64 1) (mkPosition 1 1)))
       makeTreeBuilder)
  = Panicked (Raised (mkPosition 2 1)
                "key %s is already assigned and not of type table array" [AStr "a"]).
Proof.
  apply (proj2 (enterGroupArray_refuses_a_key_that_holds_something_else "a" "a"
                  (mkPosition 2 1) _) (GoInt64 1) (mkPosition 1 1));
    [vm_compute; reflexivity | reflexivity | discriminate].
Defined.

(** X15.  A table and a table array cannot share a name.  After an accepted
    header [[[key]]], every header [[key]] is refused as a duplicated
    table; after an accepted header [[k]] of a new top-level table, the
    header [[[k]]] is refused because the key is assigned and holds no
    table array. *)
Theorem table_and_table_array_cannot_share_a_name (key : string) (position1 position2 : Position)
  (w : world) :
  (forall keys keys' w1,
     enterGroupArray key keys position1 w = Ok w1 ->
     enterGroup key keys' position2 w1
     = Panicked (Raised position2 "duplicated tables" [])) /\
  (forall k key',
     is_Some (heap w !! tree (b w)) ->
     rootValues w !! k = None ->
     ~ In key (seenTableKeys (b w)) ->
     exists w1,
       enterGroup key [k] position1 w = Ok w1 /\
       enterGroupArray key' [k] position2 w1
       = Panicked (Raised position2
                     "key %s is already assigned and not of type table array" [AStr key'])).
Proof.
  split.
  - intros keys keys' w1 H. apply enterGroup_duplicated.
    apply enterGroupArray_builder in H as (Hseen & _). cbv zeta in Hseen. rewrite Hseen.
    set (kept := List.filter _ _).
    destruct (last kept) as [k|] eqn:Hlast; [destruct (String.eqb k key) eqn:Hk|].
    + apply String.eqb_eq in Hk as ->. apply last_Some in Hlast as [l' ->].
      apply in_or_app. right. by left.
    + apply in_or_app. right. by left.
    + apply in_or_app. right. by left.
  - intros k key' Hroot Hk Hnew.
    destruct (enterGroup_creates key k position1 w Hroot Hk Hnew)
      as (w1 & H1 & _ & Hk1 & _).
    exists w1. split; [assumption|]. by eapply enterGroupArray_refuses.
Qed.

(** X15 at the table [a] of an empty document. *)
Lemma table_and_table_array_witness :
  exists w1,
    enterGroup "a" ["a"] (mkPosition 1 1) makeTreeBuilder = Ok w1 /\
    enterGroupArray "a" ["a"] (mkPosition 2 1) w1
    = Panicked (Raised (mkPosition 2 1)
                  "key %s is already assigned and not of type table array" [AStr "a"]).
Proof.
  apply (proj2 (table_and_table_array_cannot_share_a_name "a" (mkPosition 1 1)
                  (mkPosition 2 1) makeTreeBuilder) "a" "a").
  - vm_compute. eauto.
  - vm_compute. reflexivity.
  - simpl. tauto.
Defined.

Lemma valuesOf_eq (h : list Tree) (t : ptr) (tr : Tree) :
  h !! t = Some tr -> valuesOf h t = values tr.
Proof. unfold valuesOf. by intros ->. Qed.

Lemma store_same (h : list Tree) (t : ptr) (tr : Tree) (key : string) (v : iface) :
  h !! t = Some tr ->
  store h t key v !! t = Some (mkTree (<[key := v]> (values tr)) (position tr)).
Proof.
  intros Ht. unfold store. rewrite Ht. apply list_lookup_insert_eq.
  by eapply lookup_lt_Some.
Qed.

(** [enterAssign] where the current table is a top-level table array:
    the assignment goes to the last table of the array. *)
Lemma enterAssign_in_table_array (key k : string) (position : Position) (w : world)
  (ts : list ptr) (t : ptr) :
  currentTable (b w) = [k] ->
  rootValues w !! k = Some (TreeSlice ts) ->
  last ts = Some t ->
  valuesOf (heap w) t !! assignKeyVal (b w) = None ->
  enterAssign key position w
  = Ok (setAssign (assignKeyVal (b w)) t (setAssignPosition position w)).
Proof.
  intros Hcurrent Hk Hlast Hfree. unfold enterAssign.
  cbn [b setAssignPosition currentTable heap tree assignKeyVal].
  rewrite Hcurrent. cbn [List.length Nat.ltb Nat.leb GetPath].
  unfold rootValues in Hk. rewrite Hk, Hlast. cbn [mbind result_bind].
  by rewrite Hfree.
Qed.

(** X16.  After two headers [[[k]]] of a new top-level table array, an
    assignment is stored in the second table of the array, the most
    recent one; the first table stays empty. *)
Theorem assignment_goes_to_the_last_table_of_the_array (key k akey : string)
  (position1 position2 aposition vposition : Position) (value : iface) (w : world) :
  is_Some (heap w !! tree (b w)) ->
  rootValues w !! k = None ->
  inArray (b w) = false ->
  exists w1 w2 w3 w4,
    enterGroupArray key [k] position1 w = Ok w1 /\
    enterGroupArray key [k] position2 w1 = Ok w2 /\
    enterAssign akey aposition w2 = Ok w3 /\
    foundValue value vposition w3 = Ok w4 /\
    rootValues w4 !! k = Some (TreeSlice [List.length (heap w); S (List.length (heap w))]) /\
    valuesOf (heap w4) (List.length (heap w)) = ∅ /\
    valuesOf (heap w4) (S (List.length (heap w)))
    = {[ assignKeyVal (b w) :=
           match value with
           | TreePtr _ | TreeSlice _ => value
           | _ => TomlValuePtr value aposition
           end ]}.
Proof.
  intros Hroot Hk Harray.
  assert (tree (b w) < List.length (heap w)) as Hlt by by apply lookup_lt_is_Some.
  destruct (enterGroupArray_appends key k position1 w [] Hroot (or_introl (conj Hk eq_refl)))
    as (w1 & H1 & Htree1 & Hroot1 & Hk1 & Hlen1 & Hnew1 & _).
  destruct (enterGroupArray_appends key k position2 w1 _ Hroot1 (or_intror Hk1))
    as (w2 & H2 & Htree2 & Hroot2 & Hk2 & Hlen2 & Hnew2 & Hold2).
  destruct (enterGroupArray_builder _ _ _ _ _ H1) as (_ & _ & _ & Hkey1 & Hin1).
  destruct (enterGroupArray_builder _ _ _ _ _ H2) as (_ & Hcurrent2 & _ & Hkey2 & Hin2).
  rewrite Hlen1 in *. cbn [app] in Hk2.
  assert (heap w2 !! List.length (heap w) = Some (mkTree ∅ position1)) as Hfirst.
  { rewrite Hold2; [assumption| |lia]. rewrite Htree1. lia. }
  set (n := List.length (heap w)) in *.
  assert (enterAssign akey aposition w2
          = Ok (setAssign (assignKeyVal (b w2)) (S n) (setAssignPosition aposition w2)))
    as H3.
  { apply (enterAssign_in_table_array akey k aposition w2 [n; S n] (S n));
      [assumption | assumption | reflexivity |].
    by rewrite (valuesOf_eq _ _ _ Hnew2). }
  exists w1, w2. eexists. eexists. split; [assumption|]. split; [assumption|].
  split; [exact H3|].
  unfold foundValue. cbn [b setAssign setAssignPosition inArray assignTree assignKeyVal
                            assignPosition heap].
  rewrite Hin2, Hin1, Harray. split; [reflexivity|].
  cbn [heap setHeap b tree]. rewrite Hkey2, Hkey1.
  assert (S n <> tree (b w2)) as Hne by (rewrite Htree2, Htree1; lia).
  split; [|split].
  - unfold rootValues, valuesOf in *. cbn [heap b tree setHeap].
    by rewrite store_other.
  - rewrite (valuesOf_eq _ _ (mkTree ∅ position1)); [reflexivity|].
    rewrite store_other by lia. exact Hfirst.
  - erewrite valuesOf_eq by (apply store_same; exact Hnew2).
    cbn [values]. by rewrite insert_empty.
Qed.

(** X16 at the array [x] of an empty document. *)
Lemma assignment_goes_to_the_last_table_witness :
  exists w4,
    (w1 ← enterGroupArray "x" ["x"] (mkPosition 1 1) makeTreeBuilder;
     w2 ← enterGroupArray "x" ["x"] (mkPosition 3 1) w1;
     w3 ← enterAssign "a" (mkPosition 4 1) w2;
     foundValue (GoInt64 2) (mkPosition 4 5) w3) = Ok w4 /\
    valuesOf (heap w4) 1 = ∅ /\
    valuesOf (heap w4) 2 = {[ EmptyString := TomlValuePtr (GoInt64 2) (mkPosition 4 1) ]}.
Proof.
  destruct (assignment_goes_to_the_last_table_of_the_array "x" "x" "a"
              (mkPosition 1 1) (mkPosition 3 1) (mkPosition 4 1) (mkPosition 4 5)
              (GoInt64 2) makeTreeBuilder)
    as (w1 & w2 & w3 & w4 & H1 & H2 & H3 & H4 & _ & Hfirst & Hsecond);
    [vm_compute; eauto | vm_compute; reflexivity | reflexivity |].
  exists w4. rewrite H1. cbn [mbind result_bind]. rewrite H2. cbn [mbind result_bind].
  rewrite H3. cbn [mbind result_bind]. auto.
Defined.

(** ** Integer literals with a leading zero *)

Lemma checkedParseInt_panics (tok : token) (invalid : option goerror) (digits : string)
  (base : Z) (e : panic) :
  checkedParseInt tok invalid digits base = Panicked e ->
  exists err, e = Raised (tokPosition tok) "%s" [AErr err].
Proof.
  unfold checkedParseInt. destruct invalid as [err|]; [intros [= <-]; eauto|].
  destruct (ParseInt digits base) as [n|err]; [discriminate|]. intros [= <-]. eauto.
Qed.

Lemma parseInteger_panics (tok : token) (e : panic) :
  parseInteger tok = Panicked e ->
  e = PanicString "invalid base" \/
  exists err, e = Raised (tokPosition tok) "%s" [AErr err].
Proof.
  intros H. unfold parseInteger in H.
  repeat case_match;
    first [ injection H as <-; by left | right; by eapply checkedParseInt_panics ].
Qed.

(** X17.  An integer literal that, without its separators, has three bytes
    or more, starts with [0] and goes on with anything but [x], [o] or
    [b] makes the parser panic with the bare string [invalid base], which
    carries no position; the separators are not looked at.  That is the
    only such panic of an integer: every other failure is raised at the
    position of the token. *)
Theorem integer_with_a_leading_zero_panics_without_a_position (lib : GoLibrary) :
  (forall tok,
     parseInteger tok = Panicked (PanicString "invalid base") <->
     exists c1 c2 rest,
       cleanupNumberToken (val tok) = String "0" (String c1 (String c2 rest)) /\
       c1 <> "x"%char /\ c1 <> "o"%char /\ c1 <> "b"%char) /\
  (forall tok e,
     parseInteger tok = Panicked e ->
     e = PanicString "invalid base" \/
     exists err, e = Raised (tokPosition tok) "%s" [AErr err]) /\
  (forall kpos key vpos text rest e,
     parseInteger (mkToken vpos tokenInteger text) = Panicked e ->
     parseToml lib (doc_assign kpos key (mkToken vpos tokenInteger text) rest)
     = Panicked e).
Proof.
  split; [|split].
  - intros tok. unfold parseInteger.
    destruct (cleanupNumberToken (val tok)) as [|c0 [|c1 [|c2 rest]]].
    1-3: split; [intros H; apply checkedParseInt_panics in H as [? [=]]
                | intros (? & ? & ? & [=] & _)].
    destruct (Ascii.eqb c0 "0") eqn:H0.
    + apply Ascii.eqb_eq in H0 as ->.
      destruct (Ascii.eqb c1 "x") eqn:Hx; [|destruct (Ascii.eqb c1 "o") eqn:Ho;
                                             [|destruct (Ascii.eqb c1 "b") eqn:Hb]].
      * apply Ascii.eqb_eq in Hx as ->.
        split; [intros H; apply checkedParseInt_panics in H as [? [=]]
               | intros (? & ? & ? & [= <- _ _] & ? & _); congruence].
      * apply Ascii.eqb_eq in Ho as ->.
        split; [intros H; apply checkedParseInt_panics in H as [? [=]]
               | intros (? & ? & ? & [= <- _ _] & _ & ? & _); congruence].
      * apply Ascii.eqb_eq in Hb as ->.
        split; [intros H; apply checkedParseInt_panics in H as [? [=]]
               | intros (? & ? & ? & [= <- _ _] & _ & _ & ?); congruence].
      * apply Ascii.eqb_neq in Hx, Ho, Hb. split; [|reflexivity].
        intros _. exists c1, c2, rest. auto.
    + apply Ascii.eqb_neq in H0.
      split; [intros H; apply checkedParseInt_panics in H as [? [=]]
             | intros (? & ? & ? & [= -> _ _] & _); congruence].
  - exact parseInteger_panics.
  - intros kpos key vpos text rest e H. parse 2.
    toValue kpos key (mkToken vpos tokenInteger text). rewrite H. by intros ->.
Qed.

(** X17 at the literal [0_07]. *)
Lemma integer_with_a_leading_zero_witness :
  parseToml noLibrary (doc_assign (mkPosition 1 1) "x" (tok 1 5 tokenInteger "0_07") [])
  = Panicked (PanicString "invalid base").
Proof.
  apply (proj2 (proj2 (integer_with_a_leading_zero_panics_without_a_position noLibrary))).
  apply (proj1 (integer_with_a_leading_zero_panics_without_a_position noLibrary)).
  exists "0"%char, "7"%char, EmptyString. repeat split; discriminate.
Defined.

(** ** The builder that records the key *)

(** X18.  [enterAssign] of [builder.go] looks up the key it is given in the
    current tree: it refuses the key exactly when the tree holds a value
    there, and records an accepted key and its position.  So once a value
    is stored at a key that key is refused, and any other free key is
    accepted. *)
Theorem BuilderGo_enterAssign_refuses_exactly_the_assigned_key (key : string)
  (position : Position) (h : list Tree) (b : BuilderGo.treeBuilder) (t : ptr) :
  BuilderGo.currentTree b = Some t ->
  (BuilderGo.enterAssign key position h b
   = (if is_nil (default Nil (valuesOf h t !! key))
      then Ok (BuilderGo.mkTreeBuilder (BuilderGo.tree b) (BuilderGo.currentTable b)
                 (BuilderGo.seenTableKeys b) key position (Some t) (BuilderGo.inArray b)
                 (BuilderGo.array b) (BuilderGo.arrayType b))
      else Panicked (Raised position "The following key was defined twice: %s"
                       [AStr (Join (BuilderGo.currentTable b ++ [key]) ".")]))) /\
  (forall key1 v,
     is_Some (h !! t) -> is_nil v = false ->
     BuilderGo.enterAssign key1 position (store h t key1 v) b
     = Panicked (Raised position "The following key was defined twice: %s"
                   [AStr (Join (BuilderGo.currentTable b ++ [key1]) ".")]) /\
     (key <> key1 -> valuesOf h t !! key = None ->
      isOk (BuilderGo.enterAssign key position (store h t key1 v) b) = true)).
Proof.
  intros Ht. unfold BuilderGo.enterAssign. rewrite Ht. split.
  - by destruct (is_nil _).
  - intros key1 v Halloc Hv. split.
    + rewrite valuesOf_store by assumption. simpl. by rewrite Hv.
    + intros Hne Hfree. rewrite valuesOf_store_other_key by done. by rewrite Hfree.
Qed.

(** X18 at the key [b], after [a] was assigned. *)
Lemma BuilderGo_enterAssign_witness :
  isOk (BuilderGo.enterAssign "b" (mkPosition 2 1)
          (store (fst BuilderGo.makeTreeBuilder) 0 "a" (TomlValuePtr (GoInt64 1) (mkPosition 1 1)))
          (BuilderGo.mkTreeBuilder 0 [] [] EmptyString (mkPosition 0 0) (Some 0) false []
             None)) = true.
Proof.
  apply (proj2 (BuilderGo_enterAssign_refuses_exactly_the_assigned_key "b" (mkPosition 2 1)
                  (fst BuilderGo.makeTreeBuilder)
                  (BuilderGo.mkTreeBuilder 0 [] [] EmptyString (mkPosition 0 0) (Some 0)
                     false [] None) 0 eq_refl) "a" (TomlValuePtr (GoInt64 1) (mkPosition 1 1)));
    [vm_compute; eauto | reflexivity | discriminate | vm_compute; reflexivity].
Defined.

(** ** Two assignments in a row *)

(** X19.  Whatever their keys, two assignments of strings at the start of a
    document are not both accepted: the second is refused as a key
    defined twice, at the position of its key, and the key reported is
    the empty one. *)
Theorem second_assignment_in_a_row_is_refused (lib : GoLibrary)
  (kpos1 vpos1 kpos2 : Position) (key1 text1 key2 : string) (rest : list token) :
  parseToml lib
    (doc_assign kpos1 key1 (mkToken vpos1 tokenString text1)
       (mkToken kpos2 tokenKey key2 :: tok 2 5 tokenEqual "=" :: rest))
  = Panicked (Raised kpos2 "The following key was defined twice: %s" [AStr EmptyString]).
Proof.
  parse 4. toValue kpos1 key1 (mkToken vpos1 tokenString text1). isFound.
  atStart (mkToken kpos2 tokenKey key2).
  rewrite steps_S; cbn [call].
  rewrite (parseAssign_at _ _ (mkToken kpos2 tokenKey key2) (tok 2 5 tokenEqual "="))
    by reflexivity.
  cbn [val tokPosition builder]. builderCall. by intros ->.
Qed.

(** ** Arrays of strings *)

Lemma setArray_same (w : world) :
  setArray (inArray (b w)) (array (b w)) (arrayType (b w)) w = w.
Proof. by destruct w as [h []]. Qed.

(** In array mode, with no kind or the kind of strings recorded, a
    string is appended to the buffer. *)
Lemma foundValue_string (text : string) (position : Position) (w : world) :
  inArray (b w) = true ->
  arrayType (b w) = None \/ arrayType (b w) = Some TString ->
  foundValue (GoString text) position w
  = Ok (setArray true (array (b w) ++ [GoString text])%list (Some TString) w).
Proof.
  intros Hin Hty. unfold foundValue. rewrite Hin.
  by destruct Hty as [-> | ->].
Qed.

(** The loop of [parseArray] over strings that are each followed by a
    comma: it appends them to the buffer and goes on behind them. *)
Lemma parseArrayLoop_strings (lib : GoLibrary) (f : nat) (items : list (Position * string)) :
  forall n fuel pre post p,
    n = List.length items + fuel ->
    flow p = (pre ++ commaAfterEach items ++ post)%list ->
    flowIdx p = List.length pre ->
    inArray (b (builder p)) = true ->
    arrayType (b (builder p)) = None \/ arrayType (b (builder p)) = Some TString ->
    parseArrayLoop (parseRvalue lib (S f)) n p
    = parseArrayLoop (parseRvalue lib (S f)) fuel
        (mkTomlParser (List.length pre + List.length (commaAfterEach items)) (flow p)
           (setArray true (array (b (builder p))
             ++ map (fun item => GoString (snd item)) items)%list
              (match items with [] => arrayType (b (builder p)) | _ => Some TString end)
              (builder p))).
Proof.
  induction items as [|item items IH]; intros n fuel pre post p -> Hflow Hidx Hin Hty.
  - cbn [List.length commaAfterEach flat_map map Nat.add]. rewrite app_nil_r, Nat.add_0_r.
    rewrite <- Hidx, <- Hin, setArray_same. by destruct p.
  - cbn [List.length Nat.add parseArrayLoop].
    assert (flow p !! flowIdx p = Some (stringToken item)) as Hitem.
    { rewrite Hflow, Hidx. by apply list_lookup_middle. }
    assert (flow p !! S (flowIdx p) = Some comma) as Hcomma.
    { rewrite Hflow, Hidx. cbn [commaAfterEach flat_map app].
      rewrite (lookup_app_r pre) by lia. by replace (S _ - _) with 1 by lia. }
    rewrite (bind_eq _ _ _ _ _ (peek_at p)). rewrite Hitem.
    cbn [typ stringToken]. rewrite !bool_decide_eq_false_2 by discriminate.
    unfold bind at 1. rewrite (parseRvalue_at lib f p _ Hitem). cbn [typ stringToken val].
    rewrite found_eq. cbn [builder next tokPosition].
    rewrite foundValue_string by assumption. cbn [mbind result_bind].
    rewrite (bind_eq _ _ _ _ _ (peek_at _)). cbn [flow flowIdx withBuilder next builder].
    rewrite Hcomma. cbn [typ comma tok].
    rewrite bool_decide_eq_false_2 by discriminate.
    rewrite (bool_decide_eq_false_2 (tokenComma ≠ tokenComma)) by auto. rewrite andb_false_r.
    rewrite bool_decide_eq_true_2 by reflexivity.
    erewrite bind_eq by (apply getToken_at; exact Hcomma).
    rewrite (IH _ fuel (pre ++ [stringToken item; comma])%list post _ eq_refl).
    + f_equal. unfold setArray, withBuilder, next.
      cbn [b builder heap flow flowIdx array arrayType inArray tree currentTable
             seenTableKeys assignKeyVal assignPosition assignTree inlineTableTree].
      f_equal.
      * unfold commaAfterEach. cbn [flat_map]. rewrite !length_app. cbn [List.length]. lia.
      * rewrite <- app_assoc. cbn [map app]. by destruct items.
    + cbn [next withBuilder flow]. rewrite Hflow. cbn [commaAfterEach flat_map].
      by rewrite <- !app_assoc.
    + cbn [next withBuilder flowIdx]. rewrite length_app, Hidx. cbn [List.length]. lia.
    + reflexivity.
    + by right.
Qed.

(** One round of the loop of [parseArray], at a token. *)
Lemma parseArrayLoop_at (value : method iface) (fuel : nat) (p : tomlParser) (t : token) :
  flow p !! flowIdx p = Some t ->
  parseArrayLoop value (S fuel) p
  = if bool_decide (typ t = tokenEOF)
    then Panicked (Raised (tokPosition t) "unterminated array" [])
    else if bool_decide (typ t = tokenRightBracket) then Ok (tt, next p)
    else
      match value p with
      | Ok (_, p1) =>
          match flow p1 !! flowIdx p1 with
          | None => Panicked NilDereference
          | Some f =>
              if bool_decide (typ f = tokenEOF)
              then Panicked (Raised (tokPosition f) "unterminated array" [])
              else if bool_decide (typ f ≠ tokenRightBracket)
                      && bool_decide (typ f ≠ tokenComma)
              then Panicked (Raised (tokPosition f) "missing comma" [])
              else parseArrayLoop value fuel
                     (if bool_decide (typ f = tokenComma) then next p1 else p1)
          end
      | Panicked e => Panicked e
      | OutOfFuel => OutOfFuel
      end.
Proof.
  intros Ht. cbn [parseArrayLoop]. rewrite (bind_eq _ _ _ _ _ (peek_at p)), Ht.
  destruct (bool_decide (typ t = tokenEOF)); [reflexivity|].
  destruct (bool_decide (typ t = tokenRightBracket)).
  { by rewrite (bind_eq _ _ _ _ _ (getToken_at p t Ht)). }
  unfold bind at 1. destruct (value p) as [[v p1]| |]; try reflexivity.
  rewrite (bind_eq _ _ _ _ _ (peek_at p1)).
  destruct (flow p1 !! flowIdx p1) as [f|] eqn:Hf; [|reflexivity].
  destruct (bool_decide (typ f = tokenEOF)); [reflexivity|].
  destruct (_ && _); [reflexivity|].
  destruct (bool_decide (typ f = tokenComma)).
  - by rewrite (bind_eq _ _ _ _ _ (getToken_at p1 f Hf)).
  - by erewrite bind_eq by reflexivity.
Qed.

Lemma length_commaAfterEach (items : list (Position * string)) :
  List.length (commaAfterEach items) = 2 * List.length items.
Proof. induction items as [|item items IH]; simpl in *; lia. Qed.

(** The document [key = [ tokens], to the loop of [parseArray]. *)
Lemma doc_array_steps (lib : GoLibrary) (kpos : Position) (key : string)
  (tokens : list token) :
  steps lib 2 parseStartFn (start (doc_array kpos key tokens))
  = '(_, p') ← ('(_, p1) ← parseArrayLoop (parseRvalue lib (S (List.length tokens)))
                             (S (List.length tokens))
                             (mkTomlParser 3 (doc_array kpos key tokens)
                                (setArray true [] None
                                   (setAssign EmptyString 0
                                      (setAssignPosition kpos makeTreeBuilder))));
                onBuilder exitArray p1);
    Ok (Some parseStartFn, p').
Proof.
  unfold doc_array. toValue kpos key (tok 1 7 tokenLeftBracket "[").
  unfold parseArray. erewrite bind_eq by reflexivity.
  unfold bind, mbind, result_bind. cbn [withBuilder next builder flow flowIdx start].
  replace (remaining _ - 2) with (S (List.length tokens)) by reflexivity.
  match goal with
  | |- ?lhs = ?rhs =>
      match rhs with
      | context [parseArrayLoop ?v ?n ?p] =>
          match lhs with
          | context [parseArrayLoop v n ?q] =>
              change q with p; destruct (parseArrayLoop v n p) as [[[] p1]| |]
          end
      end
  end; try reflexivity.
  by destruct (onBuilder exitArray p1) as [[? ?]| |].
Qed.

(** The loop of [parseArray] in the document [key = [ items tail], up to
    the tail. *)
Lemma doc_array_loop (lib : GoLibrary) (kpos : Position) (key : string)
  (items : list (Position * string)) (tail : list token) :
  let tokens := (commaAfterEach items ++ tail)%list in
  parseArrayLoop (parseRvalue lib (S (List.length tokens))) (S (List.length tokens))
    (mkTomlParser 3 (doc_array kpos key tokens)
       (setArray true [] None
          (setAssign EmptyString 0 (setAssignPosition kpos makeTreeBuilder))))
  = parseArrayLoop (parseRvalue lib (S (List.length tokens)))
      (S (List.length items + List.length tail))
      (mkTomlParser (3 + 2 * List.length items) (doc_array kpos key tokens)
         (setArray true (map (fun item => GoString (snd item)) items)
            (match items with [] => None | _ => Some TString end)
            (setAssign EmptyString 0 (setAssignPosition kpos makeTreeBuilder)))).
Proof.
  cbv zeta.
  rewrite (parseArrayLoop_strings lib _ items _ (S (List.length items + List.length tail))
             [mkToken kpos tokenKey key; tok 1 5 tokenEqual "="; tok 1 7 tokenLeftBracket "["]
             tail).
  - cbn [flow builder b setArray array arrayType app List.length].
    by rewrite length_commaAfterEach.
  - rewrite length_app, length_commaAfterEach. lia.
  - reflexivity.
  - reflexivity.
  - reflexivity.
  - by left.
Qed.

Lemma doc_array_lookup (kpos : Position) (key : string) (items : list (Position * string))
  (tail : list token) (i : nat) :
  doc_array kpos key (commaAfterEach items ++ tail) !! (3 + 2 * List.length items + i)
  = tail !! i.
Proof.
  unfold doc_array, doc_assign.
  change (?k :: ?e :: ?l :: commaAfterEach items ++ tail)%list
    with ([k; e; l] ++ commaAfterEach items ++ tail)%list.
  rewrite lookup_app_r by (cbn [List.length]; lia).
  rewrite lookup_app_r by (rewrite length_commaAfterEach; cbn [List.length]; lia).
  f_equal. rewrite length_commaAfterEach. cbn [List.length]. lia.
Qed.

Lemma doc_array_at (kpos : Position) (key : string) (items : list (Position * string))
  (t : token) (tail : list token) :
  doc_array kpos key (commaAfterEach items ++ t :: tail) !! (3 + 2 * List.length items)
  = Some t.
Proof.
  rewrite <- (Nat.add_0_r (3 + 2 * List.length items)). by rewrite doc_array_lookup.
Qed.

Lemma doc_array_after (kpos : Position) (key : string) (items : list (Position * string))
  (t t' : token) (tail : list token) :
  doc_array kpos key (commaAfterEach items ++ t :: t' :: tail)
    !! S (3 + 2 * List.length items) = Some t'.
Proof.
  replace (S (3 + 2 * List.length items)) with (3 + 2 * List.length items + 1) by lia.
  by rewrite doc_array_lookup.
Qed.

(** [exitArray] on a buffer of anything but trees. *)
Lemma exitArray_plain (w : world) (t : ptr) :
  arrayType (b w) <> Some TTreePtr ->
  assignTree (b w) = Some t ->
  exitArray w
  = Ok (setArray false (array (b w)) (arrayType (b w))
          (setHeap (store (heap w) t (assignKeyVal (b w))
                      (TomlValuePtr (IfaceSlice (array (b w))) (assignPosition (b w)))) w)).
Proof.
  intros Hty Ht. unfold exitArray. rewrite bool_decide_eq_false_2 by assumption.
  by rewrite Ht.
Qed.

Ltac leaveArray :=
  rewrite onBuilder_eq; cbn [next builder];
  erewrite exitArray_plain
    by (first [reflexivity | cbn [b setArray arrayType]; repeat case_match; discriminate]);
  cbn [mbind result_bind].

(** X20.  An array of strings, each followed by a comma or the last one
    not, is stored at the assignment as the list of the strings, in their
    order and with the position of the key; the empty array is stored as
    the empty list. *)
Theorem array_of_strings_is_stored_in_order (lib : GoLibrary) (kpos zpos : Position)
  (key : string) (items : list (Position * string)) (rest : list token) :
  let strings := map (fun item => GoString (snd item)) items in
  parsedRoot lib (doc_array kpos key (commaAfterEach items ++ closed zpos rest))
  = Ok {[ EmptyString := TomlValuePtr (IfaceSlice strings) kpos ]} /\
  (forall last,
     parsedRoot lib
       (doc_array kpos key (commaAfterEach items ++ stringToken last :: closed zpos rest))
     = Ok {[ EmptyString :=
               TomlValuePtr (IfaceSlice (strings ++ [GoString (snd last)])) kpos ]}).
Proof.
  cbv zeta. split.
  - eassert (steps lib 2 parseStartFn
               (start (doc_array kpos key (commaAfterEach items ++ closed zpos rest)))
             = Ok (Some parseStartFn, _)) as H2.
    { rewrite doc_array_steps, doc_array_loop.
      erewrite parseArrayLoop_at by apply doc_array_at.
      cbn [typ tok]. rewrite bool_decide_eq_false_2 by discriminate.
      rewrite bool_decide_eq_true_2 by reflexivity.
      cbn [mbind result_bind]. leaveArray. reflexivity. }
    parse 3. change (steps lib 3) with (steps lib (2 + 1)).
    rewrite (steps_app lib 2 1 _ _ _ _ H2).
    rewrite steps_S; cbn [call].
    erewrite parseStart_at by (cbn [withBuilder next flow flowIdx]; apply doc_array_after).
    cbn [typ]. intros ->. destruct items; vm_compute; reflexivity.
  - intros last. unfold closed, eofThen.
    eassert (steps lib 2 parseStartFn
               (start (doc_array kpos key
                         (commaAfterEach items ++ stringToken last
                            :: tok 1 9 tokenRightBracket "]"
                            :: mkToken zpos tokenEOF EmptyString :: rest)))
             = Ok (Some parseStartFn, _)) as H2.
    { rewrite doc_array_steps, doc_array_loop.
      erewrite parseArrayLoop_at by apply doc_array_at.
      cbn [typ stringToken]. rewrite !bool_decide_eq_false_2 by discriminate.
      erewrite parseRvalue_at by apply doc_array_at.
      cbn [typ stringToken val]. rewrite found_eq. cbn [builder next tokPosition].
      rewrite foundValue_string by (first [reflexivity | destruct items; by auto]).
      cbn [mbind result_bind withBuilder next flow flowIdx].
      rewrite doc_array_after. cbn [typ tok].
      rewrite bool_decide_eq_false_2 by discriminate.
      rewrite (bool_decide_eq_false_2 (tokenRightBracket ≠ tokenRightBracket)) by auto.
      cbn [andb]. rewrite bool_decide_eq_false_2 by discriminate.
      cbn [List.length]. rewrite Nat.add_succ_r.
      erewrite parseArrayLoop_at by apply doc_array_after.
      cbn [typ tok]. rewrite bool_decide_eq_false_2 by discriminate.
      rewrite bool_decide_eq_true_2 by reflexivity.
      cbn [mbind result_bind]. leaveArray. reflexivity. }
    parse 3. change (steps lib 3) with (steps lib (2 + 1)).
    rewrite (steps_app lib 2 1 _ _ _ _ H2).
    rewrite steps_S; cbn [call].
    erewrite parseStart_at.
    2:{ cbn [withBuilder next flow flowIdx].
        replace (S (S (3 + 2 * List.length items))) with (3 + 2 * List.length items + 2)
          by lia.
        by rewrite doc_array_lookup. }
    cbn [typ]. intros ->. destruct items; vm_compute; reflexivity.
Qed.

(** X21.  Behind the strings of an array that are each followed by a comma:
    an end-of-file token, there or behind one more string, is reported as
    an unterminated array; a token behind a string that is neither a
    comma nor the closing bracket is reported as a missing comma; a comma
    where a value should start is reported with the words [never
    reached]; all at the position of the token.  A flow that ends there is
    a nil dereference. *)
Theorem array_must_be_separated_and_closed (lib : GoLibrary) (kpos : Position)
  (key : string) (items : list (Position * string)) (rest : list token) :
  let document tail := doc_array kpos key (commaAfterEach items ++ tail) in
  (forall xpos text,
     parseToml lib (document (mkToken xpos tokenEOF text :: rest))
     = Panicked (Raised xpos "unterminated array" [])) /\
  (forall last xpos text,
     parseToml lib (document (stringToken last :: mkToken xpos tokenEOF text :: rest))
     = Panicked (Raised xpos "unterminated array" [])) /\
  (forall last x,
     typ x <> tokenRightBracket -> typ x <> tokenComma -> typ x <> tokenEOF ->
     parseToml lib (document (stringToken last :: x :: rest))
     = Panicked (Raised (tokPosition x) "missing comma" [])) /\
  (forall xpos text,
     parseToml lib (document (mkToken xpos tokenComma text :: rest))
     = Panicked (Raised xpos "never reached" [])) /\
  parseToml lib (document []) = Panicked NilDereference.
Proof.
  cbv zeta. split; [|split; [|split; [|split]]].
  - intros xpos text. parse 2. rewrite doc_array_steps, doc_array_loop.
    erewrite parseArrayLoop_at by apply doc_array_at.
    cbn [typ]. rewrite bool_decide_eq_true_2 by reflexivity. by intros ->.
  - intros last xpos text. parse 2. rewrite doc_array_steps, doc_array_loop.
    erewrite parseArrayLoop_at by apply doc_array_at.
    cbn [typ stringToken]. rewrite !bool_decide_eq_false_2 by discriminate.
    erewrite parseRvalue_at by apply doc_array_at.
    cbn [typ stringToken val]. rewrite found_eq. cbn [builder next tokPosition].
    rewrite foundValue_string by (first [reflexivity | destruct items; by auto]).
    cbn [mbind result_bind withBuilder next flow flowIdx].
    rewrite doc_array_after. cbn [typ].
    rewrite bool_decide_eq_true_2 by reflexivity. by intros ->.
  - intros last x H1 H2 H3. parse 2. rewrite doc_array_steps, doc_array_loop.
    erewrite parseArrayLoop_at by apply doc_array_at.
    cbn [typ stringToken]. rewrite !bool_decide_eq_false_2 by discriminate.
    erewrite parseRvalue_at by apply doc_array_at.
    cbn [typ stringToken val]. rewrite found_eq. cbn [builder next tokPosition].
    rewrite foundValue_string by (first [reflexivity | destruct items; by auto]).
    cbn [mbind result_bind withBuilder next flow flowIdx].
    rewrite doc_array_after.
    rewrite bool_decide_eq_false_2 by assumption.
    rewrite !bool_decide_eq_true_2 by assumption. by intros ->.
  - intros xpos text. parse 2. rewrite doc_array_steps, doc_array_loop.
    erewrite parseArrayLoop_at by apply doc_array_at.
    cbn [typ]. rewrite !bool_decide_eq_false_2 by discriminate.
    erewrite parseRvalue_at by apply doc_array_at. cbn [typ tokPosition]. by intros ->.
  - parse 2. rewrite doc_array_steps, doc_array_loop.
    cbn [parseArrayLoop]. rewrite (bind_eq _ _ _ _ _ (peek_at _)).
    cbn [flow flowIdx]. rewrite <- (Nat.add_0_r (3 + 2 * List.length items)).
    rewrite doc_array_lookup. by intros ->.
Qed.

(** X21 at two strings without a comma. *)
Lemma array_must_be_separated_witness :
  parseToml noLibrary
    (doc_array (mkPosition 1 1) "x"
       [stringToken (mkPosition 1 9, "a"); stringToken (mkPosition 1 13, "b")])
  = Panicked (Raised (mkPosition 1 13) "missing comma" []).
Proof.
  apply (proj1 (proj2 (proj2 (array_must_be_separated_and_closed noLibrary (mkPosition 1 1)
                                "x" [] [])))
           (mkPosition 1 9, "a") (stringToken (mkPosition 1 13, "b")));
    discriminate.
Defined.

(** ** Inline tables *)

Lemma Split_nonempty (s : string) (sep : ascii) : Split s sep <> [].
Proof.
  destruct s as [|c rest]; [discriminate|]. cbn [Split].
  destruct (Ascii.eqb c sep); [discriminate|]. by destruct (Split rest sep).
Qed.

(** [SetPath] from a tree without values, for any path: it returns, and
    it changes no tree that was there but the one it starts from. *)
Lemma SetPath_fresh (value : iface) (keys : list string) :
  forall h t pos,
    keys <> [] -> h !! t = Some (mkTree ∅ pos) ->
    exists h', SetPath h t keys value = Some h' /\
      List.length h <= List.length h' /\
      (forall r, r < List.length h -> r <> t -> h' !! r = h !! r).
Proof.
  induction keys as [|k rest IH]; intros h t pos Hne Ht; [done|].
  assert (t < List.length h) as Hlt by by eapply lookup_lt_Some.
  destruct rest as [|k2 rest].
  - eexists. split; [reflexivity|]. split; [by rewrite store_length|].
    intros r _ Hr. by apply store_other.
  - cbn [SetPath]. rewrite (valuesOf_eq _ _ _ Ht). cbn [values]. rewrite lookup_empty.
    cbv beta iota delta [newTree].
    edestruct (IH (store (h ++ [mkTree ∅ (mkPosition 0 0)]) t k
                     (TreePtr (List.length h))) (List.length h))
      as (h' & Hset & Hlen & Hframe); [done| |].
    { rewrite store_other by lia. by apply list_lookup_middle. }
    exists h'. split; [exact Hset|].
    rewrite store_length, length_app in Hlen, Hframe. cbn [List.length] in Hlen, Hframe.
    split; [lia|]. intros r Hr Hrt.
    rewrite Hframe by lia. rewrite store_other by done. by apply lookup_app_l.
Qed.

Lemma treeSet_eq (t : ptr) (key : string) (value : iface) (p : tomlParser) :
  treeSet t key value p
  = match Set_ (heap (builder p)) t key value with
    | Some h => Ok (tt, withBuilder (setHeap h (builder p)) p)
    | None => Panicked OutOfRange
    end.
Proof. reflexivity. Qed.

(** One round of the loop of [parseInlineTable], at a token. *)
Lemma parseInlineTableLoop_at (value : method iface) (tree : option ptr)
  (previous : option token) (fuel : nat) (p : tomlParser) (f : token) :
  flow p !! flowIdx p = Some f ->
  parseInlineTableLoop value tree previous (S fuel) p
  = match typ f with
    | tokenEOF => Panicked (Raised (tokPosition f) "unterminated inline table" [])
    | tokenRightCurlyBrace => Ok (previous, next p)
    | tokenKey =>
        if negb (tokenIsComma previous) && bool_decide (previous ≠ None)
        then Panicked (Raised (tokPosition f)
                         "comma expected between fields in inline table" [])
        else
          '(_, p1) ← assume tokenEqual (next p);
          '(v, p2) ← value p1;
          match tree with
          | Some t =>
              '(_, p3) ← treeSet t (val f) v p2;
              parseInlineTableLoop value tree (Some f) fuel p3
          | None => Panicked NilDereference
          end
    | tokenComma =>
        if bool_decide (previous = None)
        then Panicked (Raised (tokPosition f) "inline table cannot start with a comma" [])
        else if tokenIsComma previous
        then Panicked (Raised (tokPosition f)
                         "need field between two commas in inline table" [])
        else parseInlineTableLoop value tree (Some f) fuel (next p)
    | _ => Panicked (Raised (tokPosition f) "unexpected token type in inline table: %s"
                       [ATok (Some f)])
    end.
Proof.
  intros Hf. cbn [parseInlineTableLoop]. rewrite (bind_eq _ _ _ _ _ (peek_at p)), Hf.
  destruct (typ f); try reflexivity.
  - destruct (_ && _); [reflexivity|].
    rewrite (bind_eq _ _ _ _ _ (getToken_at p f Hf)).
    unfold bind at 1, mbind at 1, result_bind at 1.
    destruct (assume tokenEqual (next p)) as [[[] p1]| |]; try reflexivity.
    unfold bind at 1, mbind at 1, result_bind at 1.
    destruct (value p1) as [[v p2]| |]; try reflexivity.
    destruct tree as [t|]; [|reflexivity].
    unfold bind at 1, mbind at 1, result_bind at 1.
    by destruct (treeSet t (val f) v p2) as [[[] p3]| |].
  - destruct (bool_decide (previous = None)); [reflexivity|].
    destruct (tokenIsComma previous); [reflexivity|].
    by rewrite (bind_eq _ _ _ _ _ (getToken_at p f Hf)).
  - by rewrite (bind_eq _ _ _ _ _ (getToken_at p f Hf)).
Qed.

(** The document [key = { tokens], to the loop of [parseInlineTable]: the
    builder has made the tree of the table, at address 1. *)
Lemma doc_inline_steps (lib : GoLibrary) (kpos : Position) (key : string)
  (tokens : list token) :
  steps lib 2 parseStartFn (start (doc_inline kpos key tokens))
  = '(_, p') ← ('(previous, p1) ←
                  parseInlineTableLoop (parseRvalue lib (S (List.length tokens))) (Some 1)
                    None (S (List.length tokens))
                    (mkTomlParser 3 (doc_inline kpos key tokens)
                       (setInlineTableTree 1
                          (setHeap [mkTree ∅ (mkPosition 1 1); mkTree ∅ (mkPosition 0 0)]
                             (setAssign EmptyString 0
                                (setAssignPosition kpos makeTreeBuilder)))));
                if tokenIsComma previous
                then raiseErrorAt previous "trailing comma at the end of inline table" [] p1
                else Ok (TreePtr 1, p1));
    Ok (Some parseStartFn, p').
Proof.
  unfold doc_inline. toValue kpos key (tok 1 7 tokenLeftCurlyBrace "{").
  unfold parseInlineTable. erewrite bind_eq by reflexivity.
  erewrite bind_eq by reflexivity.
  unfold bind, mbind, result_bind. cbn [withBuilder next builder flow flowIdx start].
  replace (remaining _ - 2) with (S (List.length tokens)) by reflexivity.
  match goal with
  | |- ?lhs = ?rhs =>
      match rhs with
      | context [parseInlineTableLoop ?v ?t ?pr ?n ?p] =>
          match lhs with
          | context [parseInlineTableLoop v ?t' pr n ?q] =>
              change q with p; change t' with t;
              destruct (parseInlineTableLoop v t pr n p) as [[previous p1]| |]
          end
      end
  end; try reflexivity.
  destruct (tokenIsComma previous); [|reflexivity].
  by destruct (raiseErrorAt previous _ _ p1) as [[? ?]| |].
Qed.

Ltac atField :=
  erewrite parseInlineTableLoop_at by reflexivity; cbn [typ tok tokPosition val].

(** X22.  The value of the field of an inline table is stored at the
    assignment itself, whatever the key of the field, and the table is
    not stored: [key = { fkey = "text" }] leaves the string at the
    assignment, and [key = {}] leaves the tree empty. *)
Theorem field_of_an_inline_table_is_stored_at_the_assignment (lib : GoLibrary)
  (kpos zpos : Position) (key : string) (rest : list token) :
  parsedRoot lib
    (doc_inline kpos key (tok 1 9 tokenRightCurlyBrace "}" :: eofThen zpos rest))
  = Ok ∅ /\
  (forall fpos fkey vpos text,
     parsedRoot lib
       (doc_inline kpos key
          (field fpos fkey vpos text
           ++ tok 1 9 tokenRightCurlyBrace "}" :: eofThen zpos rest))
     = Ok {[ EmptyString := TomlValuePtr (GoString text) kpos ]}).
Proof.
  split.
  - eassert (steps lib 2 parseStartFn
               (start (doc_inline kpos key
                         (tok 1 9 tokenRightCurlyBrace "}" :: eofThen zpos rest)))
             = Ok (Some parseStartFn, _)) as H2.
    { rewrite doc_inline_steps. atField. cbn [mbind result_bind tokenIsComma]. reflexivity. }
    parse 3. change (steps lib 3) with (steps lib (2 + 1)).
    rewrite (steps_app lib 2 1 _ _ _ _ H2).
    rewrite steps_S; cbn [call]. erewrite parseStart_at by reflexivity.
    cbn [typ eofThen]. intros ->. vm_compute. reflexivity.
  - intros fpos fkey vpos text.
    let h := eval vm_compute in
               (store [mkTree ∅ (mkPosition 1 1); mkTree ∅ (mkPosition 0 0)] 0 EmptyString
                  (TomlValuePtr (GoString text) kpos)) in
    destruct (SetPath_fresh (GoString text) (Split fkey ".") h 1 (mkPosition 0 0)
                (Split_nonempty _ _) eq_refl) as (h' & Hset & Hlen & Hframe).
    eassert (steps lib 2 parseStartFn
               (start (doc_inline kpos key
                         (field fpos fkey vpos text
                          ++ tok 1 9 tokenRightCurlyBrace "}" :: eofThen zpos rest)))
             = Ok (Some parseStartFn, _)) as H2.
    { rewrite doc_inline_steps. cbn [field app]. atField.
      rewrite (bool_decide_eq_false_2 (None ≠ None)) by auto. rewrite andb_false_r.
      erewrite assume_at by reflexivity. cbn [typ tok].
      rewrite bool_decide_eq_true_2 by reflexivity. cbn [mbind result_bind].
      erewrite parseRvalue_at by reflexivity. cbn [typ val].
      rewrite found_eq. cbn [builder next tokPosition]. builderCall.
      cbn [mbind result_bind]. rewrite treeSet_eq. unfold Set_.
      cbn [withBuilder builder heap]. rewrite Hset. cbn [mbind result_bind].
      cbn [List.length]. atField. cbn [mbind result_bind tokenIsComma typ].
      rewrite bool_decide_eq_false_2 by discriminate. reflexivity. }
    parse 3. change (steps lib 3) with (steps lib (2 + 1)).
    rewrite (steps_app lib 2 1 _ _ _ _ H2).
    rewrite steps_S; cbn [call]. erewrite parseStart_at by reflexivity.
    cbn [typ eofThen]. intros ->. cbn [mbind result_bind]. f_equal.
    unfold rootValues. cbn [withBuilder next builder setHeap heap b tree].
    erewrite valuesOf_eq; [|rewrite Hframe; [reflexivity | cbn; lia | lia]].
    vm_compute. reflexivity.
Qed.

(** The document [key = { fkey = "text" tail], past the field. *)
Lemma doc_inline_field (lib : GoLibrary) (kpos fpos vpos : Position)
  (key fkey text : string) (tail : list token) :
  exists w,
    steps lib 2 parseStartFn
      (start (doc_inline kpos key (field fpos fkey vpos text ++ tail)))
    = '(_, p') ← ('(previous, p1) ←
                    parseInlineTableLoop
                      (parseRvalue lib (S (List.length (field fpos fkey vpos text ++ tail))))
                      (Some 1) (Some (mkToken fpos tokenKey fkey))
                      (List.length (field fpos fkey vpos text ++ tail))
                      (mkTomlParser 6
                         (doc_inline kpos key (field fpos fkey vpos text ++ tail)) w);
                  if tokenIsComma previous
                  then raiseErrorAt previous "trailing comma at the end of inline table" []
                         p1
                  else Ok (TreePtr 1, p1));
      Ok (Some parseStartFn, p').
Proof.
  let h := eval vm_compute in
             (store [mkTree ∅ (mkPosition 1 1); mkTree ∅ (mkPosition 0 0)] 0 EmptyString
                (TomlValuePtr (GoString text) kpos)) in
  destruct (SetPath_fresh (GoString text) (Split fkey ".") h 1 (mkPosition 0 0)
              (Split_nonempty _ _) eq_refl) as (h' & Hset & _).
  eexists. rewrite doc_inline_steps. cbn [field app]. atField.
  rewrite (bool_decide_eq_false_2 (None ≠ None)) by auto. rewrite andb_false_r.
  erewrite assume_at by reflexivity. cbn [typ tok].
  rewrite bool_decide_eq_true_2 by reflexivity. cbn [mbind result_bind].
  erewrite parseRvalue_at by reflexivity. cbn [typ val].
  rewrite found_eq. cbn [builder next tokPosition]. builderCall.
  cbn [mbind result_bind]. rewrite treeSet_eq. unfold Set_.
  cbn [withBuilder builder heap]. rewrite Hset. cbn [mbind result_bind].
  reflexivity.
Qed.

(** X23.  The commas of an inline table: a comma right after the opening
    brace, a second comma in a row, a field that follows a field without
    a comma and a comma right before the closing brace are each
    reported, the last at the position of the comma; so are an
    end-of-file token and a token that is neither a key, a comma nor the
    closing brace.  A flow that ends inside the table is a nil
    dereference. *)
Theorem inline_table_needs_its_commas (lib : GoLibrary) (kpos : Position) (key : string)
  (rest : list token) :
  (forall xpos text,
     parseToml lib (doc_inline kpos key (mkToken xpos tokenComma text :: rest))
     = Panicked (Raised xpos "inline table cannot start with a comma" [])) /\
  (forall xpos text,
     parseToml lib (doc_inline kpos key (mkToken xpos tokenEOF text :: rest))
     = Panicked (Raised xpos "unterminated inline table" [])) /\
  (forall x,
     typ x <> tokenEOF -> typ x <> tokenRightCurlyBrace -> typ x <> tokenKey ->
     typ x <> tokenComma ->
     parseToml lib (doc_inline kpos key (x :: rest))
     = Panicked (Raised (tokPosition x) "unexpected token type in inline table: %s"
                   [ATok (Some x)])) /\
  parseToml lib (doc_inline kpos key []) = Panicked NilDereference /\
  (forall fpos fkey vpos text,
     let document tail := doc_inline kpos key (field fpos fkey vpos text ++ tail) in
     (forall xpos xtext,
        parseToml lib (document (mkToken xpos tokenKey xtext :: rest))
        = Panicked (Raised xpos "comma expected between fields in inline table" [])) /\
     (forall cpos ctext xpos xtext,
        parseToml lib (document (mkToken cpos tokenComma ctext
                                 :: mkToken xpos tokenComma xtext :: rest))
        = Panicked (Raised xpos "need field between two commas in inline table" [])) /\
     (forall cpos ctext xpos xtext,
        parseToml lib (document (mkToken cpos tokenComma ctext
                                 :: mkToken xpos tokenRightCurlyBrace xtext :: rest))
        = Panicked (Raised cpos "trailing comma at the end of inline table" []))).
Proof.
  split; [|split; [|split; [|split]]].
  - intros xpos text. parse 2. rewrite doc_inline_steps. atField. by intros ->.
  - intros xpos text. parse 2. rewrite doc_inline_steps. atField. by intros ->.
  - intros x H1 H2 H3 H4. parse 2. rewrite doc_inline_steps.
    erewrite parseInlineTableLoop_at by reflexivity.
    destruct (typ x); try congruence; by intros ->.
  - parse 2. rewrite doc_inline_steps. cbn [parseInlineTableLoop List.length].
    rewrite (bind_eq _ _ _ _ _ (peek_at _)). by intros ->.
  - intros fpos fkey vpos text. cbv zeta. split; [|split].
    + intros xpos xtext.
      destruct (doc_inline_field lib kpos fpos vpos key fkey text
                  (mkToken xpos tokenKey xtext :: rest)) as [w Hw].
      parse 2. rewrite Hw. cbn [field app List.length]. atField. by intros ->.
    + intros cpos ctext xpos xtext.
      destruct (doc_inline_field lib kpos fpos vpos key fkey text
                  (mkToken cpos tokenComma ctext :: mkToken xpos tokenComma xtext :: rest))
        as [w Hw].
      parse 2. rewrite Hw. cbn [field app List.length]. atField.
      rewrite bool_decide_eq_false_2 by discriminate.
      cbn [tokenIsComma typ]. rewrite bool_decide_eq_false_2 by discriminate.
      atField. rewrite bool_decide_eq_false_2 by discriminate.
      cbn [tokenIsComma typ]. rewrite bool_decide_eq_true_2 by reflexivity.
      by intros ->.
    + intros cpos ctext xpos xtext.
      destruct (doc_inline_field lib kpos fpos vpos key fkey text
                  (mkToken cpos tokenComma ctext
                   :: mkToken xpos tokenRightCurlyBrace xtext :: rest)) as [w Hw].
      parse 2. rewrite Hw. cbn [field app List.length]. atField.
      rewrite bool_decide_eq_false_2 by discriminate.
      cbn [tokenIsComma typ]. rewrite bool_decide_eq_false_2 by discriminate.
      atField. cbn [mbind result_bind tokenIsComma typ].
      rewrite bool_decide_eq_true_2 by reflexivity. by intros ->.
Qed.

(** X23 at an inline table that starts with a string. *)
Lemma inline_table_needs_its_commas_witness :
  parseToml noLibrary
    (doc_inline (mkPosition 1 1) "t" [tok 1 9 tokenString "a"])
  = Panicked (Raised (mkPosition 1 9) "unexpected token type in inline table: %s"
                [ATok (Some (tok 1 9 tokenString "a"))]).
Proof.
  apply (proj1 (proj2 (proj2 (inline_table_needs_its_commas noLibrary (mkPosition 1 1)
                                "t" []))) (tok 1 9 tokenString "a"));
    discriminate.
Defined.

(** ** The panics of a parse *)

Ltac isMessage :=
  left; eexists _, _; split; [reflexivity | cbn [messages In]; tauto].

Lemma enterGroup_panics (key : string) (keys : list string) (position : Position)
  (w : world) (e : panic) :
  enterGroup key keys position w = Panicked e -> raisedAt position e.
Proof.
  unfold enterGroup, raiseError. intros H.
  repeat case_match; simplify_eq; first [isMessage | right; left; reflexivity].
Qed.

Lemma enterGroupArray_panics (key : string) (keys : list string) (position : Position)
  (w : world) (e : panic) :
  enterGroupArray key keys position w = Panicked e -> raisedAt position e.
Proof.
  unfold enterGroupArray, raiseError, mbind, result_bind. intros H.
  repeat case_match; simplify_eq; first [isMessage | right; left; reflexivity].
Qed.

Lemma enterAssign_panics (key : string) (position : Position) (w : world) (e : panic) :
  enterAssign key position w = Panicked e -> raisedAt position e.
Proof.
  unfold enterAssign, raiseError, mbind, result_bind. intros H.
  repeat case_match; simplify_eq; first [isMessage | right; left; reflexivity].
Qed.

Lemma enterAssign_assigns (key : string) (position : Position) (w w' : world) :
  enterAssign key position w = Ok w' -> is_Some (assignTree (b w')).
Proof.
  unfold enterAssign, raiseError, mbind, result_bind. intros H.
  repeat case_match; simplify_eq; by eexists.
Qed.

Lemma foundValue_panics (value : iface) (position : Position) (w : world) (e : panic) :
  is_Some (assignTree (b w)) ->
  foundValue value position w = Panicked e -> raisedAt position e.
Proof.
  intros [t Ht]. unfold foundValue, raiseError. rewrite Ht. intros H.
  repeat case_match; simplify_eq; isMessage.
Qed.

Lemma foundValue_assignTree (value : iface) (position : Position) (w w' : world) :
  foundValue value position w = Ok w' -> assignTree (b w') = assignTree (b w).
Proof.
  unfold foundValue, raiseError. intros H. repeat case_match; by simplify_eq.
Qed.

Lemma exitArray_panics (w : world) (e : panic) :
  is_Some (assignTree (b w)) ->
  exitArray w = Panicked e -> exists m, e = PanicString m.
Proof.
  intros [t Ht]. unfold exitArray. rewrite Ht. intros H.
  repeat case_match; simplify_eq; by eexists.
Qed.

Lemma exitArray_assignTree (w w' : world) :
  exitArray w = Ok w' -> assignTree (b w') = assignTree (b w).
Proof. unfold exitArray. intros H. repeat case_match; by simplify_eq. Qed.

Lemma outcome_bind {A B} (E : panic -> Prop) (Q1 : A -> tomlParser -> Prop)
  (Q2 : B -> tomlParser -> Prop) (m : method A) (f : A -> method B) (p : tomlParser) :
  outcome E Q1 (m p) ->
  (forall a p1, Q1 a p1 -> outcome E Q2 (f a p1)) ->
  outcome E Q2 (bind m f p).
Proof.
  unfold bind. destruct (m p) as [[a p1]| |]; cbn [outcome]; auto.
Qed.

Lemma outcome_mbind {A B} (E : panic -> Prop) (Q1 : A -> tomlParser -> Prop)
  (Q2 : B -> tomlParser -> Prop) (r : result (A * tomlParser))
  (f : A * tomlParser -> result (B * tomlParser)) :
  outcome E Q1 r ->
  (forall a p1, Q1 a p1 -> outcome E Q2 (f (a, p1))) ->
  outcome E Q2 (r ≫= f).
Proof.
  unfold mbind, result_bind. destruct r as [[a p1]| |]; cbn [outcome]; auto.
Qed.

Lemma outcome_weaken {A} (E : panic -> Prop) (Q1 Q2 : A -> tomlParser -> Prop)
  (r : result (A * tomlParser)) :
  outcome E Q1 r -> (forall a p, Q1 a p -> Q2 a p) -> outcome E Q2 r.
Proof. destruct r as [[a p1]| |]; cbn [outcome]; auto. Qed.

Section Errors.

Context (fl : list token) (limit : nat) (E : panic -> Prop).

(** Behind a token that is no end of file, the parser is still within
    the limit. *)
Hypothesis E_next : forall i t,
  i <= limit -> fl !! i = Some t -> typ t <> tokenEOF -> S i <= limit.
(** Where the flow can end within the limit, a nil dereference is
    allowed. *)
Hypothesis E_end : forall i, i <= limit -> fl !! i = None -> E NilDereference.
Hypothesis E_token : forall t msg args,
  In t fl -> In msg messages -> E (Raised (tokPosition t) msg args).
Hypothesis E_range : E OutOfRange.
Hypothesis E_string : forall m, E (PanicString m).

Lemma inFlow_token (p : tomlParser) (t : token) :
  inFlow fl limit p -> flow p !! flowIdx p = Some t -> In t fl.
Proof.
  intros [<- _] Ht. apply list_elem_of_In. by eapply list_elem_of_lookup_2.
Qed.

Lemma inFlow_next (p : tomlParser) (t : token) :
  inFlow fl limit p -> flow p !! flowIdx p = Some t -> typ t <> tokenEOF ->
  inFlow fl limit (next p).
Proof.
  intros [Hflow Hidx] Ht Hty. split; [exact Hflow|]. cbn [next flowIdx].
  eapply E_next; [exact Hidx | by rewrite <- Hflow | exact Hty].
Qed.

Lemma inFlow_end (p : tomlParser) :
  inFlow fl limit p -> flow p !! flowIdx p = None -> E NilDereference.
Proof. intros [Hflow Hidx] Ht. eapply E_end; [exact Hidx | by rewrite <- Hflow]. Qed.

Lemma inFlow_withBuilder (w : world) (p : tomlParser) :
  inFlow fl limit p -> inFlow fl limit (withBuilder w p).
Proof. by intros [? ?]. Qed.

Lemma E_builder (t : token) (e : panic) :
  In t fl -> raisedAt (tokPosition t) e -> E e.
Proof.
  intros Ht [(msg & args & -> & Hmsg)|[-> | [m ->]]];
    [by apply E_token | apply E_range | apply E_string].
Qed.

Ltac tokenIn :=
  match goal with
  | H : In ?t _ |- In ?t _ => exact H
  | H : flow ?p !! flowIdx ?p = Some ?t |- In ?t _ =>
      eapply (inFlow_token p); [eassumption | exact H]
  end.

Ltac raised :=
  cbn [outcome]; eapply E_token; [tokenIn | cbn [messages In]; tauto].

Lemma assume_outcome (ty : tokenType) (p : tomlParser) :
  ty <> tokenEOF -> inFlow fl limit p ->
  outcome E (fun _ p' => inFlow fl limit p' /\ builder p' = builder p) (assume ty p).
Proof.
  intros Hty Hp. destruct (flow p !! flowIdx p) as [t|] eqn:Ht.
  - rewrite (assume_at _ _ _ Ht). case_bool_decide as Heq; [|raised].
    cbn [outcome]. split; [|reflexivity]. eapply inFlow_next; [eassumption..|congruence].
  - unfold assume. rewrite (bind_eq _ _ _ _ _ (getToken_at_end p Ht)).
    cbn [raiseErrorAt abort outcome]. by eapply inFlow_end.
Qed.

Lemma parseStart_outcome (p : tomlParser) :
  inFlow fl limit p ->
  outcome E (fun r p' => p' = p /\ match r with Some s => expects s p | None => True end)
    (parseStart p).
Proof.
  intros Hp. destruct (flow p !! flowIdx p) as [t|] eqn:Ht.
  - rewrite (parseStart_at _ _ Ht).
    destruct (typ t) eqn:Hty; try raised; cbn [outcome expects]; eauto.
  - unfold parseStart, bind, peek. rewrite Ht. by cbn.
Qed.

Lemma onBuilder_outcome (f : world -> result world) (t : token)
  (Q : world -> Prop) (p : tomlParser) :
  inFlow fl limit p -> In t fl ->
  (forall e, f (builder p) = Panicked e -> raisedAt (tokPosition t) e) ->
  (forall w, f (builder p) = Ok w -> Q w) ->
  outcome E (fun _ p' => inFlow fl limit p' /\ flowIdx p' = flowIdx p /\ Q (builder p'))
    (onBuilder f p).
Proof.
  intros Hp Ht He Hw. rewrite onBuilder_eq. unfold mbind, result_bind.
  destruct (f (builder p)) as [w| |]; cbn [outcome]; [|eauto using E_builder|done].
  split; [by apply inFlow_withBuilder|]. split; [reflexivity|]. by apply Hw.
Qed.

Lemma parseGroup_outcome (p : tomlParser) :
  inFlow fl limit p -> expects parseGroupFn p ->
  outcome E (fun r p' => inFlow fl limit p' /\ r = Some parseStartFn) (parseGroup p).
Proof.
  intros Hp (s & Hs & Hsty).
  assert (inFlow fl limit (next p)) as Hp1 by (eapply inFlow_next; [eassumption..|congruence]).
  destruct (flow p !! S (flowIdx p)) as [k|] eqn:Hk.
  - rewrite (parseGroup_eq _ _ _ Hs Hk).
    assert (In k fl) as Hkin by by eapply (inFlow_token (next p)).
    case_bool_decide as Hkty; [|raised].
    destruct (parseKey (val k)) as [keys|err]; [|raised].
    assert (inFlow fl limit (next (next p))) as Hp2
      by (eapply (inFlow_next (next p)); [eassumption..|congruence]).
    unfold mbind, result_bind.
    destruct (enterGroup _ _ _ _) as [w| |] eqn:Hw; cbn [outcome]; [| |done].
    + eapply outcome_mbind.
      * apply assume_outcome; [discriminate | by apply inFlow_withBuilder].
      * intros [] p1 [Hp' _]. by cbn.
    + eapply (E_builder s); [by eapply (inFlow_token p) | by eapply enterGroup_panics].
  - unfold parseGroup. rewrite (bind_eq _ _ _ _ _ (getToken_at p s Hs)).
    rewrite (bind_eq _ _ _ _ _ (getToken_at_end (next p) Hk)).
    cbn [abort outcome]. by eapply (inFlow_end (next p)).
Qed.

Lemma parseGroupArray_outcome (p : tomlParser) :
  inFlow fl limit p -> expects parseGroupArrayFn p ->
  outcome E (fun r p' => inFlow fl limit p' /\ r = Some parseStartFn) (parseGroupArray p).
Proof.
  intros Hp (s & Hs & Hsty).
  assert (inFlow fl limit (next p)) as Hp1 by (eapply inFlow_next; [eassumption..|congruence]).
  destruct (flow p !! S (flowIdx p)) as [k|] eqn:Hk.
  - rewrite (parseGroupArray_eq _ _ _ Hs Hk).
    assert (In k fl) as Hkin by by eapply (inFlow_token (next p)).
    case_bool_decide as Hkty; [|raised].
    destruct (parseKey (val k)) as [keys|err]; [|raised].
    assert (inFlow fl limit (next (next p))) as Hp2
      by (eapply (inFlow_next (next p)); [eassumption..|congruence]).
    unfold mbind, result_bind.
    destruct (enterGroupArray _ _ _ _) as [w| |] eqn:Hw; cbn [outcome]; [| |done].
    + eapply outcome_mbind.
      * apply assume_outcome; [discriminate | by apply inFlow_withBuilder].
      * intros [] p1 [Hp' _]. by cbn.
    + eapply (E_builder s); [by eapply (inFlow_token p) | by eapply enterGroupArray_panics].
  - unfold parseGroupArray. rewrite (bind_eq _ _ _ _ _ (getToken_at p s Hs)).
    rewrite (bind_eq _ _ _ _ _ (getToken_at_end (next p) Hk)).
    cbn [abort outcome]. by eapply (inFlow_end (next p)).
Qed.

Lemma found_outcome (t : token) (value : iface) (p p0 : tomlParser) :
  inFlow fl limit p0 -> flow p0 !! flowIdx p0 = Some t -> typ t <> tokenEOF ->
  assigning p0 -> p = next p0 ->
  outcome E (fun _ p' => inValue fl limit p') (found t value p).
Proof.
  intros Hp0 Ht Hty Ha ->. rewrite found_eq. unfold mbind, result_bind.
  cbn [next builder].
  destruct (foundValue _ _ _) as [w| |] eqn:Hw; cbn [outcome]; [| |done].
  - split; [by apply inFlow_withBuilder, (inFlow_next p0 t)|].
    unfold assigning. cbn [withBuilder builder].
    by rewrite (foundValue_assignTree _ _ _ _ Hw).
  - eapply (E_builder t); [by eapply (inFlow_token p0) | by eapply foundValue_panics].
Qed.

Lemma parseArrayLoop_outcome (value : method iface) (fuel : nat) :
  (forall p, inValue fl limit p -> outcome E (fun _ p' => inValue fl limit p') (value p)) ->
  forall p, inValue fl limit p ->
    outcome E (fun _ p' => inValue fl limit p') (parseArrayLoop value fuel p).
Proof.
  intros Hvalue. induction fuel as [|fuel IH]; intros p [Hp Ha]; [done|].
  destruct (flow p !! flowIdx p) as [t|] eqn:Ht.
  - rewrite (parseArrayLoop_at _ _ _ _ Ht).
    case_bool_decide as Heof; [raised|].
    case_bool_decide as Hclose.
    { cbn [outcome]. split; [by eapply inFlow_next | exact Ha]. }
    specialize (Hvalue p (conj Hp Ha)).
    destruct (value p) as [[v p1]| |]; cbn [outcome] in *; [|assumption|done].
    destruct Hvalue as [Hp1 Ha1].
    destruct (flow p1 !! flowIdx p1) as [f|] eqn:Hf;
      [|cbn [outcome]; by eapply (inFlow_end p1)].
    case_bool_decide as Heof1; [raised|].
    destruct (_ && _); [raised|].
    apply IH. case_bool_decide as Hcomma; [|by split].
    split; [by eapply inFlow_next | exact Ha1].
  - cbn [parseArrayLoop]. rewrite (bind_eq _ _ _ _ _ (peek_at p)), Ht.
    cbn [raiseErrorAt abort outcome]. by eapply inFlow_end.
Qed.

Lemma parseArray_outcome (value : method iface) (fuel : nat) (p : tomlParser) :
  (forall p, inValue fl limit p -> outcome E (fun _ p' => inValue fl limit p') (value p)) ->
  inValue fl limit p ->
  outcome E (fun _ p' => inValue fl limit p') (parseArray value fuel p).
Proof.
  intros Hvalue [Hp Ha]. unfold parseArray.
  erewrite bind_eq by reflexivity.
  eapply outcome_bind.
  - apply parseArrayLoop_outcome; [exact Hvalue|]. by split.
  - intros [] p1 [Hp1 Ha1]. rewrite onBuilder_eq. unfold mbind, result_bind.
    destruct (exitArray (builder p1)) as [w| |] eqn:Hw; cbn [outcome]; [| |done].
    + split; [by apply inFlow_withBuilder|]. unfold assigning. cbn [withBuilder builder].
      by rewrite (exitArray_assignTree _ _ Hw).
    + destruct (exitArray_panics _ _ Ha1 Hw) as [m ->]. apply E_string.
Qed.

Lemma parseInlineTableLoop_outcome (value : method iface) (fuel : nat) :
  (forall p, inValue fl limit p -> outcome E (fun _ p' => inValue fl limit p') (value p)) ->
  forall tree previous p,
    is_Some tree ->
    (forall t, previous = Some t -> In t fl) ->
    inValue fl limit p ->
    outcome E (fun r p' => inValue fl limit p' /\ (forall t, r = Some t -> In t fl))
      (parseInlineTableLoop value tree previous fuel p).
Proof.
  intros Hvalue. induction fuel as [|fuel IH]; intros tree previous p [t Htree] Hprev [Hp Ha];
    [done|].
  destruct (flow p !! flowIdx p) as [f|] eqn:Hf.
  - rewrite (parseInlineTableLoop_at _ _ _ _ _ _ Hf).
    assert (In f fl) as Hfin by by eapply inFlow_token.
    destruct (typ f) eqn:Hty; try raised.
    + destruct (_ && _); [raised|].
      assert (inFlow fl limit (next p)) as Hp1
        by (eapply inFlow_next; [eassumption..|congruence]).
      eapply outcome_mbind; [by apply assume_outcome|].
      intros [] p1 [Hp1' Hb1]. cbv beta iota.
      eapply outcome_mbind.
      { apply Hvalue. split; [assumption|]. unfold assigning. by rewrite Hb1. }
      intros v p2 [Hp2 Ha2]. cbv beta iota. subst tree.
      rewrite treeSet_eq. destruct (Set_ _ _ _ _) as [h|]; [|apply E_range].
      cbn [mbind result_bind]. apply IH; [by eexists| |].
      * by intros ? [= <-].
      * split; [by apply inFlow_withBuilder | exact Ha2].
    + case_bool_decide; [raised|]. destruct (tokenIsComma previous); [raised|].
      apply IH; [by eexists | by intros ? [= <-] |].
      split; [|exact Ha]. eapply inFlow_next; [eassumption..|congruence].
    + cbn [outcome]. split; [|exact Hprev].
      split; [|exact Ha]. eapply inFlow_next; [eassumption..|congruence].
  - cbn [parseInlineTableLoop]. rewrite (bind_eq _ _ _ _ _ (peek_at p)), Hf.
    cbn [raiseErrorAt abort outcome]. by eapply inFlow_end.
Qed.

Lemma parseInlineTable_outcome (value : method iface) (fuel : nat) (p : tomlParser) :
  (forall p, inValue fl limit p -> outcome E (fun _ p' => inValue fl limit p') (value p)) ->
  inValue fl limit p ->
  outcome E (fun _ p' => inValue fl limit p') (parseInlineTable value fuel p).
Proof.
  intros Hvalue [Hp Ha]. unfold parseInlineTable.
  erewrite bind_eq by reflexivity. erewrite bind_eq by reflexivity.
  eapply outcome_bind.
  - apply parseInlineTableLoop_outcome; [exact Hvalue| | |].
    + unfold enterInlineTable. cbn. by eexists.
    + by intros.
    + split; [by apply inFlow_withBuilder|]. exact Ha.
  - intros previous p1 [Hp1 Hprev]. destruct previous as [c|]; cbn [tokenIsComma].
    + case_bool_decide; [|by cbn].
      cbn [raiseErrorAt abort outcome]. apply E_token; [by apply Hprev|].
      cbn [messages In]; tauto.
    + by cbn.
Qed.

Lemma parseRvalue_outcome (lib : GoLibrary) (fuel : nat) :
  forall p, inValue fl limit p -> outcome E (fun _ p' => inValue fl limit p')
    (parseRvalue lib fuel p).
Proof.
  induction fuel as [|fuel IH]; intros p [Hp Ha]; [done|].
  destruct (flow p !! flowIdx p) as [t|] eqn:Ht.
  - rewrite (parseRvalue_at _ _ _ _ Ht).
    assert (In t fl) as Htin by by eapply inFlow_token.
    destruct (typ t) eqn:Hty; try raised;
      try (eapply found_outcome; [eassumption..|congruence|assumption|reflexivity]).
    + eapply outcome_mbind.
      * apply parseArray_outcome; [exact IH|].
        split; [|exact Ha]. eapply inFlow_next; [eassumption..|congruence].
      * by intros [] p1 Hp1.
    + apply parseInlineTable_outcome; [exact IH|].
      split; [|exact Ha]. eapply inFlow_next; [eassumption..|congruence].
    + destruct (parseInteger t) as [n| |] eqn:Hn; [| |done].
      * eapply found_outcome; [eassumption..|congruence|assumption|reflexivity].
      * cbn [outcome]. destruct (parseInteger_panics _ _ Hn) as [->|[err ->]];
          [apply E_string | raised].
    + destruct (separatorsFlanked _ _); [|raised].
      destruct (ParseFloat _ _); [|raised].
      eapply found_outcome; [eassumption..|congruence|assumption|reflexivity].
    + destruct (ParseInLocation _ _); [|raised].
      eapply found_outcome; [eassumption..|congruence|assumption|reflexivity].
    + destruct (val t); [apply E_range|].
      eapply found_outcome; [eassumption..|congruence|assumption|reflexivity].
  - cbn [parseRvalue]. rewrite (bind_eq _ _ _ _ _ (getToken_at_end p Ht)).
    cbn [raiseErrorAt abort outcome]. by eapply inFlow_end.
Qed.

Lemma parseAssign_outcome (lib : GoLibrary) (p : tomlParser) :
  inFlow fl limit p -> expects parseAssignFn p ->
  outcome E (fun r p' => inFlow fl limit p' /\ r = Some parseStartFn) (parseAssign lib p).
Proof.
  intros Hp (k & Hk & Hkty).
  assert (inFlow fl limit (next p)) as Hp1 by (eapply inFlow_next; [eassumption..|congruence]).
  unfold parseAssign. rewrite (bind_eq _ _ _ _ _ (getToken_at p k Hk)).
  eapply outcome_bind; [by apply assume_outcome|].
  intros [] p1 [Hp1' Hb1]. cbv beta iota.
  eapply outcome_bind.
  { apply (onBuilder_outcome _ k (fun w => is_Some (assignTree (b w)))); [assumption| | |].
    - by eapply (inFlow_token p).
    - intros e. apply enterAssign_panics.
    - intros w. apply enterAssign_assigns. }
  intros [] p2 (Hp2 & _ & Ha2). cbv beta iota.
  eapply outcome_bind; [by apply parseRvalue_outcome|].
  intros v p3 [Hp3 _]. by cbn.
Qed.

Lemma call_outcome (lib : GoLibrary) (state : tomlParserStateFn) (p : tomlParser) :
  inFlow fl limit p -> expects state p ->
  outcome E (fun r p' => inFlow fl limit p' /\
                         match r with Some s => expects s p' | None => True end)
    (call lib state p).
Proof.
  intros Hp Hstate. destruct state; cbn [call].
  - eapply outcome_weaken; [by apply parseStart_outcome|].
    intros r p' [-> Hr]. by split.
  - eapply outcome_weaken; [by apply parseGroupArray_outcome|].
    by intros r p' [Hp' ->].
  - eapply outcome_weaken; [by apply parseGroup_outcome|].
    by intros r p' [Hp' ->].
  - eapply outcome_weaken; [by apply parseAssign_outcome|].
    by intros r p' [Hp' ->].
Qed.

Lemma runFrom_outcome (lib : GoLibrary) (fuel : nat) :
  forall state p,
    inFlow fl limit p -> expects state p ->
    outcome E (fun _ _ => True) (runFrom lib fuel state p).
Proof.
  induction fuel as [|fuel IH]; intros state p Hp Hstate; [done|].
  cbn [runFrom]. eapply outcome_bind; [by apply call_outcome|].
  intros [s|] p1 [Hp1 Hs]; [by apply IH | by cbn].
Qed.

End Errors.

(** The panics of [parseToml] on [tokens] satisfy [E], if [E] holds of
    the panics the section lists; [limit] is an index the parser cannot
    pass. *)
Lemma parseToml_outcome (lib : GoLibrary) (tokens : list token) (limit : nat)
  (E : panic -> Prop) :
  (forall i t, i <= limit -> tokens !! i = Some t -> typ t <> tokenEOF -> S i <= limit) ->
  (forall i, i <= limit -> tokens !! i = None -> E NilDereference) ->
  (forall t msg args, In t tokens -> In msg messages -> E (Raised (tokPosition t) msg args)) ->
  E OutOfRange ->
  (forall m, E (PanicString m)) ->
  forall e, parseToml lib tokens = Panicked e -> E e.
Proof.
  intros H1 H2 H3 H4 H5 e He.
  pose proof (runFrom_outcome tokens limit E H1 H2 H3 H4 H5 lib (enoughFuel tokens)
                parseStartFn (start tokens)) as Hrun.
  unfold parseToml, run, mbind, result_bind in He. fold (start tokens) in He.
  cbn [flow start] in He, Hrun.
  destruct (runFrom _ _ _ _) as [[[] p']| |]; try discriminate.
  injection He as <-. apply Hrun; [|exact I]. split; [reflexivity | cbn; lia].
Qed.

(** X24.  A panic that [parseToml] raises with a position carries the
    position of one of the tokens of the flow, and one of the messages of
    the parser and of the builder; the message that the token stream is
    empty and the message of an invalid key are none of them. *)
Theorem errors_are_reported_at_a_token_of_the_flow (lib : GoLibrary) (tokens : list token)
  (position : Position) (msg : string) (args : list arg) :
  parseToml lib tokens = Panicked (Raised position msg args) ->
  In position (map tokPosition tokens) /\ In msg messages /\
  msg <> "was expecting token %s, but token stream is empty" /\
  msg <> "Invalid key".
Proof.
  intros H.
  pose proof (parseToml_outcome lib tokens (List.length tokens) (located tokens)) as Hloc.
  cbn [located] in Hloc.
  destruct (Hloc) with (e := Raised position msg args) as [Hpos Hmsg]; try done.
  - intros i t _ Ht _. apply lookup_lt_Some in Ht. lia.
  - intros t m a Ht Hm. split; [by apply in_map | exact Hm].
  - split; [exact Hpos|]. split; [exact Hmsg|].
    split; intros ->; cbn [messages In] in Hmsg;
      repeat destruct Hmsg as [Hmsg|Hmsg]; done.
Qed.

(** X24 at the document of the table [a] declared twice. *)
Lemma errors_are_reported_witness :
  In (mkPosition 2 1) (map tokPosition doc_table_twice) /\
  In "duplicated tables" messages /\
  "duplicated tables" <> "was expecting token %s, but token stream is empty" /\
  "duplicated tables" <> "Invalid key".
Proof.
  apply (errors_are_reported_at_a_token_of_the_flow noLibrary doc_table_twice
           (mkPosition 2 1) "duplicated tables" []).
  vm_compute. reflexivity.
Defined.

(** X25.  A flow with an end-of-file token in it never makes the parser
    dereference a nil token or a nil tree: the parser does not get past
    that token. *)
Theorem flow_with_an_end_of_file_is_no_nil_dereference (lib : GoLibrary)
  (before after : list token) (z : token) :
  typ z = tokenEOF ->
  parseToml lib (before ++ z :: after) <> Panicked NilDereference.
Proof.
  intros Hz H.
  apply (parseToml_outcome lib (before ++ z :: after) (List.length before)
           (fun e => e <> NilDereference)) in H; try done.
  - intros i t Hi Ht Hty.
    destruct (decide (i = List.length before)) as [->|]; [|lia].
    rewrite list_lookup_middle in Ht by reflexivity. by injection Ht as <-.
  - intros i Hi Ht. apply lookup_ge_None in Ht. rewrite length_app in Ht.
    cbn [List.length] in Ht. lia.
Qed.

(** X25 at a key followed by the end of the file. *)
Lemma flow_with_an_end_of_file_witness :
  parseToml noLibrary ([tok 1 1 tokenKey "a"] ++ tok 1 3 tokenEOF EmptyString :: [])
  <> Panicked NilDereference.
Proof.
  apply (flow_with_an_end_of_file_is_no_nil_dereference noLibrary
           [tok 1 1 tokenKey "a"] [] (tok 1 3 tokenEOF EmptyString)).
  reflexivity.
Defined.

(** ** Progress *)

(** X26.  Every parse ends: twice the number of tokens, and two, calls of
    the loop of [run] are never used up.  A call of the loop keeps the
    flow and the index within it; [parseStart] consumes nothing and never
    hands over to itself; every other state consumes at least one token
    and hands over to [parseStart]; a value consumes at least one
    token. *)
Theorem every_parse_ends_and_every_state_consumes (lib : GoLibrary) :
  (forall tokens, parseToml lib tokens <> OutOfFuel) /\
  (forall state p r p',
     call lib state p = Ok (r, p') ->
     advances p p' /\
     (state = parseStartFn -> p' = p /\ r <> Some parseStartFn) /\
     (state <> parseStartFn -> r = Some parseStartFn /\ flowIdx p < flowIdx p')) /\
  (forall fuel p v p',
     parseRvalue lib fuel p = Ok (v, p') -> advances p p' /\ flowIdx p < flowIdx p').
Proof.
  split; [apply parseToml_returns|]. split.
  - intros state p r p' H. split; [by eapply call_advances|]. split.
    + intros ->. by apply parseStart_inv.
    + intros Hstate. by eapply call_consumes.
  - intros fuel p v p' H.
    apply (parseRvalue_consumes advances advances_refl advances_trans advances_next) in H
      as (t & Ht & Hadv);
      eauto using onBuilder_advances, treeSet_advances.
    pose proof (advances_next p t Ht) as Hnext.
    split; [by eapply advances_trans|].
    destruct Hadv as (_ & Hle & _). cbn [flowIdx] in Hle. lia.
Qed.

(** X26 at the first call of the loop on [title = "x"]. *)
Lemma every_state_consumes_witness :
  advances (start doc_title) (start doc_title) /\
  (parseStartFn = parseStartFn ->
   start doc_title = start doc_title /\ Some parseAssignFn <> Some parseStartFn) /\
  (parseStartFn <> parseStartFn ->
   Some parseAssignFn = Some parseStartFn /\ flowIdx (start doc_title) < flowIdx (start doc_title)).
Proof.
  apply (proj1 (proj2 (every_parse_ends_and_every_state_consumes noLibrary))
           parseStartFn (start doc_title) (Some parseAssignFn) (start doc_title)).
  reflexivity.
Defined.

(** ** An assignment under a header *)

(** The first header of a document, [[k]] for a top-level table. *)
Lemma enterGroup_first (key k : string) (position : Position) :
  enterGroup key [k] position makeTreeBuilder
  = Ok (mkWorld [mkTree {[ k := TreePtr 1 ]} (mkPosition 1 1); mkTree ∅ position]
          (mkTreeBuilder 0 [k] [key] EmptyString (mkPosition 0 0) None false [] None None)).
Proof.
  vm_compute. reflexivity.
Qed.

(** X27.  After a header [[k]] of a top-level table, an assignment is
    stored in the table of the header, which is positioned at the
    opening bracket; the root tree holds the table at [k] and nothing
    else, and the value sits in the table under the empty key. *)
Theorem assignment_under_a_header_goes_to_its_table (lib : GoLibrary)
  (spos hpos cpos kpos vpos zpos : Position) (stext key k ctext akey text : string)
  (rest : list token) :
  parseKey key = inl [k] ->
  exists w,
    parseToml lib
      (mkToken spos tokenLeftBracket stext :: mkToken hpos tokenKeyGroup key
       :: mkToken cpos tokenRightBracket ctext
       :: doc_assign kpos akey (mkToken vpos tokenString text) (eofThen zpos rest))
    = Ok w /\
    tree (b w) = 0 /\
    heap w = [mkTree {[ k := TreePtr 1 ]} (mkPosition 1 1);
              mkTree {[ EmptyString := TomlValuePtr (GoString text) kpos ]} spos].
Proof.
  intros Hkey. eexists. split.
  - parse 5. unfold doc_assign, eofThen.
    atStart (mkToken spos tokenLeftBracket stext).
    rewrite steps_S; cbn [call].
    rewrite (parseGroup_eq _ (mkToken spos tokenLeftBracket stext)
               (mkToken hpos tokenKeyGroup key)) by reflexivity.
    cbn [typ val tokPosition builder start].
    rewrite bool_decide_eq_true_2, Hkey, enterGroup_first by reflexivity.
    cbn [mbind result_bind].
    erewrite assume_at by reflexivity. cbn [typ].
    rewrite bool_decide_eq_true_2 by reflexivity. cbn [mbind result_bind].
    atStart (mkToken kpos tokenKey akey).
    rewrite steps_S; cbn [call].
    rewrite (parseAssign_at _ _ (mkToken kpos tokenKey akey) (tok 1 5 tokenEqual "="))
      by reflexivity.
    cbn [val tokPosition builder withBuilder next].
    assert (enterAssign akey kpos
              (mkWorld [mkTree {[ k := TreePtr 1 ]} (mkPosition 1 1); mkTree ∅ spos]
                 (mkTreeBuilder 0 [k] [key] EmptyString (mkPosition 0 0) None false []
                    None None))
            = Ok (mkWorld [mkTree {[ k := TreePtr 1 ]} (mkPosition 1 1); mkTree ∅ spos]
                    (mkTreeBuilder 0 [k] [key] EmptyString kpos (Some 1) false []
                       None None))) as ->.
    { unfold enterAssign.
      cbn [b setAssignPosition currentTable heap tree assignKeyVal List.length Nat.ltb
             Nat.leb GetPath].
      unfold valuesOf. cbn [lookup list_lookup values].
      rewrite lookup_singleton_eq. cbn [mbind result_bind GetPath assignKeyVal b].
      unfold valuesOf. cbn [lookup list_lookup values]. by rewrite lookup_empty. }
    cbn [mbind result_bind].
    atValue (mkToken vpos tokenString text). rewrite found_eq.
    cbn [builder withBuilder next tokPosition].
    unfold foundValue. cbn [b inArray assignTree assignKeyVal assignPosition heap setHeap].
    unfold store. cbn [lookup list_lookup insert list_insert values position].
    rewrite insert_empty. cbn [mbind result_bind].
    atStart (mkToken zpos tokenEOF EmptyString).
    intros ->. reflexivity.
  - split; reflexivity.
Qed.

(** X27 at the table [t] and the assignment [a = "s"]. *)
Lemma assignment_under_a_header_witness :
  exists w,
    parseToml noLibrary
      (tok 1 1 tokenLeftBracket "[" :: tok 1 2 tokenKeyGroup "t" :: tok 1 3 tokenRightBracket "]"
       :: doc_assign (mkPosition 2 1) "a" (tok 2 5 tokenString "s")
            (eofThen (mkPosition 3 1) [])) = Ok w /\
    tree (b w) = 0 /\
    heap w = [mkTree {[ "t" := TreePtr 1 ]} (mkPosition 1 1);
              mkTree {[ EmptyString := TomlValuePtr (GoString "s") (mkPosition 2 1) ]}
                (mkPosition 1 1)].
Proof.
  apply (assignment_under_a_header_goes_to_its_table noLibrary (mkPosition 1 1)
           (mkPosition 1 2) (mkPosition 1 3) (mkPosition 2 1) (mkPosition 2 5)
           (mkPosition 3 1) "[" "t" "t" "]" "a" "s" []).
  reflexivity.
Defined.

(** ** What lies behind the end of the file *)

Lemma alike_bind {A B} (Q1 : A -> tomlParser -> A -> tomlParser -> Prop)
  (Q2 : B -> tomlParser -> B -> tomlParser -> Prop)
  (m1 m2 : method A) (f1 f2 : A -> method B) (p q : tomlParser) :
  alike Q1 (m1 p) (m2 q) ->
  (forall a p1 a' q1, Q1 a p1 a' q1 -> alike Q2 (f1 a p1) (f2 a' q1)) ->
  alike Q2 (bind m1 f1 p) (bind m2 f2 q).
Proof.
  unfold bind. intros H Hf.
  destruct (m1 p) as [[a p1]| |], (m2 q) as [[a' q1]| |]; cbn [alike] in *;
    try done; try (by apply Hf); try (by destruct (f1 a p1) as [[? ?]| |]).
Qed.

Lemma alike_mbind {A B} (Q1 : A -> tomlParser -> A -> tomlParser -> Prop)
  (Q2 : B -> tomlParser -> B -> tomlParser -> Prop)
  (r1 r2 : result (A * tomlParser)) (f1 f2 : A * tomlParser -> result (B * tomlParser)) :
  alike Q1 r1 r2 ->
  (forall a p1 a' q1, Q1 a p1 a' q1 -> alike Q2 (f1 (a, p1)) (f2 (a', q1))) ->
  alike Q2 (r1 ≫= f1) (r2 ≫= f2).
Proof.
  unfold mbind, result_bind. intros H Hf.
  destruct r1 as [[a p1]| |], r2 as [[a' q1]| |]; cbn [alike] in *;
    try done; try (by apply Hf); try (by destruct (f1 (a, p1)) as [[? ?]| |]).
Qed.

Lemma alike_weaken {A} (Q1 Q2 : A -> tomlParser -> A -> tomlParser -> Prop)
  (r1 r2 : result (A * tomlParser)) :
  alike Q1 r1 r2 -> (forall a p a' q, Q1 a p a' q -> Q2 a p a' q) -> alike Q2 r1 r2.
Proof.
  destruct r1 as [[a p1]| |], r2 as [[a' q1]| |]; cbn [alike]; auto.
Qed.

Lemma alike_OutOfFuel_r {A} (Q : A -> tomlParser -> A -> tomlParser -> Prop)
  (r : result (A * tomlParser)) : alike Q r OutOfFuel.
Proof. by destruct r as [[? ?]| |]. Qed.

Section Cutoff.

Context (fl1 fl2 : list token) (limit : nat).

Hypothesis C_same : forall i, i <= limit -> fl2 !! i = fl1 !! i.
Hypothesis C_some : forall i, i <= limit -> is_Some (fl1 !! i).
Hypothesis C_next : forall i t,
  i <= limit -> fl1 !! i = Some t -> typ t <> tokenEOF -> S i <= limit.

Lemma sim_token (p q : tomlParser) :
  sameSoFar fl1 fl2 limit p q ->
    exists t, flow p !! flowIdx p = Some t /\ flow q !! flowIdx q = Some t.
Proof.
  intros (Hp & Hq & Hidx & Hle & _). destruct (C_some _ Hle) as [t Ht].
  exists t. rewrite Hp, Hq, Hidx, C_same by assumption. auto.
Qed.

Lemma sim_next (p q : tomlParser) (t : token) :
  sameSoFar fl1 fl2 limit p q -> flow p !! flowIdx p = Some t -> typ t <> tokenEOF ->
    sameSoFar fl1 fl2 limit (next p) (next q).
Proof.
  intros (Hp & Hq & Hidx & Hle & Hb) Ht Hty. unfold sameSoFar. cbn [next flow flowIdx builder].
  repeat split; try assumption; [by rewrite Hidx|].
  eapply C_next; [exact Hle | by rewrite <- Hp | exact Hty].
Qed.

Lemma sim_withBuilder (w : world) (p q : tomlParser) :
  sameSoFar fl1 fl2 limit p q -> sameSoFar fl1 fl2 limit (withBuilder w p) (withBuilder w q).
Proof. intros (Hp & Hq & Hidx & Hle & Hb). by repeat split. Qed.

Lemma sim_builder (p q : tomlParser) : sameSoFar fl1 fl2 limit p q -> builder q = builder p.
Proof. by intros (_ & _ & _ & _ & Hb). Qed.

Lemma assume_alike (ty : tokenType) (p q : tomlParser) :
  ty <> tokenEOF -> sameSoFar fl1 fl2 limit p q -> alike (sameResult fl1 fl2 limit)
    (assume ty p) (assume ty q).
Proof.
  intros Hty Hsim. destruct (sim_token _ _ Hsim) as (t & Hp & Hq).
  rewrite (assume_at _ _ _ Hp), (assume_at _ _ _ Hq).
  case_bool_decide as Heq; cbn [alike]; [|reflexivity].
  split; [reflexivity|]. eapply sim_next; [eassumption..|congruence].
Qed.

Lemma onBuilder_alike (f : world -> result world) (p q : tomlParser) :
  sameSoFar fl1 fl2 limit p q -> alike (sameResult fl1 fl2 limit) (onBuilder f p) (onBuilder f q).
Proof.
  intros Hsim. rewrite !onBuilder_eq, (sim_builder _ _ Hsim). unfold mbind, result_bind.
  destruct (f (builder p)) as [w| |]; cbn [alike]; [|reflexivity|exact I].
  split; [reflexivity | by apply sim_withBuilder].
Qed.

Lemma found_alike (t : token) (value : iface) (p q : tomlParser) :
  sameSoFar fl1 fl2 limit p q -> alike (sameResult fl1 fl2 limit) (found t value p)
    (found t value q).
Proof.
  intros Hsim. rewrite !found_eq, (sim_builder _ _ Hsim). unfold mbind, result_bind.
  destruct (foundValue _ _ _) as [w| |]; cbn [alike]; [|reflexivity|exact I].
  split; [reflexivity | by apply sim_withBuilder].
Qed.

Lemma treeSet_alike (t : ptr) (key : string) (value : iface) (p q : tomlParser) :
  sameSoFar fl1 fl2 limit p q -> alike (sameResult fl1 fl2 limit) (treeSet t key value p)
    (treeSet t key value q).
Proof.
  intros Hsim. rewrite !treeSet_eq, (sim_builder _ _ Hsim).
  destruct (Set_ _ _ _ _) as [h|]; cbn [alike]; [|reflexivity].
  split; [reflexivity | by apply sim_withBuilder].
Qed.

Lemma parseStart_alike (p q : tomlParser) :
  sameSoFar fl1 fl2 limit p q ->
  alike (fun r p' r' q' => (sameResult fl1 fl2 limit) r p' r' q' /\
           match r with Some s => expects s p' | None => True end)
    (parseStart p) (parseStart q).
Proof.
  intros Hsim. destruct (sim_token _ _ Hsim) as (t & Hp & Hq).
  rewrite (parseStart_at _ _ Hp), (parseStart_at _ _ Hq).
  destruct (typ t) eqn:Hty; cbn [alike expects]; try reflexivity;
    (split; [by split|]; eauto).
Qed.

Lemma parseGroup_alike (p q : tomlParser) :
  sameSoFar fl1 fl2 limit p q -> expects parseGroupFn p ->
  alike (fun r p' r' q' => (sameResult fl1 fl2 limit) r p' r' q' /\ r = Some parseStartFn)
    (parseGroup p) (parseGroup q).
Proof.
  intros Hsim (s & Hs & Hsty).
  destruct (sim_token _ _ Hsim) as (s' & Hs' & Hsq). simplify_eq.
  assert (sameSoFar fl1 fl2 limit (next p) (next q)) as Hsim1
    by (eapply sim_next; [eassumption..|congruence]).
  destruct (sim_token _ _ Hsim1) as (k & Hk & Hkq).
  rewrite (parseGroup_eq _ _ _ Hs Hk), (parseGroup_eq _ _ _ Hsq Hkq).
  case_bool_decide as Hkty; [|reflexivity].
  destruct (parseKey (val k)) as [keys|err]; [|reflexivity].
  assert (sameSoFar fl1 fl2 limit (next (next p)) (next (next q))) as Hsim2
    by (eapply (sim_next (next p)); [eassumption..|congruence]).
  rewrite (sim_builder _ _ Hsim). unfold mbind at 1 3, result_bind at 1 3.
  destruct (enterGroup _ _ _ _) as [w| |]; cbn [alike]; [|reflexivity|exact I].
  eapply alike_mbind.
  - apply assume_alike; [discriminate | by apply sim_withBuilder].
  - intros [] p1 [] q1 [_ Hsim']. by cbn.
Qed.

Lemma parseGroupArray_alike (p q : tomlParser) :
  sameSoFar fl1 fl2 limit p q -> expects parseGroupArrayFn p ->
  alike (fun r p' r' q' => (sameResult fl1 fl2 limit) r p' r' q' /\ r = Some parseStartFn)
    (parseGroupArray p) (parseGroupArray q).
Proof.
  intros Hsim (s & Hs & Hsty).
  destruct (sim_token _ _ Hsim) as (s' & Hs' & Hsq). simplify_eq.
  assert (sameSoFar fl1 fl2 limit (next p) (next q)) as Hsim1
    by (eapply sim_next; [eassumption..|congruence]).
  destruct (sim_token _ _ Hsim1) as (k & Hk & Hkq).
  rewrite (parseGroupArray_eq _ _ _ Hs Hk), (parseGroupArray_eq _ _ _ Hsq Hkq).
  case_bool_decide as Hkty; [|reflexivity].
  destruct (parseKey (val k)) as [keys|err]; [|reflexivity].
  assert (sameSoFar fl1 fl2 limit (next (next p)) (next (next q))) as Hsim2
    by (eapply (sim_next (next p)); [eassumption..|congruence]).
  rewrite (sim_builder _ _ Hsim). unfold mbind at 1 3, result_bind at 1 3.
  destruct (enterGroupArray _ _ _ _) as [w| |]; cbn [alike]; [|reflexivity|exact I].
  eapply alike_mbind.
  - apply assume_alike; [discriminate | by apply sim_withBuilder].
  - intros [] p1 [] q1 [_ Hsim']. by cbn.
Qed.

Lemma parseArrayLoop_alike (value1 value2 : method iface) :
  (forall p q, sameSoFar fl1 fl2 limit p q -> alike (sameResult fl1 fl2 limit) (value1 p)
    (value2 q)) ->
  forall fuel1 fuel2 p q,
    sameSoFar fl1 fl2 limit p q ->
    alike (sameResult fl1 fl2 limit) (parseArrayLoop value1 fuel1 p)
      (parseArrayLoop value2 fuel2 q).
Proof.
  intros Hvalue. induction fuel1 as [|fuel1 IH]; intros fuel2 p q Hsim; [done|].
  destruct fuel2 as [|fuel2]; [apply alike_OutOfFuel_r|].
  destruct (sim_token _ _ Hsim) as (t & Hp & Hq).
  rewrite (parseArrayLoop_at _ _ _ _ Hp), (parseArrayLoop_at _ _ _ _ Hq).
  case_bool_decide as Heof; [reflexivity|].
  case_bool_decide as Hclose.
  { cbn [alike]. split; [reflexivity|]. by eapply sim_next. }
  specialize (Hvalue p q Hsim).
  destruct (value1 p) as [[v p1]| |], (value2 q) as [[v' q1]| |]; cbn [alike] in *;
    try done.
  - destruct Hvalue as [-> Hsim1].
    destruct (sim_token _ _ Hsim1) as (f & Hf & Hfq). rewrite Hf, Hfq.
    case_bool_decide as Heof1; [reflexivity|].
    destruct (_ && _); [reflexivity|].
    apply IH. case_bool_decide as Hcomma; [|assumption].
    eapply sim_next; [eassumption..|congruence].
  - apply alike_OutOfFuel_r.
Qed.

Lemma parseArray_alike (value1 value2 : method iface) (fuel1 fuel2 : nat)
  (p q : tomlParser) :
  (forall p q, sameSoFar fl1 fl2 limit p q -> alike (sameResult fl1 fl2 limit) (value1 p)
    (value2 q)) ->
  sameSoFar fl1 fl2 limit p q ->
  alike (sameResult fl1 fl2 limit) (parseArray value1 fuel1 p) (parseArray value2 fuel2 q).
Proof.
  intros Hvalue Hsim. unfold parseArray.
  eapply alike_bind; [by apply onBuilder_alike|].
  intros [] p1 [] q1 [_ Hsim1].
  eapply alike_bind; [by apply parseArrayLoop_alike|].
  intros [] p2 [] q2 [_ Hsim2]. by apply onBuilder_alike.
Qed.

Lemma parseInlineTableLoop_alike (value1 value2 : method iface) :
  (forall p q, sameSoFar fl1 fl2 limit p q -> alike (sameResult fl1 fl2 limit) (value1 p)
    (value2 q)) ->
  forall fuel1 fuel2 tree previous p q,
    sameSoFar fl1 fl2 limit p q ->
    alike (sameResult fl1 fl2 limit) (parseInlineTableLoop value1 tree previous fuel1 p)
      (parseInlineTableLoop value2 tree previous fuel2 q).
Proof.
  intros Hvalue. induction fuel1 as [|fuel1 IH]; intros fuel2 tree previous p q Hsim; [done|].
  destruct fuel2 as [|fuel2]; [apply alike_OutOfFuel_r|].
  destruct (sim_token _ _ Hsim) as (f & Hp & Hq).
  rewrite (parseInlineTableLoop_at _ _ _ _ _ _ Hp), (parseInlineTableLoop_at _ _ _ _ _ _ Hq).
  destruct (typ f) eqn:Hty; try reflexivity.
  - destruct (_ && _); [reflexivity|].
    eapply alike_mbind.
    { apply assume_alike; [discriminate|]. eapply sim_next; [eassumption..|congruence]. }
    intros [] p1 [] q1 [_ Hsim1]. cbv beta iota.
    eapply alike_mbind; [by apply Hvalue|].
    intros v p2 v' q2 [-> Hsim2]. cbv beta iota.
    destruct tree as [t|]; [|reflexivity].
    eapply alike_mbind; [by apply treeSet_alike|].
    intros [] p3 [] q3 [_ Hsim3]. by apply IH.
  - case_bool_decide; [reflexivity|]. destruct (tokenIsComma previous); [reflexivity|].
    apply IH. eapply sim_next; [eassumption..|congruence].
  - cbn [alike]. split; [reflexivity|]. eapply sim_next; [eassumption..|congruence].
Qed.

Lemma parseInlineTable_alike (value1 value2 : method iface) (fuel1 fuel2 : nat)
  (p q : tomlParser) :
  (forall p q, sameSoFar fl1 fl2 limit p q -> alike (sameResult fl1 fl2 limit) (value1 p)
    (value2 q)) ->
  sameSoFar fl1 fl2 limit p q ->
  alike (sameResult fl1 fl2 limit) (parseInlineTable value1 fuel1 p)
    (parseInlineTable value2 fuel2 q).
Proof.
  intros Hvalue Hsim. unfold parseInlineTable.
  eapply alike_bind; [by apply onBuilder_alike|].
  intros [] p1 [] q1 [_ Hsim1].
  eapply (alike_bind (sameResult fl1 fl2 limit)).
  { rewrite (sim_builder _ _ Hsim1). cbn [alike]. by split. }
  intros tree p2 tree' q2 [-> Hsim2].
  eapply alike_bind; [by apply parseInlineTableLoop_alike|].
  intros previous p3 previous' q3 [-> Hsim3].
  destruct (tokenIsComma previous).
  - destruct previous; by cbn.
  - cbn [ret alike]. by split.
Qed.

Lemma parseRvalue_alike (lib : GoLibrary) :
  forall fuel1 fuel2 p q,
    sameSoFar fl1 fl2 limit p q -> alike (sameResult fl1 fl2 limit) (parseRvalue lib fuel1 p)
      (parseRvalue lib fuel2 q).
Proof.
  induction fuel1 as [|fuel1 IH]; intros fuel2 p q Hsim; [done|].
  destruct fuel2 as [|fuel2]; [apply alike_OutOfFuel_r|].
  destruct (sim_token _ _ Hsim) as (t & Hp & Hq).
  rewrite (parseRvalue_at _ _ _ _ Hp), (parseRvalue_at _ _ _ _ Hq).
  assert (typ t <> tokenEOF -> sameSoFar fl1 fl2 limit (next p) (next q)) as Hnext
    by (intros; by eapply sim_next).
  destruct (typ t) eqn:Hty; try reflexivity;
    try (apply found_alike, Hnext; discriminate).
  - eapply alike_mbind.
    + apply parseArray_alike; [intros; by apply IH | apply Hnext; discriminate].
    + intros [] p1 [] q1 [_ Hsim1]. cbn [alike]. by split.
  - apply parseInlineTable_alike; [intros; by apply IH | apply Hnext; discriminate].
  - destruct (parseInteger t); [|reflexivity|exact I].
    apply found_alike, Hnext; discriminate.
  - destruct (separatorsFlanked _ _); [|reflexivity].
    destruct (ParseFloat _ _); [|reflexivity]. apply found_alike, Hnext; discriminate.
  - destruct (ParseInLocation _ _); [|reflexivity]. apply found_alike, Hnext; discriminate.
  - destruct (val t); [reflexivity|]. apply found_alike, Hnext; discriminate.
Qed.

Lemma parseAssign_alike (lib : GoLibrary) (p q : tomlParser) :
  sameSoFar fl1 fl2 limit p q -> expects parseAssignFn p ->
  alike (fun r p' r' q' => (sameResult fl1 fl2 limit) r p' r' q' /\ r = Some parseStartFn)
    (parseAssign lib p) (parseAssign lib q).
Proof.
  intros Hsim (k & Hk & Hkty).
  destruct (sim_token _ _ Hsim) as (k' & Hk' & Hkq). simplify_eq.
  unfold parseAssign.
  rewrite (bind_eq _ _ _ _ _ (getToken_at p k Hk)), (bind_eq _ _ _ _ _ (getToken_at q k Hkq)).
  eapply alike_bind.
  { apply assume_alike; [discriminate|]. eapply sim_next; [eassumption..|congruence]. }
  intros [] p1 [] q1 [_ Hsim1].
  eapply alike_bind; [by apply onBuilder_alike|].
  intros [] p2 [] q2 [_ Hsim2].
  eapply alike_bind. { cbv beta. apply parseRvalue_alike. exact Hsim2. }
  intros v p3 v' q3 [_ Hsim3]. cbn [ret alike].
  split; [split; [reflexivity | exact Hsim3] | reflexivity].
Qed.

Lemma call_alike (lib : GoLibrary) (state : tomlParserStateFn) (p q : tomlParser) :
  sameSoFar fl1 fl2 limit p q -> expects state p ->
  alike (fun r p' r' q' => (sameResult fl1 fl2 limit) r p' r' q' /\
           match r with Some s => expects s p' | None => True end)
    (call lib state p) (call lib state q).
Proof.
  intros Hsim Hstate. destruct state; cbn [call].
  - by apply parseStart_alike.
  - eapply alike_weaken; [by apply parseGroupArray_alike|].
    by intros r p' r' q' [Hsame ->].
  - eapply alike_weaken; [by apply parseGroup_alike|].
    by intros r p' r' q' [Hsame ->].
  - eapply alike_weaken; [by apply parseAssign_alike|].
    by intros r p' r' q' [Hsame ->].
Qed.

Lemma runFrom_alike (lib : GoLibrary) :
  forall fuel1 fuel2 state p q,
    sameSoFar fl1 fl2 limit p q -> expects state p ->
    alike (fun _ p' _ q' => builder q' = builder p')
      (runFrom lib fuel1 state p) (runFrom lib fuel2 state q).
Proof.
  induction fuel1 as [|fuel1 IH]; intros fuel2 state p q Hsim Hstate; [done|].
  destruct fuel2 as [|fuel2]; [apply alike_OutOfFuel_r|].
  cbn [runFrom]. eapply alike_bind; [by apply call_alike|].
  intros r p1 r' q1 [[-> Hsim1] Hr]. destruct r as [s|].
  - by apply IH.
  - cbn [ret alike]. by apply sim_builder.
Qed.

End Cutoff.

(** X28.  The tokens behind an end-of-file token are never read: two flows
    that are the same up to such a token are parsed to the same result,
    the same tree or the same panic. *)
Theorem tokens_behind_the_end_of_file_are_never_read (lib : GoLibrary)
  (before after after' : list token) (z : token) :
  typ z = tokenEOF ->
  parseToml lib (before ++ z :: after) = parseToml lib (before ++ z :: after').
Proof.
  intros Hz.
  pose proof (parseToml_returns lib (before ++ z :: after)) as Hret1.
  pose proof (parseToml_returns lib (before ++ z :: after')) as Hret2.
  assert (alike (fun _ p' _ q' => builder q' = builder p')
            (runFrom lib (enoughFuel (before ++ z :: after)) parseStartFn
               (start (before ++ z :: after)))
            (runFrom lib (enoughFuel (before ++ z :: after')) parseStartFn
               (start (before ++ z :: after')))) as Halike.
  { apply (runFrom_alike (before ++ z :: after) (before ++ z :: after')
             (List.length before)); try done.
    - intros i Hi. destruct (decide (i = List.length before)) as [->|].
      + by rewrite !list_lookup_middle.
      + by rewrite !lookup_app_l by lia.
    - intros i Hi. apply lookup_lt_is_Some. rewrite length_app. cbn [List.length]. lia.
    - intros i t Hi Ht Hty.
      destruct (decide (i = List.length before)) as [->|]; [|lia].
      rewrite list_lookup_middle in Ht by reflexivity. by injection Ht as <-.
    - repeat split; cbn [flowIdx start]; lia. }
  unfold parseToml, run, mbind, result_bind in *.
  fold (start (before ++ z :: after)) in *. fold (start (before ++ z :: after')) in *.
  cbn [flow start] in *.
  destruct (runFrom lib (enoughFuel (before ++ z :: after)) _ _) as [[[] p']| |];
    destruct (runFrom lib (enoughFuel (before ++ z :: after')) _ _) as [[[] q']| |];
    cbn [alike] in Halike; try done.
  - by rewrite Halike.
  - by rewrite Halike.
Qed.

(** X28 at a comma behind the end of the file. *)
Lemma tokens_behind_the_end_of_file_witness :
  parseToml noLibrary
    (doc_assign (mkPosition 1 1) "a" (tok 1 5 tokenString "s") []
     ++ tok 2 1 tokenEOF EmptyString :: [tok 3 1 tokenComma ","])
  = parseToml noLibrary
      (doc_assign (mkPosition 1 1) "a" (tok 1 5 tokenString "s") []
       ++ tok 2 1 tokenEOF EmptyString :: []).
Proof.
  apply (tokens_behind_the_end_of_file_are_never_read noLibrary
           (doc_assign (mkPosition 1 1) "a" (tok 1 5 tokenString "s") [])
           [tok 3 1 tokenComma ","] [] (tok 2 1 tokenEOF EmptyString)).
  reflexivity.
Defined.
